(** * Loop-scheduling simulator: the engine and its scheduling policies

    A shallow embedding of [simulator/simulator.py] (the engine [simulate])
    and [simulator/schedulers.py] (the policies [Scheduler], [OpenMPStatic],
    [LPT], [OpenMPDynamic]), followed by the properties stated about them.

    Conventions of the embedding:
    - Python [int] is [Z]; task loads are integers.
    - A Python list is a [list]; indexing follows Python ([py_index]): a
      negative index counts from the end, anything out of range raises
      [IndexError].
    - A raised exception is the [Raise] case of [res].
    - A scheduler object is a value of its state type; [query] returns the
      new state next to its result (state passing).
    - The messages the engine prints under [debug] are kept as a list of
      [event]s, in the order they are printed.
    - [heapq] is Python's library; it is modelled by its contract: a queue
      kept in ascending tuple order, [heappop] takes the least item. *)

From Stdlib Require Import ZArith List Lia Bool.
From stdpp Require Import base tactics option list list_numbers sorting sets.

Open Scope Z_scope.

(** ** Python exceptions and results *)

Inductive exn : Type :=
| IndexError
| ZeroDivisionError
| UnboundLocalError
| TypeError.

Inductive res (A : Type) : Type :=
| Ok (a : A)
| Raise (e : exn).
Arguments Ok {A} a.
Arguments Raise {A} e.

#[global] Instance res_ret : MRet res := fun A a => Ok a.
#[global] Instance res_bind : MBind res := fun A B f m =>
  match m with
  | Ok a => f a
  | Raise e => Raise e
  end.

(** [range(n)] *)
Definition range (n : Z) : list Z := seqZ 0 n.

(** The position a Python index [i] denotes in a list of length [n]. *)
Definition py_index (n : nat) (i : Z) : res nat :=
  if decide (0 <= i < Z.of_nat n) then Ok (Z.to_nat i)
  else if decide (- Z.of_nat n <= i < 0) then Ok (Z.to_nat (Z.of_nat n + i))
  else Raise IndexError.

(** [l[i]] *)
Definition py_get {A : Type} (l : list A) (i : Z) : res A :=
  k ← py_index (length l) i;
  match l !! k with
  | Some x => Ok x
  | None => Raise IndexError
  end.

(** [l[i] = x] *)
Definition py_set {A : Type} (l : list A) (i : Z) (x : A) : res (list A) :=
  k ← py_index (length l) i;
  Ok (<[k := x]> l).

(** [a // b] and [a % b]: Python floors, as [Z.div] and [Z.modulo] do. *)
Definition py_floordiv (a b : Z) : res Z :=
  if decide (b = 0) then Raise ZeroDivisionError else Ok (a / b).
Definition py_mod (a b : Z) : res Z :=
  if decide (b = 0) then Raise ZeroDivisionError else Ok (a mod b).

(** A [for x in l: body] loop over a state [St], stopping at the first
    exception. *)
Fixpoint for_in {A St : Type} (l : list A) (body : A -> St -> res St) (s : St)
  : res St :=
  match l with
  | [] => Ok s
  | x :: l' => s' ← body x s; for_in l' body s'
  end.

(** What a [query] hands back: a list of task identifiers, or [None] when
    the method body falls through without a [return]. *)
Inductive pyval : Type :=
| PyNone
| PyList (l : list Z).

(** The list a value is iterated as once it has passed [if new_tasks:];
    [None] and [[]] are both falsy. *)
Definition as_tasks (v : pyval) : list Z :=
  match v with
  | PyNone => []
  | PyList l => l
  end.

(** ** heapq *)

Module heapq.

(** Python compares tuples lexicographically. *)
Definition tuple_ltb (a b : Z * Z) : bool :=
  (a.1 <? b.1) || ((a.1 =? b.1) && (a.2 <? b.2)).

Definition tuple_le (a b : Z * Z) : Prop :=
  a.1 < b.1 \/ (a.1 = b.1 /\ a.2 <= b.2).

Fixpoint heappush (heap : list (Z * Z)) (item : Z * Z) : list (Z * Z) :=
  match heap with
  | [] => [item]
  | x :: heap' =>
      if tuple_ltb item x then item :: x :: heap'
      else x :: heappush heap' item
  end.

Definition heappop (heap : list (Z * Z)) : option ((Z * Z) * list (Z * Z)) :=
  match heap with
  | [] => None
  | x :: heap' => Some (x, heap')
  end.

End heapq.

(** ** schedulers.py *)

(** The interface every policy implements: [query(resource_id)]. *)
Class Scheduler (S : Type) : Type :=
  query : S -> Z -> res (S * pyval).

(** *** class Scheduler *)

Record BasicScheduler : Type := mkBasic {
  basic_num_resources : Z
}.

#[global] Instance Basic_query : Scheduler BasicScheduler :=
  fun self resource_id => Ok (self, PyList []).

(** *** class OpenMPStatic *)

Record OpenMPStatic : Type := mkStatic {
  static_num_resources : Z;
  chunk_size : Z;
  schedule : list (list Z)
}.

(** [schedule[resource].append(task)] *)
Definition schedule_append (schedule : list (list Z)) (resource task : Z)
  : res (list (list Z)) :=
  l ← py_get schedule resource;
  py_set schedule resource (l ++ [task]).

(** The compact branch: the body of [for resource in range(num_resources)],
    over the loop-carried variables [(task, leftover, schedule)]. *)
Definition compact_body (partition_size : Z) (resource : Z)
    (st : Z * Z * list (list Z)) : res (Z * Z * list (list Z)) :=
  let '(task, leftover, schedule) := st in
  let '(group_size, leftover) :=
    if decide (leftover > 0) then (partition_size + 1, leftover - 1)
    else (partition_size, leftover) in
  '(task, schedule) ← for_in (range group_size)
      (fun _ '(task, schedule) =>
         schedule ← schedule_append schedule resource task;
         Ok (task + 1, schedule))
      (task, schedule);
  Ok (task, leftover, schedule).

(** The round-robin branch: the body of [for task in range(num_tasks)], over
    [(resource, chunk_counter, schedule)]. *)
Definition round_robin_body (num_resources chunk_size : Z) (task : Z)
    (st : Z * Z * list (list Z)) : res (Z * Z * list (list Z)) :=
  let '(resource, chunk_counter, schedule) := st in
  schedule ← schedule_append schedule resource task;
  let chunk_counter := chunk_counter + 1 in
  if decide (chunk_counter = chunk_size) then
    resource ← py_mod (resource + 1) num_resources;
    Ok (resource, 0, schedule)
  else Ok (resource, chunk_counter, schedule).

(** [OpenMPStatic.__init__(tasks, num_resources, chunk_size)] *)
Definition OpenMPStatic_init (tasks : list Z) (num_resources chunk_size : Z)
  : res OpenMPStatic :=
  let schedule := (fun _ => @nil Z) <$> range num_resources in
  let num_tasks := Z.of_nat (length tasks) in
  schedule ←
    (if decide (chunk_size = 0) then
       partition_size ← py_floordiv num_tasks num_resources;
       leftover ← py_mod num_tasks num_resources;
       '(_, _, schedule) ← for_in (range num_resources)
           (compact_body partition_size) (0, leftover, schedule);
       Ok schedule
     else
       '(_, _, schedule) ← for_in (range num_tasks)
           (round_robin_body num_resources chunk_size) (0, 0, schedule);
       Ok schedule);
  Ok (mkStatic num_resources chunk_size schedule).

(** [OpenMPStatic.query(resource_id)] *)
#[global] Instance OpenMPStatic_query : Scheduler OpenMPStatic :=
  fun self resource_id =>
    tasks ← py_get (schedule self) resource_id;
    match tasks with
    | _ :: _ =>
        schedule ← py_set (schedule self) resource_id [];
        Ok (mkStatic (static_num_resources self) (chunk_size self) schedule,
            PyList tasks)
    | [] => Ok (self, PyList tasks)
    end.

(** *** class LPT *)

Record LPT : Type := mkLPT {
  lpt_num_resources : Z;
  lpt_tasks : list (Z * Z)
}.

(** [list.sort(reverse=True)] on [(load, index)] tuples: descending tuple
    order, equal items keeping their order. *)
Fixpoint insert_desc (x : Z * Z) (l : list (Z * Z)) : list (Z * Z) :=
  match l with
  | [] => [x]
  | y :: l' =>
      if heapq.tuple_ltb x y then y :: insert_desc x l' else x :: y :: l'
  end.

Definition sort_reverse (l : list (Z * Z)) : list (Z * Z) :=
  foldr insert_desc [] l.

(** [LPT.__init__(tasks, num_resources)] *)
Definition LPT_init (tasks : list Z) (num_resources : Z) : LPT :=
  let tasks_by_priority := imap (fun i load => (load, Z.of_nat i)) tasks in
  mkLPT num_resources (sort_reverse tasks_by_priority).

(** [LPT.query(resource_id)] *)
#[global] Instance LPT_query : Scheduler LPT :=
  fun self resource_id =>
    match lpt_tasks self with
    | (load, task_id) :: rest =>
        Ok (mkLPT (lpt_num_resources self) rest, PyList [task_id])
    | [] => Ok (self, PyList [])
    end.

(** *** class OpenMPDynamic

    In the source both methods end in a [# TODO] comment: [__init__] stores
    the chunk size, and [query] has no [return], so it yields [None]. *)

Record OpenMPDynamic : Type := mkDynamic {
  dynamic_num_resources : Z;
  dynamic_chunk_size : Z
}.

Definition OpenMPDynamic_init (tasks : list Z) (num_resources chunk_size : Z)
  : OpenMPDynamic :=
  mkDynamic num_resources chunk_size.

#[global] Instance OpenMPDynamic_query : Scheduler OpenMPDynamic :=
  fun self resource_id => Ok (self, PyNone).

(** ** simulator.py *)

(** The two messages [simulate] prints under [debug], one per query:
    "[time] - Resource res_id got tasks new_tasks." and
    "[time] - Resource res_id is done." *)
Inductive event : Type :=
| Got (time res_id : Z) (new_tasks : list Z)
| Done (time res_id : Z).

(** What a call of [simulate] ends in: a returned tuple or an exception.
    [OutOfFuel] belongs to the embedding only (see [simulate_debug_halts]). *)
Inductive outcome : Type :=
| Returned (result : list Z * Z * Z * Z)
| Raises (e : exn)
| OutOfFuel.

(** [([], -1, -1 , -1)] *)
Definition failure : list Z * Z * Z * Z := ([], -1, -1, -1).

(** The inner [for task_id in new_tasks] loop either runs to its end, hits
    the [return] of the safety check, or raises. *)
Inductive assigned : Type :=
| Assigned (mapping : list Z) (extra_time : Z)
| Conflict
| Failed (e : exn).

Fixpoint assign (tasks : list Z) (res_id : Z) (new_tasks : list Z)
    (mapping : list Z) (extra_time : Z) : assigned :=
  match new_tasks with
  | [] => Assigned mapping extra_time
  | task_id :: new_tasks' =>
      match py_get mapping task_id with
      | Raise e => Failed e
      | Ok owner =>
          if decide (owner <> -1) then Conflict
          else
            match py_set mapping task_id res_id with
            | Raise e => Failed e
            | Ok mapping =>
                match py_get tasks task_id with
                | Raise e => Failed e
                | Ok load =>
                    assign tasks res_id new_tasks' mapping (extra_time + load)
                end
            end
      end
  end.

(** The closing loop counting resource changes between contiguous tasks. *)
Definition contig_changes (tasks mapping : list Z) : res Z :=
  for_in (range (Z.of_nat (length tasks) - 1))
    (fun i contig =>
       a ← py_get mapping i;
       b ← py_get mapping (i + 1);
       Ok (if decide (a <> b) then contig + 1 else contig))
    0.

Section Engine.
Context {S : Type} `{!Scheduler S}.

(** The variables of [simulate] that live across iterations of the
    [while] loop. [time] is unbound until the first [heappop]. *)
Record state : Type := mkState {
  resources : list (Z * Z);
  mapping : list Z;
  requests : Z;
  time : option Z;
  scheduler : S;
  output : list event
}.

Inductive step_result : Type :=
| Next (st : state)
| Halt (o : outcome) (out : list event).

(** The code after the [while] loop. *)
Definition finish (tasks : list Z) (st : state) : outcome :=
  match contig_changes tasks (mapping st) with
  | Raise e => Raises e
  | Ok contig =>
      match time st with
      | None => Raises UnboundLocalError
      | Some time => Returned (mapping st, time, requests st, contig)
      end
  end.

(** The loop test and one run of the loop body. *)
Definition step (tasks : list Z) (st : state) : step_result :=
  match heapq.heappop (resources st) with
  | None => Halt (finish tasks st) (output st)
  | Some ((time, res_id), resources) =>
      match query (scheduler st) res_id with
      | Raise e => Halt (Raises e) (output st)
      | Ok (scheduler, v) =>
          match as_tasks v with
          | [] =>
              Next (mkState resources (mapping st) (requests st) (Some time)
                      scheduler (output st ++ [Done time res_id]))
          | new_tasks =>
              let out := output st ++ [Got time res_id new_tasks] in
              match assign tasks res_id new_tasks (mapping st) 0 with
              | Failed e => Halt (Raises e) out
              | Conflict => Halt (Returned failure) out
              | Assigned mapping extra_time =>
                  Next (mkState
                          (heapq.heappush resources (time + extra_time, res_id))
                          mapping (requests st + 1) (Some time) scheduler out)
              end
          end
      end
  end.

Fixpoint loop (fuel : nat) (tasks : list Z) (st : state)
  : outcome * list event :=
  match step tasks st with
  | Halt o out => (o, out)
  | Next st' =>
      match fuel with
      | O => (OutOfFuel, output st')
      | Datatypes.S fuel' => loop fuel' tasks st'
      end
  end.

(** The setup before the loop. *)
Definition initial (tasks : list Z) (num_resources : Z) (scheduler : S)
  : state :=
  mkState ((fun i => (0, i)) <$> range num_resources)
          (replicate (length tasks) (-1)) 0 None scheduler [].

(** [simulate(tasks, num_resources, scheduler, debug=True)]: the returned
    tuple and the debug messages. Every pass through the loop body either
    fills at least one free slot of the mapping or retires a resource, so
    [len(tasks) + num_resources] passes are all there can be. *)
Definition simulate_debug (tasks : list Z) (num_resources : Z)
    (scheduler : S) : outcome * list event :=
  loop (length tasks + Z.to_nat num_resources) tasks
       (initial tasks num_resources scheduler).

(** [simulate(tasks, num_resources, scheduler)] *)
Definition simulate (tasks : list Z) (num_resources : Z) (scheduler : S)
  : outcome :=
  (simulate_debug tasks num_resources scheduler).1.

End Engine.

Arguments state S : clear implicits.
Arguments step_result S : clear implicits.

(** ** Vocabulary of the properties *)

(** A task index Python accepts for a list of length [n], and the position
    it denotes. *)
Definition valid_index (n : nat) (i : Z) : Prop :=
  - Z.of_nat n <= i < Z.of_nat n.

Definition position (n : nat) (i : Z) : nat :=
  if decide (0 <= i) then Z.to_nat i else Z.to_nat (Z.of_nat n + i).

(** The load of task [i], and of a batch of tasks. *)
Definition load (tasks : list Z) (i : Z) : Z :=
  default 0 (tasks !! position (length tasks) i).

Definition batch_load (tasks : list Z) (new_tasks : list Z) : Z :=
  foldr (fun i acc => load tasks i + acc) 0 new_tasks.

Definition ev_time (e : event) : Z :=
  match e with Got t _ _ => t | Done t _ => t end.

Definition ev_res (e : event) : Z :=
  match e with Got _ r _ => r | Done _ r => r end.

(** The virtual finish time a query leaves its resource with. *)
Definition ev_finish (tasks : list Z) (e : event) : Z :=
  match e with
  | Got t _ new_tasks => t + batch_load tasks new_tasks
  | Done t _ => t
  end.

(** The virtual finish time of resource [r] after the queries of [log]:
    0 at the start, then whatever its latest query left. *)
Definition finish_time (tasks : list Z) (log : list event) (r : Z) : Z :=
  foldl (fun acc e => if decide (ev_res e = r) then ev_finish tasks e else acc)
        0 log.

(** Resource [r] got an empty answer somewhere in [log]. *)
Definition retired (log : list event) (r : Z) : Prop :=
  exists t, Done t r ∈ log.

(** The positions handed out by the queries of [log]. *)
Definition handed (n : nat) (log : list event) : list nat :=
  log ≫= (fun e => match e with
                     | Got _ _ new_tasks => position n <$> new_tasks
                     | Done _ _ => []
                     end).

(** The number of answered (non-empty) queries in [log]. *)
Definition is_got (e : event) : bool :=
  match e with Got _ _ _ => true | Done _ _ => false end.

Definition answered (log : list event) : Z :=
  Z.of_nat (length (filter (fun e => is_got e = true) log)).

(** The total load of the tasks a mapping gives to resource [r]. *)
Fixpoint mapped_load (tasks mapping : list Z) (r : Z) : Z :=
  match tasks, mapping with
  | l :: tasks', owner :: mapping' =>
      (if decide (owner = r) then l else 0) + mapped_load tasks' mapping' r
  | _, _ => 0
  end.

Section Runs.
Context {S : Type} `{!Scheduler S}.

(** The state after [k] full passes through the loop body, if the loop
    gets that far. *)
Fixpoint run (k : nat) (tasks : list Z) (st : state S) : option (state S) :=
  match k with
  | O => Some st
  | Datatypes.S k' =>
      match step tasks st with
      | Next st' => run k' tasks st'
      | Halt _ _ => None
      end
  end.

(** The loop variant: free slots of the mapping plus queued resources. *)
Definition variant (st : state S) : nat :=
  Nat.add (length (filter (fun x : Z => x = -1) (mapping st)))
          (length (resources st)).

End Runs.

(** The number of free slots ([-1]) of a mapping. *)
Definition free (mapping : list Z) : nat :=
  length (filter (fun x : Z => x = -1) mapping).

(** A query is in order after the queries [pre] when it goes to a resource
    that is still active, at that resource's finish time, and no active
    resource comes before it in the (finish time, resource id) order. *)
Definition in_order (tasks : list Z) (R : Z) (pre : list event) (e : event)
  : Prop :=
  0 <= ev_res e < R /\
  ~ retired pre (ev_res e) /\
  ev_time e = finish_time tasks pre (ev_res e) /\
  forall r, 0 <= r < R -> ~ retired pre r ->
    heapq.tuple_le (ev_time e, ev_res e) (finish_time tasks pre r, r).

Definition all_in_order (tasks : list Z) (R : Z) (log : list event) : Prop :=
  forall pre e post, log = pre ++ e :: post -> in_order tasks R pre e.

Section Invariant.
Context {S : Type} `{!Scheduler S}.
Variables (tasks : list Z) (R : Z).

(** What holds of the engine's variables at every loop test. *)
Record inv (st : state S) : Prop := mkInv {
  inv_len : length (mapping st) = length tasks;
  inv_sorted : StronglySorted heapq.tuple_le (resources st);
  inv_nodup : NoDup (resources st).*2;
  inv_queue : forall t r, (t, r) ∈ resources st ->
    0 <= r < R /\ ~ retired (output st) r /\
    t = finish_time tasks (output st) r;
  inv_active : forall r, 0 <= r < R ->
    retired (output st) r \/ r ∈ (resources st).*2;
  inv_load : forall r, 0 <= r < R ->
    mapped_load tasks (mapping st) r = finish_time tasks (output st) r;
  inv_handed : forall k, (k < length tasks)%nat ->
    mapping st !! k <> Some (-1) <-> k ∈ handed (length tasks) (output st);
  inv_owner : forall k r, mapping st !! k = Some r -> r = -1 \/ 0 <= r < R;
  inv_requests : requests st = answered (output st);
  inv_time : time st = ev_time <$> last (output st);
  inv_done : forall d r, Done d r ∈ output st ->
    finish_time tasks (output st) r = d;
  inv_log : all_in_order tasks R (output st)
}.

(** With loads that are not negative, time never runs backwards. *)
Record inv_mono (st : state S) : Prop := mkInvMono {
  mono_queue : forall e x, e ∈ output st -> x ∈ resources st ->
    ev_time e <= x.1;
  mono_last : forall e e', e ∈ output st -> last (output st) = Some e' ->
    ev_time e <= ev_time e'
}.

End Invariant.

(** ** Vocabulary of the policies *)

(** The answers a scheduler gives to a sequence of queries, one for each
    resource id of [rs] in turn. *)
Fixpoint ask {S : Type} `{!Scheduler S} (s : S) (rs : list Z)
  : res (S * list pyval) :=
  match rs with
  | [] => Ok (s, [])
  | r :: rs' =>
      '(s', v) ← query s r;
      '(s'', vs) ← ask s' rs';
      Ok (s'', v :: vs)
  end.

(** Contiguous Block over [N] tasks and [R] resources: where the run of
    resource [r] starts, how long it is, and the run itself. *)
Definition block_size (N R r : Z) : Z :=
  if decide (r < N mod R) then N / R + 1 else N / R.

Definition block_start (N R r : Z) : Z :=
  r * (N / R) + Z.min r (N mod R).

Definition block (N R r : Z) : list Z :=
  seqZ (block_start N R r) (block_size N R r).

(** Chunked Round Robin with chunk size [c]: the tasks dealt to resource
    [r], those whose chunk number is [r] modulo [R]. *)
Definition dealt (N R c r : Z) : list Z :=
  filter (fun t => (t / c) mod R = r) (range N).

(** The compact schedule once the resources below [k] have got their
    runs. *)
Definition blocks_upto (N R k r : Z) : list Z :=
  if decide (r < k) then block N R r else [].

(** A schedule [f] once the resources of [asked] have been served. *)
Definition left_after (f : Z -> list Z) (asked : list Z) (r : Z) : list Z :=
  if decide (r ∈ asked) then [] else f r.

(** The priority order of LPT: larger load first, larger index first among
    equal loads. *)
Definition before (a b : Z * Z) : Prop :=
  a.1 > b.1 \/ (a.1 = b.1 /\ a.2 > b.2).

Section Handout.
Context {S : Type} `{!Scheduler S}.
Variables (n : nat) (R : Z).

(** A policy hands out every task once when its states carry, for each
    resource, a list of the tasks still meant for it ([pending]), and a
    query returns some of the asker's pending tasks and drops them from
    every list, an empty answer meaning the asker has none left. *)
Record handout (ok : S -> Prop) (pending : S -> Z -> list Z) : Prop :=
  mkHandout {
    handout_valid : forall s r i,
      ok s -> i ∈ pending s r -> 0 <= i < Z.of_nat n;
    handout_query : forall s r,
      ok s -> 0 <= r < R ->
      exists s' ts,
        query s r = Ok (s', PyList ts) /\ ok s' /\ NoDup ts /\
        (ts = [] -> pending s r = []) /\
        (forall i, i ∈ ts -> i ∈ pending s r) /\
        (forall r' i, i ∈ pending s r' -> i ∈ ts \/ i ∈ pending s' r') /\
        (forall r' i, i ∈ pending s' r' -> (i ∉ ts) /\ i ∈ pending s r')
  }.

(** What the engine keeps true of such a policy: pending tasks are free
    in the mapping, and a free task is pending for a queued resource. *)
Record served (ok : S -> Prop) (pending : S -> Z -> list Z)
    (st : state S) : Prop := mkServed {
  served_ok : ok (scheduler st);
  served_free : forall r i, i ∈ pending (scheduler st) r ->
    mapping st !! Z.to_nat i = Some (-1);
  served_owed : forall k, (k < n)%nat -> mapping st !! k = Some (-1) ->
    exists r, r ∈ (resources st).*2 /\
              Z.of_nat k ∈ pending (scheduler st) r
}.

End Handout.

(** The pending tasks of the two implemented policies. *)
Definition static_pending (s : OpenMPStatic) (r : Z) : list Z :=
  default [] (schedule s !! Z.to_nat r).

Definition static_ok (n : nat) (R : Z) (s : OpenMPStatic) : Prop :=
  length (schedule s) = Z.to_nat R /\
  (forall k l, schedule s !! k = Some l ->
     NoDup l /\ forall i, i ∈ l -> 0 <= i < Z.of_nat n) /\
  (forall k k' l l' i, schedule s !! k = Some l -> schedule s !! k' = Some l' ->
     i ∈ l -> i ∈ l' -> k = k').

Definition lpt_pending (s : LPT) (r : Z) : list Z := (lpt_tasks s).*2.

Definition lpt_ok (n : nat) (s : LPT) : Prop :=
  NoDup (lpt_tasks s).*2 /\
  forall i, i ∈ (lpt_tasks s).*2 -> (0 <= i < Z.of_nat n).

(** The queued resources whose precomputed list is still to be handed
    out. *)
Definition waiting (s : OpenMPStatic) (q : list (Z * Z)) : nat :=
  length (filter (fun x : Z * Z => static_pending s x.2 <> []) q).

(** Modelled from the spec: the Global-Queue Dynamic policy. The source
    declares it as [OpenMPDynamic] and leaves both method bodies as a
    [# TODO]; this is the policy the spec describes: one shared pointer into
    the task order, starting at 0; a query takes [min(c, remaining)] tasks
    from the pointer and advances it, and answers with the empty list once
    the pointer has reached [N]. *)
Record GlobalQueue : Type := mkGlobalQueue {
  gq_num_tasks : Z;
  gq_chunk_size : Z;
  gq_pointer : Z
}.

Definition GlobalQueue_init (tasks : list Z) (num_resources chunk_size : Z)
  : GlobalQueue :=
  mkGlobalQueue (Z.of_nat (length tasks)) chunk_size 0.

#[global] Instance GlobalQueue_query : Scheduler GlobalQueue :=
  fun self resource_id =>
    let remaining := gq_num_tasks self - gq_pointer self in
    let taken := Z.min (gq_chunk_size self) remaining in
    Ok (mkGlobalQueue (gq_num_tasks self) (gq_chunk_size self)
          (gq_pointer self + taken),
        PyList (seqZ (gq_pointer self) taken)).

(** * The same code over a store of list objects

    Python lists are objects, and [simulate] and a policy's constructor are
    handed a reference to the caller's list of loads. Here the code is
    written once more with the objects kept in a store, each list at a
    location of its own, so that a write to a list shows as a write to its
    location. *)

Module Heap.

Abbreviation loc := nat.

(** The list objects the code works with: lists of integers (the loads,
    the mapping, a batch of tasks), lists of pairs (the ready queue, LPT's
    priority list) and lists of lists (the static schedule). *)
Inductive obj : Type :=
| Ints (l : list Z)
| Pairs (l : list (Z * Z))
| Refs (l : list loc).

Abbreviation store := (list obj).

(** A computation reads and writes the store, and returns or raises; the
    store survives an exception. *)
Definition M (A : Type) : Type := store -> res A * store.

Definition ret {A : Type} (a : A) : M A := fun σ => (Ok a, σ).

Definition bind {A B : Type} (m : M A) (f : A -> M B) : M B :=
  fun σ => match m σ with
           | (Ok a, σ') => f a σ'
           | (Raise e, σ') => (Raise e, σ')
           end.

Definition lift {A : Type} (r : res A) : M A := fun σ => (r, σ).

#[global] Instance M_ret : MRet M := @ret.
#[global] Instance M_bind : MBind M := fun A B f m => bind m f.

(** A new list object. *)
Definition alloc (o : obj) : M loc :=
  fun σ => (Ok (length σ), σ ++ [o]).

Definition load_ints (ℓ : loc) : M (list Z) :=
  fun σ => match σ !! ℓ with
           | Some (Ints l) => (Ok l, σ)
           | _ => (Raise TypeError, σ)
           end.

Definition load_pairs (ℓ : loc) : M (list (Z * Z)) :=
  fun σ => match σ !! ℓ with
           | Some (Pairs l) => (Ok l, σ)
           | _ => (Raise TypeError, σ)
           end.

Definition load_refs (ℓ : loc) : M (list loc) :=
  fun σ => match σ !! ℓ with
           | Some (Refs l) => (Ok l, σ)
           | _ => (Raise TypeError, σ)
           end.

(** Mutation of the list object at [ℓ]. *)
Definition update (ℓ : loc) (o : obj) : M unit :=
  fun σ => (Ok tt, <[ℓ := o]> σ).

(** [len(l)], [l[i]], [l[i] = x] on a list of integers. *)
Definition len (ℓ : loc) : M Z :=
  l ← load_ints ℓ; mret (Z.of_nat (length l)).

Definition getitem (ℓ : loc) (i : Z) : M Z :=
  l ← load_ints ℓ; lift (py_get l i).

Definition setitem (ℓ : loc) (i x : Z) : M unit :=
  l ← load_ints ℓ; l' ← lift (py_set l i x); update ℓ (Ints l').

(** A [for] loop whose body works on the store. *)
Fixpoint for_in {A St : Type} (l : list A) (body : A -> St -> M St) (s : St)
  : M St :=
  match l with
  | [] => mret s
  | x :: l' => s' ← body x s; for_in l' body s'
  end.

(** [[f(x) for x in l]] *)
Fixpoint comprehension {A B : Type} (f : A -> M B) (l : list A)
  : M (list B) :=
  match l with
  | [] => mret []
  | x :: l' => y ← f x; ys ← comprehension f l'; mret (y :: ys)
  end.

(** The interface of a policy: [query] returns a reference to a list, or
    [None]. *)
Class Scheduler (Self : Type) : Type :=
  query : Self -> Z -> M (option loc).

(** ** class OpenMPStatic *)

Record OpenMPStatic : Type := mkStatic {
  static_num_resources : Z;
  chunk_size : Z;
  schedule : loc
}.

(** [schedule[resource].append(task)] *)
Definition schedule_append (schedule : loc) (resource task : Z) : M unit :=
  refs ← load_refs schedule;
  ℓ ← lift (py_get refs resource);
  l ← load_ints ℓ;
  update ℓ (Ints (l ++ [task])).

Definition compact_body (schedule : loc) (partition_size : Z)
    (resource : Z) (st : Z * Z) : M (Z * Z) :=
  let '(task, leftover) := st in
  let '(group_size, leftover) :=
    if decide (leftover > 0) then (partition_size + 1, leftover - 1)
    else (partition_size, leftover) in
  task ← for_in (range group_size)
      (fun _ task =>
         schedule_append schedule resource task;;
         mret (task + 1))
      task;
  mret (task, leftover).

Definition round_robin_body (schedule : loc) (num_resources chunk_size : Z)
    (task : Z) (st : Z * Z) : M (Z * Z) :=
  let '(resource, chunk_counter) := st in
  schedule_append schedule resource task;;
  let chunk_counter := chunk_counter + 1 in
  if decide (chunk_counter = chunk_size) then
    resource ← lift (py_mod (resource + 1) num_resources);
    mret (resource, 0)
  else mret (resource, chunk_counter).

(** [OpenMPStatic.__init__(tasks, num_resources, chunk_size)] *)
Definition OpenMPStatic_init (tasks : loc) (num_resources chunk_size : Z)
  : M OpenMPStatic :=
  lists ← comprehension (fun _ => alloc (Ints [])) (range num_resources);
  schedule ← alloc (Refs lists);
  num_tasks ← len tasks;
  (if decide (chunk_size = 0) then
     partition_size ← lift (py_floordiv num_tasks num_resources);
     leftover ← lift (py_mod num_tasks num_resources);
     for_in (range num_resources)
       (compact_body schedule partition_size) (0, leftover);;
     mret tt
   else
     for_in (range num_tasks)
       (round_robin_body schedule num_resources chunk_size) (0, 0);;
     mret tt);;
  mret (mkStatic num_resources chunk_size schedule).

(** [OpenMPStatic.query(resource_id)]: the list object itself is
    returned, and a new empty list takes its place in the schedule. *)
#[global] Instance OpenMPStatic_query : Scheduler OpenMPStatic :=
  fun self resource_id =>
    refs ← load_refs (schedule self);
    tasks ← lift (py_get refs resource_id);
    l ← load_ints tasks;
    match l with
    | _ :: _ =>
        empty ← alloc (Ints []);
        refs ← load_refs (schedule self);
        refs ← lift (py_set refs resource_id empty);
        update (schedule self) (Refs refs);;
        mret (Some tasks)
    | [] => mret (Some tasks)
    end.

(** ** class LPT *)

Record LPT : Type := mkLPT {
  lpt_num_resources : Z;
  lpt_tasks : loc
}.

(** [LPT.__init__(tasks, num_resources)]: the comprehension builds a new
    list, and it is that list that is sorted in place. *)
Definition LPT_init (tasks : loc) (num_resources : Z) : M LPT :=
  num_tasks ← len tasks;
  pairs ← comprehension
      (fun i => load ← getitem tasks i; mret (load, i)) (range num_tasks);
  tasks_by_priority ← alloc (Pairs pairs);
  l ← load_pairs tasks_by_priority;
  update tasks_by_priority (Pairs (sort_reverse l));;
  mret (mkLPT num_resources tasks_by_priority).

(** [LPT.query(resource_id)] *)
#[global] Instance LPT_query : Scheduler LPT :=
  fun self resource_id =>
    l ← load_pairs (lpt_tasks self);
    match l with
    | (load, task_id) :: rest =>
        update (lpt_tasks self) (Pairs rest);;
        answer ← alloc (Ints [task_id]);
        mret (Some answer)
    | [] =>
        answer ← alloc (Ints []);
        mret (Some answer)
    end.

(** ** simulate *)

Inductive assigned : Type :=
| Assigned (extra_time : Z)
| Conflict.

Fixpoint assign (tasks mapping : loc) (res_id : Z) (new_tasks : list Z)
    (extra_time : Z) : M assigned :=
  match new_tasks with
  | [] => mret (Assigned extra_time)
  | task_id :: new_tasks' =>
      owner ← getitem mapping task_id;
      if decide (owner <> -1) then mret Conflict
      else
        setitem mapping task_id res_id;;
        load ← getitem tasks task_id;
        assign tasks mapping res_id new_tasks' (extra_time + load)
  end.

Definition contig_changes (tasks mapping : loc) : M Z :=
  n ← len tasks;
  for_in (range (n - 1))
    (fun i contig =>
       a ← getitem mapping i;
       b ← getitem mapping (i + 1);
       mret (if decide (a <> b) then contig + 1 else contig))
    0.

(** What [simulate] returns: a reference to the mapping (or to a new
    empty list) and the three numbers; [None] when the fuel of the
    embedding runs out. *)
Definition result : Type := option (loc * Z * Z * Z).

Section Engine.
Context {Self : Type} `{!Scheduler Self}.
Variables (tasks : loc) (scheduler : Self).

Inductive step_result : Type :=
| Next (requests time : Z)
| Halt (r : loc * Z * Z * Z).

(** The loop test and one run of the loop body. *)
Definition step (resources mapping : loc) (requests : Z)
    (time : option Z) : M step_result :=
  q ← load_pairs resources;
  match heapq.heappop q with
  | None =>
      contig ← contig_changes tasks mapping;
      match time with
      | None => lift (Raise UnboundLocalError)
      | Some time => mret (Halt (mapping, time, requests, contig))
      end
  | Some ((time, res_id), q) =>
      update resources (Pairs q);;
      answer ← query scheduler res_id;
      new_tasks ← match answer with
                  | None => mret []
                  | Some ℓ => load_ints ℓ
                  end;
      match new_tasks with
      | [] => mret (Next requests time)
      | _ :: _ =>
          a ← assign tasks mapping res_id new_tasks 0;
          match a with
          | Conflict =>
              empty ← alloc (Ints []);
              mret (Halt (empty, -1, -1, -1))
          | Assigned extra_time =>
              q ← load_pairs resources;
              update resources
                (Pairs (heapq.heappush q (time + extra_time, res_id)));;
              mret (Next (requests + 1) time)
          end
      end
  end.

Fixpoint loop (fuel : nat) (resources mapping : loc) (requests : Z)
    (time : option Z) : M result :=
  x ← step resources mapping requests time;
  match x with
  | Halt r => mret (Some r)
  | Next requests time =>
      match fuel with
      | O => mret None
      | Datatypes.S fuel' =>
          loop fuel' resources mapping requests (Some time)
      end
  end.

(** [simulate(tasks, num_resources, scheduler)] *)
Definition simulate (num_resources : Z) : M result :=
  resources ← alloc (Pairs ((fun i => (0, i)) <$> range num_resources));
  n ← len tasks;
  mapping ← alloc (Ints (replicate (Z.to_nat n) (-1)));
  loop (Z.to_nat n + Z.to_nat num_resources) resources mapping 0 None.

End Engine.

End Heap.

(** ** Vocabulary of the frame property *)

(** A store [σ] that has grown out of [σ0]: the objects of [σ0] are all
    there, unchanged, and the lists of lists made since refer to lists made
    since. *)
Definition grown (σ0 σ : Heap.store) : Prop :=
  (length σ0 <= length σ)%nat /\
  take (length σ0) σ = σ0 /\
  forall ℓ l, (length σ0 <= ℓ)%nat -> σ !! ℓ = Some (Heap.Refs l) ->
    Forall (fun x => (length σ0 <= x)%nat) l.

(** A computation keeps the objects of [σ0], and its result satisfies [Q]
    when it returns. *)
Definition keeps {A : Type} (σ0 : Heap.store) (m : Heap.M A) (Q : A -> Prop)
  : Prop :=
  forall σ, grown σ0 σ ->
    grown σ0 (m σ).2 /\ forall a, (m σ).1 = Ok a -> Q a.

(** ** Vocabulary of the agreement between the two presentations *)

(** The list a [query] of the store version returns is the value the
    state-passing version returns. *)
Definition denotes (σ : Heap.store) (answer : option Heap.loc) (v : pyval)
  : Prop :=
  match answer, v with
  | None, PyNone => True
  | Some ℓ, PyList l => σ !! ℓ = Some (Heap.Ints l)
  | _, _ => False
  end.

(** The two versions of [simulate] end the same way: the same exception, or
    the same tuple, the mapping being read off the store. *)
Definition same_outcome (o : outcome) (r : res Heap.result) (σ : Heap.store)
  : Prop :=
  match o with
  | Returned (m, t, q, c) =>
      exists ℓ, r = Ok (Some (ℓ, t, q, c)) /\ σ !! ℓ = Some (Heap.Ints m)
  | Raises e => r = Raise e
  | OutOfFuel => r = Ok None
  end.

Section Represents.
Context {Self S : Type} `{!Heap.Scheduler Self} `{!Scheduler S}.
Variables (tref qref mref : Heap.loc) (self : Self).

(** A relation [rep] between stores and policy states represents the
    policy when it survives what the engine does to the store (a new
    object, a write to the ready queue or to the mapping) and a query
    of the store version follows the query of the state-passing version,
    leaving the engine's three objects alone. *)
Record represents (rep : Heap.store -> S -> Prop) : Prop := mkRepresents {
  rep_alloc : forall σ s o, rep σ s -> rep (σ ++ [o]) s;
  rep_update : forall σ s ℓ o,
    rep σ s -> ℓ = qref \/ ℓ = mref -> rep (<[ℓ := o]> σ) s;
  rep_query : forall σ s r,
    rep σ s ->
    (tref < length σ)%nat -> (qref < length σ)%nat ->
    (mref < length σ)%nat ->
    (forall ℓ, ℓ = tref \/ ℓ = qref \/ ℓ = mref ->
       (Heap.query self r σ).2 !! ℓ = σ !! ℓ) /\
    match query s r with
    | Ok (s', v) =>
        exists answer,
          (Heap.query self r σ).1 = Ok answer /\
          rep (Heap.query self r σ).2 s' /\
          denotes (Heap.query self r σ).2 answer v
    | Raise e => (Heap.query self r σ).1 = Raise e
    end
}.

(** The engine's variables in the two versions. *)
Record agree (loads : list Z) (rep : Heap.store -> S -> Prop)
    (σ : Heap.store) (st : state S) : Prop := mkAgree {
  agree_tasks : σ !! tref = Some (Heap.Ints loads);
  agree_resources : σ !! qref = Some (Heap.Pairs (resources st));
  agree_mapping : σ !! mref = Some (Heap.Ints (mapping st));
  agree_scheduler : rep σ (scheduler st);
  agree_distinct : tref <> mref
}.

(** What one pass of the loop does in the two versions. *)
Definition same_step (loads : list Z) (rep : Heap.store -> S -> Prop)
    (r : step_result S) (x : res Heap.step_result) (σ : Heap.store)
  : Prop :=
  match r with
  | Halt (Returned (m, t, q, c)) _ =>
      exists ℓ, x = Ok (Heap.Halt (ℓ, t, q, c)) /\
                σ !! ℓ = Some (Heap.Ints m)
  | Halt (Raises e) _ => x = Raise e
  | Halt OutOfFuel _ => False
  | Next st' =>
      exists t, x = Ok (Heap.Next (requests st') t) /\
                time st' = Some t /\
                agree loads rep σ st'
  end.

End Represents.

(** How the two implemented policies are kept in the store: the static
    schedule as a list of references to lists of integers, LPT's priority
    order as one list of pairs; both away from the engine's objects. *)
Definition static_rep (tref qref mref : Heap.loc) (self : Heap.OpenMPStatic)
    (σ : Heap.store) (s : OpenMPStatic) : Prop :=
  exists refs,
    σ !! Heap.schedule self = Some (Heap.Refs refs) /\
    Forall2 (fun ℓ l => σ !! ℓ = Some (Heap.Ints l)) refs (schedule s) /\
    Forall (fun ℓ => ℓ <> qref /\ ℓ <> mref) (Heap.schedule self :: refs) /\
    Heap.schedule self <> tref.

Definition lpt_rep (tref qref mref : Heap.loc) (self : Heap.LPT)
    (σ : Heap.store) (s : LPT) : Prop :=
  σ !! Heap.lpt_tasks self = Some (Heap.Pairs (lpt_tasks s)) /\
  Heap.lpt_tasks self <> tref /\ Heap.lpt_tasks self <> qref /\
  Heap.lpt_tasks self <> mref.

(** The static schedule while it is being built: the inner lists are
    distinct objects. *)
Definition schedule_rep (sloc : Heap.loc) (σ : Heap.store)
    (schedule : list (list Z)) : Prop :=
  exists refs,
    σ !! sloc = Some (Heap.Refs refs) /\
    Forall2 (fun ℓ l => σ !! ℓ = Some (Heap.Ints l)) refs schedule /\
    NoDup refs.

(** * The rest of schedulers.py, and more vocabulary *)

(** *** class OpenMPGuided

    As in [OpenMPDynamic], both methods end in a [# TODO] comment:
    [__init__] stores the chunk size, and [query] has no [return], so it
    yields [None]. *)

Record OpenMPGuided : Type := mkGuided {
  guided_num_resources : Z;
  guided_chunk_size : Z
}.

Definition OpenMPGuided_init (tasks : list Z) (num_resources chunk_size : Z)
  : OpenMPGuided :=
  mkGuided num_resources chunk_size.

#[global] Instance OpenMPGuided_query : Scheduler OpenMPGuided :=
  fun self resource_id => Ok (self, PyNone).

(** ** Counting *)

(** The sum of a list of loads. *)
Definition total (loads : list Z) : Z := foldr Z.add 0 loads.

(** The largest load, 0 when there is no task. *)
Definition max_load (loads : list Z) : Z := foldr Z.max 0 loads.


(** The number of places where a mapping changes resource between a task
    and the next one. *)
Fixpoint changes (mapping : list Z) : Z :=
  match mapping with
  | a :: (b :: _) as rest => (if decide (a <> b) then 1 else 0) + changes rest
  | _ => 0
  end.


Section Counting.
Context {S : Type} `{!Scheduler S}.
Variables (tasks : list Z) (R : Z).

(** What the engine keeps true of its counters: every query so far either
    retired a queued resource or was answered, and every answered query
    filled at least one free slot of the mapping. *)
Record inv_count (st : state S) : Prop := mkInvCount {
  count_queue :
    Z.of_nat (length (resources st)) + Z.of_nat (length (output st))
    = Z.of_nat (Z.to_nat R) + answered (output st);
  count_free :
    answered (output st) + Z.of_nat (free (mapping st))
    <= Z.of_nat (length tasks)
}.

(** Who holds a task: a slot of the mapping holds resource [r] exactly
    when an answered query of [r] brought the task. *)
Definition inv_holder (st : state S) : Prop :=
  forall k r, r <> -1 ->
    mapping st !! k = Some r <->
    exists t new_tasks, Got t r new_tasks ∈ output st /\
                        k ∈ position (length tasks) <$> new_tasks.

End Counting.

Section Origin.
Context {S : Type} `{!Scheduler S}.
Variables (pending : S -> Z -> list Z) (s0 : S).

(** Where the tasks come from, for a policy that starts in [s0] with the
    lists [pending s0]: what is still pending for a resource was pending
    for it at the start, and so was what its queries brought. *)
Definition inv_from (st : state S) : Prop :=
  (forall r i, i ∈ pending (scheduler st) r -> i ∈ pending s0 r) /\
  (forall t r new_tasks i,
     Got t r new_tasks ∈ output st -> i ∈ new_tasks -> i ∈ pending s0 r).

End Origin.

(** What the engine keeps true when it is driven by LPT: while tasks remain
    no resource has been retired, and no resource is ahead of the average
    finish time by more than the largest load allows. *)
Definition inv_greedy (tasks : list Z) (R : Z) (st : state LPT) : Prop :=
  (lpt_tasks (scheduler st) <> [] ->
   forall r, 0 <= r < R -> r ∈ (resources st).*2) /\
  forall r, 0 <= r < R ->
    R * finish_time tasks (output st) r
    <= total (finish_time tasks (output st) <$> range R)
       + (R - 1) * max_load tasks.

(** * Basic facts *)

(** ** Python indexing *)

Lemma position_lt n i : valid_index n i -> (position n i < n)%nat.
Proof. unfold valid_index, position. intros H. case_decide; lia. Qed.

Lemma position_nonneg n i : 0 <= i -> position n i = Z.to_nat i.
Proof. unfold position. intros H. case_decide; [done | lia]. Qed.

Lemma py_index_valid n i : valid_index n i -> py_index n i = Ok (position n i).
Proof.
  unfold valid_index, py_index, position. intros H.
  repeat case_decide; try lia; done.
Qed.

Lemma py_index_Ok n i k :
  py_index n i = Ok k -> valid_index n i /\ k = position n i.
Proof.
  unfold valid_index, py_index, position.
  repeat case_decide; intros; simplify_eq; lia.
Qed.

Lemma py_index_invalid n i : ~ valid_index n i -> py_index n i = Raise IndexError.
Proof.
  unfold valid_index, py_index. intros H. repeat case_decide; try lia; done.
Qed.

Lemma py_get_Ok {A} (l : list A) i x :
  py_get l i = Ok x ->
  valid_index (length l) i /\ l !! position (length l) i = Some x.
Proof.
  unfold py_get. destruct (py_index (length l) i) as [k|] eqn:Hk; [|done].
  apply py_index_Ok in Hk as [Hv ->]. simpl.
  destruct (l !! _) eqn:E; [|done]. intros; simplify_eq. done.
Qed.

Lemma py_get_valid {A} (l : list A) i :
  valid_index (length l) i ->
  exists x, l !! position (length l) i = Some x /\ py_get l i = Ok x.
Proof.
  intros Hv. unfold py_get. rewrite (py_index_valid _ _ Hv). simpl.
  destruct (lookup_lt_is_Some_2 l (position (length l) i)) as [x Hx].
  { by apply position_lt. }
  exists x. by rewrite Hx.
Qed.

Lemma py_get_lookup {A} (l : list A) i x :
  valid_index (length l) i -> l !! position (length l) i = Some x ->
  py_get l i = Ok x.
Proof.
  intros Hv Hx. destruct (py_get_valid l i Hv) as (y & Hy & ->). congruence.
Qed.

Lemma py_get_invalid {A} (l : list A) i :
  ~ valid_index (length l) i -> py_get l i = Raise IndexError.
Proof. intros Hv. unfold py_get. by rewrite (py_index_invalid _ _ Hv). Qed.

Lemma py_set_valid {A} (l : list A) i x :
  valid_index (length l) i ->
  py_set l i x = Ok (<[position (length l) i := x]> l).
Proof. intros Hv. unfold py_set. by rewrite (py_index_valid _ _ Hv). Qed.

Lemma py_set_Ok {A} (l l' : list A) i x :
  py_set l i x = Ok l' ->
  valid_index (length l) i /\ l' = <[position (length l) i := x]> l.
Proof.
  unfold py_set. destruct (py_index (length l) i) as [k|] eqn:Hk; [|done].
  apply py_index_Ok in Hk as [Hv ->]. simpl. intros; simplify_eq. done.
Qed.

Lemma range_lookup n i : 0 <= i < n -> range n !! Z.to_nat i = Some i.
Proof.
  intros H. unfold range. rewrite lookup_seqZ. split; lia.
Qed.

Lemma elem_of_range n i : i ∈ range n <-> 0 <= i < n.
Proof. unfold range. rewrite elem_of_seqZ. lia. Qed.

Lemma range_snoc n : 0 <= n -> range (n + 1) = range n ++ [n].
Proof.
  intros H. unfold range. rewrite seqZ_app by lia. done.
Qed.

Lemma for_in_app {A St} (l1 l2 : list A) (body : A -> St -> res St) s :
  for_in (l1 ++ l2) body s = (s' ← for_in l1 body s; for_in l2 body s').
Proof.
  revert s. induction l1 as [|x l1 IH]; intros s; simpl; [done|].
  destruct (body x s); simpl; [apply IH | done].
Qed.

(** ** The ready queue *)

Import heapq.

Lemma tuple_ltb_lt a b :
  tuple_ltb a b = true <-> a.1 < b.1 \/ (a.1 = b.1 /\ a.2 < b.2).
Proof.
  unfold tuple_ltb.
  rewrite orb_true_iff, andb_true_iff, !Z.ltb_lt, Z.eqb_eq. done.
Qed.

Lemma tuple_ltb_ge a b : tuple_ltb a b = false -> tuple_le b a.
Proof.
  intros H. unfold tuple_le.
  destruct (decide (b.1 < a.1)); [by left|].
  destruct (decide (b.1 = a.1 /\ b.2 <= a.2)); [by right|].
  assert (tuple_ltb a b = true); [|congruence].
  apply tuple_ltb_lt. lia.
Qed.

Lemma tuple_ltb_le a b : tuple_ltb a b = true -> tuple_le a b.
Proof. rewrite tuple_ltb_lt. unfold tuple_le. lia. Qed.

#[global] Instance tuple_le_trans : Transitive tuple_le.
Proof. intros a b c. unfold tuple_le. lia. Qed.

#[global] Instance tuple_le_refl : Reflexive tuple_le.
Proof. intros a. unfold tuple_le. lia. Qed.

Lemma heappush_perm heap item : heappush heap item ≡ₚ item :: heap.
Proof.
  induction heap as [|x heap IH]; simpl; [done|].
  destruct (tuple_ltb item x); [done|].
  rewrite IH. apply Permutation_swap.
Qed.

Lemma elem_of_heappush heap item x :
  x ∈ heappush heap item <-> x = item \/ x ∈ heap.
Proof. rewrite heappush_perm. apply elem_of_cons. Qed.

Lemma heappush_length heap item :
  length (heappush heap item) = Datatypes.S (length heap).
Proof. by rewrite heappush_perm. Qed.

Lemma heappush_sorted heap item :
  StronglySorted tuple_le heap -> StronglySorted tuple_le (heappush heap item).
Proof.
  induction 1 as [|x heap Hs IH Hx]; simpl.
  - repeat constructor.
  - destruct (tuple_ltb item x) eqn:E.
    + constructor; [by constructor|].
      apply tuple_ltb_le in E. constructor; [done|].
      eapply Forall_impl; [exact Hx|]. intros y Hy. by etrans.
    + constructor; [done|].
      apply tuple_ltb_ge in E.
      rewrite Forall_forall. intros y Hy%elem_of_heappush.
      destruct Hy as [->|Hy]; [done|].
      rewrite Forall_forall in Hx. by apply Hx.
Qed.

Lemma initial_queue_sorted (n : Z) :
  StronglySorted tuple_le ((fun i => (0, i)) <$> range n).
Proof.
  unfold range. generalize 0 at 2. intros m.
  destruct (decide (0 <= n)) as [Hn|Hn].
  2:{ rewrite seqZ_nil by lia. constructor. }
  rewrite <- (Z2Nat.id n Hn). generalize (Z.to_nat n). clear. intros len.
  revert m. induction len as [|len IH]; intros m.
  - constructor.
  - rewrite seqZ_cons by lia. rewrite fmap_cons. constructor.
    + replace (Z.pred (Z.of_nat (Datatypes.S len))) with (Z.of_nat len) by lia.
      apply IH.
    + rewrite Forall_fmap, Forall_forall. intros x Hx%elem_of_seqZ.
      unfold tuple_le. simpl. lia.
Qed.

(** ** The inner loop of the engine *)

Section Assign.
Variable tasks : list Z.
Let n := length tasks.

Lemma load_lookup i l :
  tasks !! position n i = Some l -> load tasks i = l.
Proof. unfold load. fold n. by intros ->. Qed.

Lemma assign_cons r i ts m e m' e' :
  length m = n ->
  assign tasks r (i :: ts) m e = Assigned m' e' ->
  valid_index n i /\ m !! position n i = Some (-1) /\
  assign tasks r ts (<[position n i := r]> m) (e + load tasks i)
    = Assigned m' e'.
Proof.
  intros Hlen. simpl.
  destruct (py_get m i) as [owner|] eqn:Hget; [|done].
  apply py_get_Ok in Hget as [Hv Hlook]. rewrite Hlen in Hv, Hlook.
  case_decide as Ho; [done|].
  assert (owner = -1) as -> by (destruct (decide (owner = -1)); tauto).
  rewrite py_set_valid by (by rewrite Hlen). rewrite Hlen.
  destruct (py_get_valid tasks i Hv) as (l & Hl & ->).
  rewrite (load_lookup _ _ Hl). done.
Qed.

Lemma assign_length r ts m e m' e' :
  length m = n -> assign tasks r ts m e = Assigned m' e' -> length m' = n.
Proof.
  revert m e. induction ts as [|i ts IH]; intros m e Hlen H.
  - simpl in H. by simplify_eq.
  - apply assign_cons in H as (_ & _ & H); [|done].
    eapply IH; [|exact H]. by rewrite length_insert.
Qed.

Lemma assign_extra r ts m e m' e' :
  length m = n -> assign tasks r ts m e = Assigned m' e' ->
  e' = e + batch_load tasks ts.
Proof.
  revert m e. induction ts as [|i ts IH]; intros m e Hlen H.
  - simpl in *. simplify_eq. lia.
  - apply assign_cons in H as (_ & _ & H); [|done].
    apply IH in H; [|by rewrite length_insert]. simpl. lia.
Qed.

Lemma assign_valid r ts m e m' e' :
  length m = n -> assign tasks r ts m e = Assigned m' e' ->
  Forall (valid_index n) ts.
Proof.
  revert m e. induction ts as [|i ts IH]; intros m e Hlen H; [done|].
  apply assign_cons in H as (Hv & _ & H); [|done].
  constructor; [done|]. eapply IH; [|exact H]. by rewrite length_insert.
Qed.

(** Every task of the batch was free before. *)
Lemma assign_free r ts m e m' e' i :
  length m = n -> r <> -1 ->
  assign tasks r ts m e = Assigned m' e' ->
  i ∈ ts -> m !! position n i = Some (-1).
Proof.
  intros Hlen Hr. revert m e Hlen.
  induction ts as [|j ts IH]; intros m e Hlen H Hi.
  - by apply elem_of_nil in Hi.
  - apply assign_cons in H as (Hv & Hj & H); [|done].
    apply elem_of_cons in Hi as [->|Hi]; [done|].
    pose proof (IH (<[position n j := r]> m) (e + load tasks j)) as IH'.
    rewrite length_insert in IH'. specialize (IH' Hlen H Hi). clear IH.
    rename IH' into IH.
    destruct (decide (position n j = position n i)) as [Heq|Hne].
    + rewrite <- Heq in IH. rewrite list_lookup_insert_eq in IH.
      * congruence.
      * rewrite Hlen. by apply position_lt.
    + by rewrite list_lookup_insert_ne in IH.
Qed.

(** The mapping afterwards: the batch belongs to [r], the rest is as
    before. *)
Lemma assign_lookup r ts m e m' e' k :
  length m = n ->
  assign tasks r ts m e = Assigned m' e' ->
  m' !! k = if decide (k ∈ position n <$> ts)
            then Some r else m !! k.
Proof.
  revert m e. induction ts as [|j ts IH]; intros m e Hlen H.
  - simpl in H. simplify_eq. rewrite fmap_nil.
    rewrite decide_False; [done|]. apply not_elem_of_nil.
  - pose proof H as H0.
    apply assign_cons in H as (Hv & Hj & H); [|done].
    rewrite (IH (<[position n j := r]> m) (e + load tasks j));
      [|by rewrite length_insert|done].
    rewrite fmap_cons.
    destruct (decide (k ∈ position n <$> ts)) as [Hin|Hnin].
    + rewrite decide_True; [done|]. by right.
    + destruct (decide (k = position n j)) as [->|Hne].
      * rewrite decide_True by (by left).
        rewrite list_lookup_insert_eq; [done|].
        rewrite Hlen. by apply position_lt.
      * rewrite decide_False.
        { by rewrite list_lookup_insert_ne. }
        intros [?|?]%elem_of_cons; done.
Qed.

Lemma assign_nodup r ts m e m' e' :
  length m = n -> r <> -1 ->
  assign tasks r ts m e = Assigned m' e' ->
  NoDup (position n <$> ts).
Proof.
  intros Hlen Hr. revert m e Hlen.
  induction ts as [|j ts IH]; intros m e Hlen H.
  - constructor.
  - pose proof H as H0.
    apply assign_cons in H as (Hv & Hj & H); [|done].
    rewrite fmap_cons. constructor.
    + intros Hin. apply list_elem_of_fmap in Hin as (i & Hpos & Hi).
      assert (<[position n j := r]> m !! position n i = Some (-1))
        as Hfree.
      { eapply assign_free; [|done|exact H|done]. by rewrite length_insert. }
      rewrite <- Hpos in Hfree. rewrite list_lookup_insert_eq in Hfree.
      * congruence.
      * rewrite Hlen. by apply position_lt.
    + eapply IH; [|exact H]. by rewrite length_insert.
Qed.

(** The batch goes through when its tasks are valid, free and distinct. *)
Lemma assign_ok r ts m e :
  length m = n ->
  Forall (valid_index n) ts ->
  NoDup (position n <$> ts) ->
  (forall i, i ∈ ts -> m !! position n i = Some (-1)) ->
  exists m', assign tasks r ts m e = Assigned m' (e + batch_load tasks ts).
Proof.
  revert m e. induction ts as [|j ts IH]; intros m e Hlen Hv Hnd Hfree.
  - exists m. simpl. f_equal. lia.
  - apply Forall_cons in Hv as [Hj Hv]. rewrite fmap_cons in Hnd.
    apply NoDup_cons in Hnd as [Hnj Hnd].
    simpl. rewrite (py_get_lookup m j (-1)); [| by rewrite Hlen |].
    2:{ rewrite Hlen. apply Hfree. by left. }
    case_decide; [done|].
    rewrite py_set_valid by (by rewrite Hlen). rewrite Hlen.
    destruct (py_get_valid tasks j Hj) as (l & Hl & ->).
    destruct (IH (<[position n j := r]> m) (e + l)) as [m' Hm'];
      [by rewrite length_insert | done | done | |].
    { intros i Hi. rewrite list_lookup_insert_ne.
      - apply Hfree. by right.
      - intros Heq. apply Hnj. rewrite Heq. by apply list_elem_of_fmap_2. }
    exists m'. rewrite Hm'. f_equal. rewrite (load_lookup _ _ Hl). lia.
Qed.

(** A task that is taken already stops the batch at the safety check. *)
Lemma assign_conflict r ts m e i :
  length m = n ->
  Forall (valid_index n) ts ->
  i ∈ ts -> m !! position n i <> Some (-1) ->
  assign tasks r ts m e = Conflict.
Proof.
  revert m e. induction ts as [|j ts IH]; intros m e Hlen Hv Hi Htaken.
  - by apply elem_of_nil in Hi.
  - apply Forall_cons in Hv as [Hj Hv]. simpl.
    destruct (py_get_valid m j) as (owner & Ho & ->); [by rewrite Hlen|].
    rewrite Hlen in Ho.
    case_decide as Hown; [done|].
    assert (owner = -1) as -> by (destruct (decide (owner = -1)); tauto).
    rewrite py_set_valid by (by rewrite Hlen). rewrite Hlen.
    destruct (py_get_valid tasks j Hj) as (l & Hl & ->).
    apply elem_of_cons in Hi as [->|Hi]; [done|].
    apply IH; [by rewrite length_insert | done | done |].
    destruct (decide (position n j = position n i)) as [Heq|Hne].
    + rewrite <- Heq in Htaken. done.
    + by rewrite list_lookup_insert_ne.
Qed.

(** A batch that names one task twice stops there too. *)
Lemma assign_repeat r ts m e :
  length m = n -> r <> -1 ->
  Forall (valid_index n) ts ->
  ~ NoDup (position n <$> ts) ->
  assign tasks r ts m e = Conflict.
Proof.
  intros Hlen Hr. revert m e Hlen.
  induction ts as [|j ts IH]; intros m e Hlen Hv Hdup.
  - destruct Hdup. constructor.
  - apply Forall_cons in Hv as [Hj Hv]. simpl.
    destruct (py_get_valid m j) as (owner & Ho & ->); [by rewrite Hlen|].
    rewrite Hlen in Ho.
    case_decide as Hown; [done|].
    rewrite py_set_valid by (by rewrite Hlen). rewrite Hlen.
    destruct (py_get_valid tasks j Hj) as (l & Hl & ->).
    destruct (decide (position n j ∈ position n <$> ts)) as [Hin|Hnin].
    + apply list_elem_of_fmap in Hin as (i & Hpos & Hi).
      apply (assign_conflict r ts _ _ i);
        [by rewrite length_insert | done | done |].
      rewrite <- Hpos, list_lookup_insert_eq; [congruence|].
      rewrite Hlen. by apply position_lt.
    + apply IH; [by rewrite length_insert | done |].
      intros Hnd. apply Hdup. rewrite fmap_cons. by constructor.
Qed.

End Assign.

Lemma for_in_snoc {A St} (l : list A) x (body : A -> St -> res St) s :
  for_in (l ++ [x]) body s = (s' ← for_in l body s; body x s').
Proof.
  rewrite for_in_app. destruct (for_in l body s) as [s'|]; simpl; [|done].
  by destruct (body x s').
Qed.

Lemma bind_Ok {A B} (a : A) (f : A -> res B) : (Ok a ≫= f) = f a.
Proof. done. Qed.


(** ** Logs *)

Lemma finish_time_snoc tasks log e r :
  finish_time tasks (log ++ [e]) r =
  if decide (ev_res e = r) then ev_finish tasks e else finish_time tasks log r.
Proof. unfold finish_time. by rewrite foldl_snoc. Qed.

Lemma finish_time_nil tasks r : finish_time tasks [] r = 0.
Proof. done. Qed.

Lemma retired_snoc log e r :
  retired (log ++ [e]) r <-> retired log r \/ exists t, e = Done t r.
Proof.
  unfold retired. split.
  - intros [t Ht]. apply elem_of_app in Ht as [Ht|Ht]; [eauto|].
    apply list_elem_of_singleton in Ht. eauto.
  - intros [[t Ht]|[t ->]]; exists t; apply elem_of_app; [by left|].
    right. by apply list_elem_of_singleton.
Qed.

Lemma retired_nil r : ~ retired [] r.
Proof. intros [t Ht]. by apply elem_of_nil in Ht. Qed.

Lemma handed_snoc n log e :
  handed n (log ++ [e]) =
  handed n log ++ match e with
                  | Got _ _ new_tasks => position n <$> new_tasks
                  | Done _ _ => []
                  end.
Proof.
  unfold handed. rewrite bind_app. simpl. by rewrite app_nil_r.
Qed.

Lemma answered_snoc log e :
  answered (log ++ [e]) = answered log + (if is_got e then 1 else 0).
Proof.
  unfold answered. rewrite filter_app, length_app.
  destruct e; simpl; rewrite ?filter_cons_True, ?filter_cons_False by done;
    simpl; lia.
Qed.

Lemma answered_nonneg log : 0 <= answered log.
Proof. unfold answered. lia. Qed.

Lemma all_in_order_nil tasks R : all_in_order tasks R [].
Proof. intros pre e post H. by destruct pre. Qed.

Lemma all_in_order_snoc tasks R log e :
  all_in_order tasks R log -> in_order tasks R log e ->
  all_in_order tasks R (log ++ [e]).
Proof.
  intros Hlog He pre e' post Heq.
  destruct post as [|e'' post _] using rev_ind.
  - apply app_inj_tail in Heq as [-> ->]. done.
  - rewrite app_comm_cons, app_assoc in Heq.
    apply app_inj_tail in Heq as [-> _]. by eapply Hlog.
Qed.

Lemma all_in_order_prefix tasks R log1 log2 :
  all_in_order tasks R (log1 ++ log2) -> all_in_order tasks R log1.
Proof.
  intros H pre e post ->. apply (H pre e (post ++ log2)).
  by rewrite <- app_assoc.
Qed.

(** ** Loads of a mapping *)

Lemma mapped_load_insert tasks m k r r' l :
  m !! k = Some (-1) -> tasks !! k = Some l -> r' <> -1 ->
  mapped_load tasks (<[k := r]> m) r' =
  mapped_load tasks m r' + (if decide (r = r') then l else 0).
Proof.
  intros Hm Hl Hr'. revert m k Hm Hl.
  induction tasks as [|l0 tasks IH]; intros m k Hm Hl; [done|].
  destruct m as [|o m]; [done|]. destruct k as [|k]; simpl in *.
  - simplify_eq. repeat case_decide; try done; lia.
  - rewrite (IH m k Hm Hl). lia.
Qed.

Lemma mapped_load_replicate tasks n r :
  r <> -1 -> mapped_load tasks (replicate n (-1)) r = 0.
Proof.
  intros Hr. revert n. induction tasks as [|l tasks IH]; intros [|n]; simpl;
    try done.
  rewrite IH. case_decide; [congruence | done].
Qed.

Lemma free_insert m k r :
  m !! k = Some (-1) -> r <> -1 ->
  (free (<[k := r]> m) + 1 = free m)%nat.
Proof.
  unfold free. intros Hm Hr. revert k Hm.
  induction m as [|o m IH]; intros k Hm; [done|].
  destruct k as [|k]; simpl in *.
  - simplify_eq. rewrite (filter_cons_False _ r) by done.
    rewrite (filter_cons_True _ (-1)) by done. simpl. lia.
  - specialize (IH k Hm). destruct (decide (o = -1)).
    + rewrite !filter_cons_True by done. simpl. lia.
    + rewrite !filter_cons_False by done. done.
Qed.

Lemma free_replicate n : free (replicate n (-1)) = n.
Proof.
  unfold free. induction n as [|n IH]; [done|].
  change (replicate (Datatypes.S n) (-1)) with (-1 :: replicate n (-1)).
  rewrite filter_cons_True by done. simpl. by rewrite IH.
Qed.

Lemma free_zero m : free m = 0%nat -> forall k, m !! k <> Some (-1).
Proof.
  unfold free. intros H k Hk.
  assert (-1 ∈ filter (fun x : Z => x = -1) m) as Hin.
  { apply list_elem_of_filter. split; [done|]. by eapply list_elem_of_lookup_2. }
  destruct (filter _ m); [by apply elem_of_nil in Hin | done].
Qed.

Section AssignLoads.
Variable tasks : list Z.
Let n := length tasks.

Lemma assign_mapped_load r ts m e m' e' r' :
  length m = n -> r' <> -1 ->
  assign tasks r ts m e = Assigned m' e' ->
  mapped_load tasks m' r' =
  mapped_load tasks m r' + (if decide (r = r') then batch_load tasks ts else 0).
Proof.
  intros Hlen Hr'. revert m e Hlen.
  induction ts as [|i ts IH]; intros m e Hlen H.
  - simpl in *. simplify_eq. case_decide; lia.
  - apply assign_cons in H as (Hv & Hi & H); [|done].
    rewrite (IH _ _ ltac:(by rewrite length_insert) H).
    destruct (py_get_valid tasks i Hv) as (l & Hl & _).
    rewrite (mapped_load_insert _ _ _ _ _ l); [|done..].
    simpl. rewrite (load_lookup _ _ _ Hl). case_decide; lia.
Qed.

Lemma assign_free_count r ts m e m' e' :
  length m = n -> r <> -1 ->
  assign tasks r ts m e = Assigned m' e' ->
  (free m' + length ts = free m)%nat.
Proof.
  intros Hlen Hr. revert m e Hlen.
  induction ts as [|i ts IH]; intros m e Hlen H.
  - simpl in *. simplify_eq. lia.
  - apply assign_cons in H as (Hv & Hi & H); [|done].
    specialize (IH _ _ ltac:(by rewrite length_insert) H).
    pose proof (free_insert m _ r Hi Hr). simpl. lia.
Qed.

End AssignLoads.

(** * The engine *)

Section EngineFacts.
Context {S : Type} `{!Scheduler S}.
Variables (tasks : list Z) (R : Z).
Let n := length tasks.

(** ** The shape of a loop pass *)

Lemma step_Next st st' :
  step tasks st = Next st' ->
  exists t r q s' v,
    resources st = (t, r) :: q /\
    query (scheduler st) r = Ok (s', v) /\
    ((as_tasks v = [] /\
      st' = mkState q (mapping st) (requests st) (Some t) s'
              (output st ++ [Done t r])) \/
     (exists m' extra,
        as_tasks v <> [] /\
        assign tasks r (as_tasks v) (mapping st) 0 = Assigned m' extra /\
        st' = mkState (heappush q (t + extra, r)) m' (requests st + 1)
                (Some t) s' (output st ++ [Got t r (as_tasks v)]))).
Proof.
  unfold step. destruct (resources st) as [|[t r] q] eqn:Hq; [done|].
  cbn [heappop].
  destruct (query (scheduler st) r) as [[s' v]|] eqn:Hquery; [|done].
  destruct (as_tasks v) as [|i ts] eqn:Hv.
  - intros Hstep. exists t, r, q, s', v. rewrite Hv.
    split; [done|]. split; [done|]. left. by simplify_eq.
  - destruct (assign _ _ _ _ _) as [m' extra| |] eqn:Ha; [|done..].
    intros Hstep. exists t, r, q, s', v. rewrite Hv.
    split; [done|]. split; [done|]. right.
    exists m', extra. by simplify_eq.
Qed.

Lemma step_Halt st o out :
  step tasks st = Halt o out ->
  (resources st = [] /\ o = finish tasks st /\ out = output st) \/
  (exists t r q, resources st = (t, r) :: q /\
     ((exists e, query (scheduler st) r = Raise e /\ o = Raises e /\
                 out = output st) \/
      (exists s' v, query (scheduler st) r = Ok (s', v) /\
         as_tasks v <> [] /\
         out = output st ++ [Got t r (as_tasks v)] /\
         ((assign tasks r (as_tasks v) (mapping st) 0 = Conflict /\
           o = Returned failure) \/
          (exists e, assign tasks r (as_tasks v) (mapping st) 0 = Failed e /\
                     o = Raises e))))).
Proof.
  unfold step. destruct (resources st) as [|[t r] q] eqn:Hq; cbn [heappop].
  { intros; simplify_eq. by left. }
  destruct (query (scheduler st) r) as [[s' v]|] eqn:Hquery.
  2:{ intros Hstep. right. exists t, r, q. split; [done|].
      left. simplify_eq. eauto. }
  destruct (as_tasks v) as [|i ts] eqn:Hv; [done|].
  destruct (assign _ _ _ _ _) as [m' extra| |] eqn:Ha; [done| |];
    intros Hstep; right; exists t, r, q; (split; [done|]);
    right; exists s', v; rewrite Hv; simplify_eq;
    (split; [done|]); (split; [done|]); (split; [done|]); eauto.
Qed.

(** ** The invariant *)

Lemma inv_initial (s : S) : inv tasks R (initial tasks R s).
Proof.
  unfold initial. split; simpl.
  - by rewrite length_replicate.
  - apply initial_queue_sorted.
  - rewrite <- list_fmap_compose.
    replace (snd ∘ (λ i : Z, (0, i))) with (@id Z) by done.
    rewrite list_fmap_id. apply NoDup_seqZ.
  - intros t r Hin. apply list_elem_of_fmap in Hin as (i & Heq & Hi).
    simplify_eq. apply elem_of_range in Hi.
    split; [lia|]. split; [apply retired_nil | done].
  - intros r Hr. right. rewrite <- list_fmap_compose.
    apply list_elem_of_fmap. exists r. split; [done|].
    by apply elem_of_range.
  - intros r Hr. rewrite mapped_load_replicate by lia. done.
  - intros k Hk. rewrite lookup_replicate_2 by done. split; [done|].
    intros Hin. by apply elem_of_nil in Hin.
  - intros k r Hk. apply lookup_replicate in Hk as [-> _]. by left.
  - done.
  - done.
  - intros d r Hin. by apply elem_of_nil in Hin.
  - apply all_in_order_nil.
Qed.

(** The query the engine is about to make is in order. *)
Lemma next_in_order (st : state S) t r q e :
  inv tasks R st -> resources st = (t, r) :: q ->
  ev_time e = t -> ev_res e = r ->
  in_order tasks R (output st) e.
Proof.
  intros Hinv Hq Ht Hr. unfold in_order. rewrite Ht, Hr.
  destruct (inv_queue _ _ _ Hinv t r) as (Hr1 & Hr2 & Hr3).
  { rewrite Hq. by left. }
  repeat split; try done; try lia.
  intros r' Hr' Hact.
  destruct (inv_active _ _ _ Hinv r' Hr') as [?|Hin]; [done|].
  apply list_elem_of_fmap in Hin as ([t' r''] & Heq & Hin). simpl in Heq.
  subst r''. destruct (inv_queue _ _ _ Hinv t' r' Hin) as (_ & _ & <-).
  pose proof (inv_sorted _ _ _ Hinv) as Hs. rewrite Hq in Hs, Hin.
  apply StronglySorted_inv in Hs as [_ Hall].
  apply elem_of_cons in Hin as [Heq|Hin]; [by simplify_eq|].
  rewrite Forall_forall in Hall. by apply Hall.
Qed.

Lemma queue_head_fresh (st : state S) t r q :
  inv tasks R st -> resources st = (t, r) :: q -> r ∉ q.*2.
Proof.
  intros Hinv Hq. pose proof (inv_nodup _ _ _ Hinv) as Hnd.
  rewrite Hq in Hnd. simpl in Hnd. by apply NoDup_cons in Hnd as [? _].
Qed.

Lemma inv_step (st st' : state S) :
  inv tasks R st -> step tasks st = Next st' -> inv tasks R st'.
Proof.
  intros Hinv Hstep.
  apply step_Next in Hstep
    as (t & r & q & s' & v & Hq & Hquery & Hcase).
  pose proof (queue_head_fresh _ _ _ _ Hinv Hq) as Hfresh.
  destruct (inv_queue _ _ _ Hinv t r) as (Hr1 & Hr2 & Hr3).
  { rewrite Hq. by left. }
  assert (forall t' r', (t', r') ∈ q -> r' <> r) as Hother.
  { intros t' r' Hin ->. apply Hfresh.
    apply list_elem_of_fmap. by exists (t', r). }
  destruct Hcase as [[Hv ->]|(m' & extra & Hv & Hassign & ->)].
  - (* the resource is done *)
    split; simpl.
    + apply Hinv.
    + pose proof (inv_sorted _ _ _ Hinv) as Hs. rewrite Hq in Hs.
      by apply StronglySorted_inv in Hs as [? _].
    + pose proof (inv_nodup _ _ _ Hinv) as Hnd. rewrite Hq in Hnd.
      simpl in Hnd. by apply NoDup_cons in Hnd as [_ ?].
    + intros t' r' Hin. pose proof (Hother _ _ Hin) as Hne.
      destruct (inv_queue _ _ _ Hinv t' r') as (? & ? & ?).
      { rewrite Hq. by right. }
      split; [done|]. split.
      * rewrite retired_snoc. intros [?|[? ?]]; [done|congruence].
      * rewrite finish_time_snoc. simpl. by rewrite decide_False.
    + intros r' Hr'. destruct (decide (r' = r)) as [->|Hne].
      { left. apply retired_snoc. right. eauto. }
      destruct (inv_active _ _ _ Hinv r' Hr') as [?|Hin].
      { left. apply retired_snoc. by left. }
      right. rewrite Hq in Hin. simpl in Hin.
      by apply elem_of_cons in Hin as [?|?].
    + intros r' Hr'. rewrite finish_time_snoc. simpl.
      rewrite (inv_load _ _ _ Hinv r' Hr'). case_decide; congruence.
    + intros k Hk. rewrite handed_snoc, app_nil_r. by apply Hinv.
    + apply Hinv.
    + rewrite answered_snoc. simpl. rewrite (inv_requests _ _ _ Hinv). lia.
    + by rewrite last_snoc.
    + intros d r' Hin. rewrite finish_time_snoc. simpl.
      apply elem_of_app in Hin as [Hin|Hin].
      * rewrite decide_False; [by apply Hinv|].
        intros ->. apply Hr2. by exists d.
      * apply list_elem_of_singleton in Hin. simplify_eq.
        by rewrite decide_True.
    + apply all_in_order_snoc; [apply Hinv|].
      by eapply next_in_order.
  - (* the resource got tasks *)
    pose proof (inv_len _ _ _ Hinv) as Hlen.
    assert (r <> -1) as Hr by lia.
    split; simpl.
    + by eapply assign_length.
    + apply heappush_sorted.
      pose proof (inv_sorted _ _ _ Hinv) as Hs. rewrite Hq in Hs.
      by apply StronglySorted_inv in Hs as [? _].
    + rewrite heappush_perm. simpl.
      pose proof (inv_nodup _ _ _ Hinv) as Hnd. by rewrite Hq in Hnd.
    + intros t' r' Hin. apply elem_of_heappush in Hin as [Heq|Hin].
      * simplify_eq. split; [done|]. split.
        -- rewrite retired_snoc. intros [?|[? ?]]; done.
        -- rewrite finish_time_snoc. simpl. rewrite decide_True by done.
           f_equal. apply (assign_extra _ _ _ _ _ _ _ Hlen) in Hassign. lia.
      * pose proof (Hother _ _ Hin) as Hne.
        destruct (inv_queue _ _ _ Hinv t' r') as (? & ? & ?).
        { rewrite Hq. by right. }
        split; [done|]. split.
        -- rewrite retired_snoc. intros [?|[? ?]]; done.
        -- rewrite finish_time_snoc. simpl. by rewrite decide_False.
    + intros r' Hr'. rewrite heappush_perm. simpl.
      destruct (inv_active _ _ _ Hinv r' Hr') as [?|Hin].
      { left. apply retired_snoc. by left. }
      right. by rewrite Hq in Hin.
    + intros r' Hr'. rewrite finish_time_snoc. simpl.
      rewrite (assign_mapped_load _ _ _ _ _ _ _ r' Hlen ltac:(lia) Hassign).
      rewrite (inv_load _ _ _ Hinv r' Hr').
      case_decide; [subst r'|lia]. lia.
    + intros k Hk. rewrite handed_snoc, elem_of_app.
      rewrite (assign_lookup _ _ _ _ _ _ _ k Hlen Hassign).
      rewrite <- (inv_handed _ _ _ Hinv k Hk).
      case_decide as Hin; [|tauto].
      split; [tauto|]. intros _. congruence.
    + intros k r' Hk.
      rewrite (assign_lookup _ _ _ _ _ _ _ k Hlen Hassign) in Hk.
      case_decide; [simplify_eq; by right|]. by eapply inv_owner.
    + rewrite answered_snoc. simpl. rewrite (inv_requests _ _ _ Hinv). lia.
    + by rewrite last_snoc.
    + intros d r' Hin. rewrite finish_time_snoc. simpl.
      apply elem_of_app in Hin as [Hin|Hin].
      * rewrite decide_False; [by apply Hinv|].
        intros ->. apply Hr2. by exists d.
      * by apply list_elem_of_singleton in Hin.
    + apply all_in_order_snoc; [apply Hinv|].
      by eapply next_in_order.
Qed.

End EngineFacts.

Section RunFacts.
Context {S : Type} `{!Scheduler S}.
Variables (tasks : list Z) (R : Z).

(** ** Termination *)

Lemma variant_step (st st' : state S) :
  inv tasks R st -> step tasks st = Next st' ->
  (variant st' < variant st)%nat.
Proof.
  intros Hinv Hstep.
  apply step_Next in Hstep
    as (t & r & q & s' & v & Hq & Hquery & Hcase).
  unfold variant. fold (free (mapping st)). fold (free (mapping st')).
  rewrite Hq.
  destruct Hcase as [[Hv ->]|(m' & extra & Hv & Hassign & ->)]; simpl.
  - fold (free (mapping st)). lia.
  - fold (free m'). rewrite heappush_length.
    destruct (inv_queue _ _ _ Hinv t r) as (Hr1 & _ & _).
    { rewrite Hq. by left. }
    pose proof (assign_free_count tasks r _ _ _ _ _
                  (inv_len _ _ _ Hinv) ltac:(lia) Hassign) as Hfree.
    destruct (as_tasks v); [done|]. simpl in Hfree. lia.
Qed.

Lemma run_inv k (st st' : state S) :
  inv tasks R st -> run k tasks st = Some st' -> inv tasks R st'.
Proof.
  revert st. induction k as [|k IH]; intros st Hinv Hrun; simpl in Hrun.
  - by simplify_eq.
  - destruct (step tasks st) as [st1|] eqn:Hstep; [|done].
    eapply IH; [|done]. by eapply inv_step.
Qed.

Lemma run_snoc k (st st' st'' : state S) :
  run k tasks st = Some st' -> step tasks st' = Next st'' ->
  run (Datatypes.S k) tasks st = Some st''.
Proof.
  revert st. induction k as [|k IH]; intros st Hrun Hstep; simpl in Hrun.
  - simplify_eq. simpl. by rewrite Hstep.
  - change (run (Datatypes.S (Datatypes.S k)) tasks st)
      with (match step tasks st with
            | Next st1 => run (Datatypes.S k) tasks st1
            | Halt _ _ => None
            end).
    destruct (step tasks st) as [st1|]; [|done]. by apply IH.
Qed.

(** With fuel for the variant, the loop ends where the run halts. *)
Lemma loop_halts fuel (st : state S) :
  inv tasks R st -> (variant st <= fuel)%nat ->
  exists k st' o out,
    run k tasks st = Some st' /\ step tasks st' = Halt o out /\
    loop fuel tasks st = (o, out).
Proof.
  revert st. induction fuel as [|fuel IH]; intros st Hinv Hfuel.
  - destruct (step tasks st) as [st1|o out] eqn:Hstep.
    + pose proof (variant_step _ _ Hinv Hstep). lia.
    + exists 0%nat, st, o, out. simpl. by rewrite Hstep.
  - destruct (step tasks st) as [st1|o out] eqn:Hstep.
    + pose proof (variant_step _ _ Hinv Hstep).
      destruct (IH st1) as (k & st' & o & out & Hrun & Hhalt & Hloop);
        [by eapply inv_step | lia |].
      exists (Datatypes.S k), st', o, out. simpl. by rewrite Hstep.
    + exists 0%nat, st, o, out. simpl. by rewrite Hstep.
Qed.


Lemma variant_initial (s : S) :
  variant (initial tasks R s) = (length tasks + Z.to_nat R)%nat.
Proof.
  unfold variant, initial. simpl. fold (free (replicate (length tasks) (-1))).
  rewrite free_replicate, length_fmap. unfold range. by rewrite length_seqZ.
Qed.

(** [simulate] ends in the halting pass of its run. *)
Lemma simulate_debug_halts (s : S) :
  exists k st o out,
    run k tasks (initial tasks R s) = Some st /\ inv tasks R st /\
    step tasks st = Halt o out /\
    simulate_debug tasks R s = (o, out).
Proof.
  destruct (loop_halts (length tasks + Z.to_nat R) (initial tasks R s))
    as (k & st & o & out & Hrun & Hhalt & Hloop).
  { apply inv_initial. }
  { by rewrite variant_initial. }
  exists k, st, o, out. split; [done|]. split; [|done].
  eapply run_inv; [|done]. apply inv_initial.
Qed.


Lemma contig_changes_Ok (m : list Z) :
  length m = length tasks -> exists c, contig_changes tasks m = Ok c.
Proof.
  intros Hlen. unfold contig_changes.
  cut (forall (l : list Z) (c0 : Z),
         (forall i, i ∈ l -> 0 <= i /\ i + 1 < Z.of_nat (length m)) ->
         exists c,
           for_in l
             (fun i contig =>
                a ← py_get m i;
                b ← py_get m (i + 1);
                Ok (if decide (a <> b) then contig + 1 else contig)) c0
           = Ok c).
  { intros Hcut. apply Hcut. intros i Hi%elem_of_range. lia. }
  intros l. induction l as [|i l IH]; intros c Hr; simpl; [eauto|].
  destruct (Hr i ltac:(by left)) as [Hi1 Hi2].
  destruct (py_get_valid m i) as (a & _ & ->); [unfold valid_index; lia|].
  destruct (py_get_valid m (i + 1)) as (b & _ & ->);
    [unfold valid_index; lia|].
  simpl. apply IH. intros j Hj. apply Hr. by right.
Qed.

(** The code after the loop, once the loop has run at least once. *)
Lemma finish_Returned (st : state S) :
  inv tasks R st -> output st <> [] ->
  exists e c, last (output st) = Some e /\
    finish tasks st =
      Returned (mapping st, ev_time e, answered (output st), c).
Proof.
  intros Hinv Hout. unfold finish.
  destruct (contig_changes_Ok (mapping st) (inv_len _ _ _ Hinv)) as [c ->].
  rewrite (inv_time _ _ _ Hinv), (inv_requests _ _ _ Hinv).
  destruct (last (output st)) as [e|] eqn:Hlast.
  - exists e, c. done.
  - apply last_None in Hlast. done.
Qed.

Lemma finish_not_failure (st : state S) :
  inv tasks R st -> finish tasks st <> Returned failure.
Proof.
  intros Hinv. unfold finish.
  destruct (contig_changes _ _); [|done].
  destruct (time st); [|done].
  rewrite (inv_requests _ _ _ Hinv). unfold failure.
  pose proof (answered_nonneg (output st)). intros ?; simplify_eq. lia.
Qed.

Lemma finish_not_OutOfFuel (st : state S) : finish tasks st <> OutOfFuel.
Proof.
  unfold finish. destruct (contig_changes _ _); [|done].
  by destruct (time st).
Qed.

(** A normal return is the code after the loop, on an empty queue. *)
Lemma simulate_debug_normal (s : S) result log :
  simulate_debug tasks R s = (Returned result, log) ->
  result <> failure ->
  exists k st,
    run k tasks (initial tasks R s) = Some st /\ inv tasks R st /\
    resources st = [] /\ output st = log /\
    finish tasks st = Returned result.
Proof.
  intros Hsim Hnf.
  destruct (simulate_debug_halts s)
    as (k & st & o & out & Hrun & Hinv & Hhalt & Hsim').
  rewrite Hsim in Hsim'. simplify_eq.
  exists k, st. split; [done|]. split; [done|].
  apply step_Halt in Hhalt as [(Hq & Ho & Hout)|Hother].
  - done.
  - destruct Hother as (t & r & q & Hq & [(e & _ & ? & _)|Hc]); [done|].
    destruct Hc as (s' & v & _ & _ & _ & [[_ ?]|(e & _ & ?)]);
      by simplify_eq.
Qed.

End RunFacts.

Section Monotone.
Context {S : Type} `{!Scheduler S}.
Variables (tasks : list Z) (R : Z).
Hypothesis loads_nonneg : Forall (fun l => 0 <= l) tasks.

Lemma load_nonneg i : 0 <= load tasks i.
Proof.
  unfold load. destruct (tasks !! _) as [l|] eqn:Hl; simpl; [|lia].
  rewrite Forall_forall in loads_nonneg. apply loads_nonneg.
  by eapply list_elem_of_lookup_2.
Qed.

Lemma batch_load_nonneg ts : 0 <= batch_load tasks ts.
Proof.
  induction ts as [|i ts IH]; simpl; [lia|].
  pose proof (load_nonneg i). lia.
Qed.

Lemma inv_mono_initial (s : S) : inv_mono (initial tasks R s).
Proof. split; simpl; intros e x He; by apply elem_of_nil in He. Qed.

Lemma inv_mono_step (st st' : state S) :
  inv tasks R st -> inv_mono st -> step tasks st = Next st' -> inv_mono st'.
Proof.
  intros Hinv Hmono Hstep.
  apply step_Next in Hstep
    as (t & r & q & s' & v & Hq & Hquery & Hcase).
  assert (forall e, e ∈ output st -> ev_time e <= t) as Hold.
  { intros e He. apply (mono_queue _ Hmono e (t, r) He).
    rewrite Hq. by left. }
  assert (forall x, x ∈ q -> t <= x.1) as Hrest.
  { intros x Hx. pose proof (inv_sorted _ _ _ Hinv) as Hs.
    rewrite Hq in Hs. apply StronglySorted_inv in Hs as [_ Hall].
    rewrite Forall_forall in Hall. specialize (Hall x Hx).
    unfold tuple_le in Hall. simpl in Hall. lia. }
  destruct Hcase as [[Hv ->]|(m' & extra & Hv & Hassign & ->)];
    split; simpl.
  - intros e x [He|He%list_elem_of_singleton]%elem_of_app Hx.
    + apply (mono_queue _ Hmono e x He). rewrite Hq. by right.
    + subst e. simpl. by apply Hrest.
  - intros e e' [He|He%list_elem_of_singleton]%elem_of_app Hlast;
      rewrite last_snoc in Hlast; simplify_eq; simpl; [by apply Hold|lia].
  - assert (0 <= extra) as Hextra.
    { apply (assign_extra _ _ _ _ _ _ _ (inv_len _ _ _ Hinv)) in Hassign.
      pose proof (batch_load_nonneg (as_tasks v)). lia. }
    intros e x [He|He%list_elem_of_singleton]%elem_of_app
      [->|Hx]%elem_of_heappush; simpl.
    + specialize (Hold e He). lia.
    + apply (mono_queue _ Hmono e x He). rewrite Hq. by right.
    + subst e. simpl. lia.
    + subst e. simpl. by apply Hrest.
  - intros e e' [He|He%list_elem_of_singleton]%elem_of_app Hlast;
      rewrite last_snoc in Hlast; simplify_eq; simpl; [by apply Hold|lia].
Qed.

Lemma run_inv_mono k (st st' : state S) :
  inv tasks R st -> inv_mono st -> run k tasks st = Some st' -> inv_mono st'.
Proof.
  revert st. induction k as [|k IH]; intros st Hinv Hmono Hrun;
    simpl in Hrun.
  - by simplify_eq.
  - destruct (step tasks st) as [st1|] eqn:Hstep; [|done].
    eapply IH; [| |done]; [by eapply inv_step | by eapply inv_mono_step].
Qed.

End Monotone.

Section NormalReturn.
Context {S : Type} `{!Scheduler S}.
Variables (tasks : list Z) (R : Z).

(** When the queue has drained, every resource has been retired. *)
Lemma drained_retired (st : state S) r :
  inv tasks R st -> resources st = [] -> 0 <= r < R ->
  exists d, Done d r ∈ output st /\ finish_time tasks (output st) r = d /\
            mapped_load tasks (mapping st) r = d.
Proof.
  intros Hinv Hq Hr.
  destruct (inv_active _ _ _ Hinv r Hr) as [[d Hd]|Hin].
  - exists d. split; [done|].
    pose proof (inv_done _ _ _ Hinv d r Hd) as Hfin.
    split; [done|]. by rewrite (inv_load _ _ _ Hinv r Hr).
  - rewrite Hq in Hin. by apply elem_of_nil in Hin.
Qed.

(** The last query of a drained simulation is a retirement. *)
Lemma drained_last (st : state S) e :
  inv tasks R st -> resources st = [] -> last (output st) = Some e ->
  exists r, 0 <= r < R /\ e = Done (ev_time e) r.
Proof.
  intros Hinv Hq Hlast.
  apply last_Some in Hlast as [pre Hpre].
  pose proof (inv_log _ _ _ Hinv pre e [] Hpre) as (Hr & Hact & _).
  destruct e as [t r ts|t r]; simpl in *; [|by exists r].
  exfalso. destruct (drained_retired st r Hinv Hq Hr) as (d & Hd & _).
  apply Hact. exists d. rewrite Hpre in Hd.
  apply elem_of_app in Hd as [Hd|Hd]; [done|].
  by apply list_elem_of_singleton in Hd.
Qed.

(** What a normal return of [simulate] tells. *)
Lemma simulate_debug_returned (s : S) m t q c log :
  simulate_debug tasks R s = (Returned (m, t, q, c), log) ->
  (m, t, q, c) <> failure ->
  exists k st,
    run k tasks (initial tasks R s) = Some st /\ inv tasks R st /\
    resources st = [] /\ output st = log /\ mapping st = m /\
    q = answered log /\
    exists r, 0 <= r < R /\ last log = Some (Done t r).
Proof.
  intros Hsim Hnf.
  destruct (simulate_debug_normal _ _ _ _ _ Hsim Hnf)
    as (k & st & Hrun & Hinv & Hq & Hout & Hfin).
  exists k, st. do 4 (split; [done|]).
  destruct (decide (output st = [])) as [Hnil|Hne].
  { unfold finish in Hfin. rewrite (inv_time _ _ _ Hinv), Hnil in Hfin.
    simpl in Hfin. by destruct (contig_changes _ _). }
  destruct (finish_Returned _ _ _ Hinv Hne) as (e & c' & Hlast & Hfin').
  rewrite Hfin in Hfin'. simplify_eq.
  do 2 (split; [done|]).
  destruct (drained_last st e Hinv Hq Hlast) as (r & Hr & He).
  exists r. split; [done|]. by rewrite Hlast, He.
Qed.

End NormalReturn.

(** * The engine's contract *)




(** C8. Every query of a simulation goes to a resource that is still
    active, at that resource's finish time, and no active resource has a
    smaller (finish time, resource id) pair; a resource that got an empty
    answer is not queried again. *)
Theorem queries_in_order {S : Type} `{!Scheduler S}
    (tasks : list Z) (R : Z) (s : S) (pre post : list event) (e : event) :
  (simulate_debug tasks R s).2 = pre ++ e :: post ->
  (0 <= ev_res e < R /\
   ~ retired pre (ev_res e) /\
   ev_time e = finish_time tasks pre (ev_res e) /\
   forall r, 0 <= r < R -> ~ retired pre r ->
     tuple_le (ev_time e, ev_res e) (finish_time tasks pre r, r)) /\
  (is_got e = false -> forall e', e' ∈ post -> ev_res e' <> ev_res e).
Proof.
  intros Hlog.
  assert (all_in_order tasks R (pre ++ e :: post)) as Hall.
  { rewrite <- Hlog.
    destruct (simulate_debug_halts tasks R s)
      as (k & st & o & out & Hrun & Hinv & Hhalt & ->). simpl.
    apply step_Halt in Hhalt as [(_ & _ & ->)|Hother]; [apply Hinv|].
    destruct Hother as (t & r & q & Hq & [(x & _ & _ & ->)|Hc]);
      [apply Hinv|].
    destruct Hc as (s' & v & _ & _ & -> & _).
    apply all_in_order_snoc; [apply Hinv|]. by eapply next_in_order. }
  split; [by apply (Hall pre e post)|].
  intros Hdone e' He' Heq.
  apply list_elem_of_split in He' as (p1 & p2 & ->).
  destruct (Hall (pre ++ e :: p1) e' p2) as (_ & Hact & _).
  { by rewrite <- app_assoc. }
  apply Hact. rewrite Heq. destruct e as [|d r]; [done|].
  exists d. simpl. apply elem_of_app. right. by left.
Qed.

Lemma queries_in_order_witness :
  (0 <= 1 < 2 /\
   ~ retired [Got 0 0 [0]] 1 /\
   0 = finish_time [5] [Got 0 0 [0]] 1 /\
   forall r, 0 <= r < 2 -> ~ retired [Got 0 0 [0]] r ->
     tuple_le (0, 1) (finish_time [5] [Got 0 0 [0]] r, r)) /\
  (is_got (Done 0 1) = false ->
   forall e', e' ∈ [Done 5 0] -> ev_res e' <> 1).
Proof.
  apply (queries_in_order [5] 2 (LPT_init [5] 2)
           [Got 0 0 [0]] [Done 5 0] (Done 0 1)).
  reflexivity.
Defined.



(** * OpenMPStatic: the precomputed schedule *)

Lemma range_length n : length (range n) = Z.to_nat n.
Proof. unfold range. apply length_seqZ. Qed.

Lemma fmap_range_lookup {A} (f : Z -> A) n r :
  0 <= r < n -> (f <$> range n) !! Z.to_nat r = Some (f r).
Proof. intros Hr. by rewrite list_lookup_fmap, range_lookup. Qed.

(** Updating one slot of a list tabulated over [range n]. *)
Lemma fmap_range_insert {A} (f g : Z -> A) n r :
  0 <= r < n ->
  (forall r', 0 <= r' < n -> r' <> r -> g r' = f r') ->
  <[Z.to_nat r := g r]> (f <$> range n) = g <$> range n.
Proof.
  intros Hr Hother. apply list_eq. intros i.
  destruct (decide (i = Z.to_nat r)) as [->|Hne].
  - rewrite list_lookup_insert_eq
      by (rewrite length_fmap, range_length; lia).
    by rewrite fmap_range_lookup.
  - rewrite list_lookup_insert_ne by done.
    rewrite !list_lookup_fmap. unfold range.
    destruct (decide (Z.of_nat i < n)) as [Hi|Hi].
    + rewrite lookup_seqZ_lt by done. simpl. f_equal. symmetry.
      apply Hother; lia.
    + by rewrite lookup_seqZ_ge by lia.
Qed.

Lemma schedule_append_Ok (f : Z -> list Z) n r task :
  0 <= r < n ->
  schedule_append (f <$> range n) r task
  = Ok (<[Z.to_nat r := f r ++ [task]]> (f <$> range n)).
Proof.
  intros Hr. unfold schedule_append.
  assert (valid_index (length (f <$> range n)) r) as Hv.
  { unfold valid_index. rewrite length_fmap, range_length. lia. }
  rewrite (py_get_lookup _ _ (f r) Hv).
  2:{ rewrite position_nonneg by lia. by apply fmap_range_lookup. }
  simpl. rewrite py_set_valid by done. by rewrite position_nonneg by lia.
Qed.

(** ** The compact branch *)

Section Compact.
Variables (N R : Z).
Hypothesis R_pos : 1 <= R.
Hypothesis N_nonneg : 0 <= N.

Lemma block_start_succ r :
  block_start N R (r + 1) = block_start N R r + block_size N R r.
Proof. unfold block_start, block_size. case_decide; lia. Qed.

Lemma block_size_nonneg r : 0 <= block_size N R r.
Proof.
  unfold block_size. pose proof (Z.div_pos N R). case_decide; lia.
Qed.

(** The inner loop hands [group_size] consecutive tasks to [resource]. *)
Lemma group_loop (xs : list Z) (f : Z -> list Z) resource task :
  0 <= resource < R ->
  for_in xs
    (fun _ '(task, schedule) =>
       schedule ← schedule_append schedule resource task;
       Ok (task + 1, schedule))
    (task, f <$> range R)
  = Ok (task + Z.of_nat (length xs),
        (fun r => if decide (r = resource)
                  then f r ++ seqZ task (Z.of_nat (length xs))
                  else f r) <$> range R).
Proof.
  intros Hres. revert f task.
  induction xs as [|x xs IH]; intros f task.
  - simpl. f_equal. f_equal; [lia|].
    apply list_fmap_ext. intros _ r _. case_decide; [|done].
    by rewrite app_nil_r.
  - cbn [for_in]. rewrite schedule_append_Ok by done. simpl.
    set (g := fun r => if decide (r = resource) then f r ++ [task] else f r).
    replace (f resource ++ [task]) with (g resource)
      by (unfold g; by rewrite decide_True).
    rewrite (fmap_range_insert f g);
      [|done|intros; unfold g; by rewrite decide_False].
    rewrite IH. f_equal. f_equal; [lia|].
    apply list_fmap_ext. intros _ r _. unfold g. case_decide; [|done].
    rewrite <- app_assoc. f_equal.
    rewrite (seqZ_cons task) by lia. simpl. do 2 f_equal. lia.
Qed.

Lemma compact_body_Ok k :
  0 <= k < R ->
  compact_body (N / R) k
    (block_start N R k, Z.max (N mod R - k) 0, blocks_upto N R k <$> range R)
  = Ok (block_start N R (k + 1), Z.max (N mod R - (k + 1)) 0,
        blocks_upto N R (k + 1) <$> range R).
Proof.
  intros Hk. unfold compact_body.
  assert ((if decide (Z.max (N mod R - k) 0 > 0)
           then (N / R + 1, Z.max (N mod R - k) 0 - 1)
           else (N / R, Z.max (N mod R - k) 0))
          = (block_size N R k, Z.max (N mod R - (k + 1)) 0)) as ->.
  { unfold block_size. repeat case_decide; f_equal; lia. }
  pose proof (block_size_nonneg k) as Hsz.
  unfold range at 1.
  replace (block_size N R k)
    with (Z.of_nat (length (seqZ 0 (block_size N R k)))) at 2
    by (rewrite length_seqZ; lia).
  rewrite group_loop by done. simpl.
  rewrite length_seqZ, Z2Nat.id by lia.
  rewrite <- block_start_succ. do 2 f_equal.
  apply list_fmap_ext. intros _ r _. unfold blocks_upto.
  repeat case_decide; try lia; try done.
  subst r. done.
Qed.

Lemma compact_loop (k : nat) :
  Z.of_nat k <= R ->
  for_in (range (Z.of_nat k)) (compact_body (N / R))
    (0, N mod R, (fun _ => []) <$> range R)
  = Ok (block_start N R (Z.of_nat k), Z.max (N mod R - Z.of_nat k) 0,
        blocks_upto N R (Z.of_nat k) <$> range R).
Proof.
  induction k as [|k IH]; intros Hk.
  - simpl. f_equal.
    pose proof (Z.mod_pos_bound N R ltac:(lia)).
    unfold block_start. f_equal; [f_equal; lia|].
    apply list_fmap_ext. intros i r Hr%list_elem_of_lookup_2%elem_of_range.
    unfold blocks_upto. by rewrite decide_False by lia.
  - rewrite Nat2Z.inj_succ. unfold Z.succ.
    rewrite range_snoc by lia. rewrite for_in_snoc, IH by lia.
    rewrite bind_Ok. apply compact_body_Ok. lia.
Qed.

End Compact.

Lemma static_init_compact tasks R :
  1 <= R ->
  OpenMPStatic_init tasks R 0
  = Ok (mkStatic R 0 (block (Z.of_nat (length tasks)) R <$> range R)).
Proof.
  intros HR. unfold OpenMPStatic_init. rewrite decide_True by done.
  unfold py_floordiv, py_mod. rewrite !decide_False by lia. simpl.
  pose proof (compact_loop (Z.of_nat (length tasks)) R HR ltac:(lia)
                (Z.to_nat R)) as Hloop.
  rewrite Z2Nat.id in Hloop by lia. rewrite Hloop by lia. simpl.
  do 2 f_equal. apply list_fmap_ext.
  intros i r Hr%list_elem_of_lookup_2%elem_of_range.
  unfold blocks_upto. by rewrite decide_True by lia.
Qed.

(** ** The round-robin branch *)

Section RoundRobin.
Variables (N R c : Z).
Hypothesis R_pos : 1 <= R.
Hypothesis c_pos : 0 < c.

Lemma dealt_snoc k r :
  0 <= k ->
  dealt (k + 1) R c r
  = dealt k R c r ++ (if decide ((k / c) mod R = r) then [k] else []).
Proof.
  intros Hk. unfold dealt. rewrite range_snoc by done.
  rewrite filter_app.
  destruct (decide ((k / c) mod R = r)) as [Heq|Hne].
  - by rewrite (filter_cons_True _ k).
  - rewrite (filter_cons_False _ k) by done. done.
Qed.

Lemma round_robin_body_Ok k :
  0 <= k ->
  round_robin_body R c k ((k / c) mod R, k mod c, (dealt k R c) <$> range R)
  = Ok (((k + 1) / c) mod R, (k + 1) mod c,
        (dealt (k + 1) R c) <$> range R).
Proof.
  intros Hk. unfold round_robin_body.
  pose proof (Z.mod_pos_bound (k / c) R ltac:(lia)) as Hres.
  rewrite schedule_append_Ok by done. simpl.
  replace (dealt k R c ((k / c) mod R) ++ [k])
    with (dealt (k + 1) R c ((k / c) mod R))
    by (rewrite dealt_snoc by done; by rewrite decide_True).
  rewrite (fmap_range_insert (dealt k R c) (dealt (k + 1) R c)); [|done|].
  2:{ intros r' _ Hne. rewrite dealt_snoc by done.
      rewrite decide_False by done. by rewrite app_nil_r. }
  pose proof (Z.mod_pos_bound k c c_pos) as Hmod.
  pose proof (Z.div_mod k c ltac:(lia)) as Hdm.
  case_decide as Hfull.
  - unfold py_mod. rewrite decide_False by lia. simpl.
    assert ((k + 1) / c = k / c + 1) as Hdiv.
    { symmetry. apply (Z.div_unique_pos (k + 1) c (k / c + 1) 0); lia. }
    assert ((k + 1) mod c = 0) as Hm.
    { symmetry. apply (Z.mod_unique_pos (k + 1) c (k / c + 1) 0); lia. }
    rewrite Hdiv, Hm. do 3 f_equal.
    rewrite Z.add_mod_idemp_l by lia. done.
  - assert ((k + 1) / c = k / c) as Hdiv.
    { symmetry.
      apply (Z.div_unique_pos (k + 1) c (k / c) (k mod c + 1)); lia. }
    assert ((k + 1) mod c = k mod c + 1) as Hm.
    { symmetry.
      apply (Z.mod_unique_pos (k + 1) c (k / c) (k mod c + 1)); lia. }
    by rewrite Hdiv, Hm.
Qed.

Lemma round_robin_loop (k : nat) :
  for_in (range (Z.of_nat k)) (round_robin_body R c)
    (0, 0, (fun _ => []) <$> range R)
  = Ok ((Z.of_nat k / c) mod R, Z.of_nat k mod c,
        (dealt (Z.of_nat k) R c) <$> range R).
Proof.
  induction k as [|k IH].
  - simpl. rewrite Z.div_0_l, !Z.mod_0_l by lia. done.
  - rewrite Nat2Z.inj_succ. unfold Z.succ.
    rewrite range_snoc by lia. rewrite for_in_snoc, IH.
    rewrite bind_Ok. apply round_robin_body_Ok. lia.
Qed.

End RoundRobin.

Lemma static_init_round_robin tasks R c :
  1 <= R -> 0 < c ->
  OpenMPStatic_init tasks R c
  = Ok (mkStatic R c (dealt (Z.of_nat (length tasks)) R c <$> range R)).
Proof.
  intros HR Hc. unfold OpenMPStatic_init. rewrite decide_False by lia.
  rewrite (round_robin_loop R c HR Hc). done.
Qed.

(** * Policies that hand out every task once *)

Section HandoutFacts.
Context {S : Type} `{!Scheduler S}.
Variables (tasks : list Z) (R : Z).
Variables (ok : S -> Prop) (pending : S -> Z -> list Z).
Hypothesis policy : handout (length tasks) R ok pending.
Let n := length tasks.

Lemma served_initial (s : S) :
  ok s ->
  (forall i, 0 <= i < Z.of_nat n -> exists r, 0 <= r < R /\ i ∈ pending s r) ->
  served n ok pending (initial tasks R s).
Proof.
  intros Hok Hcover. split; simpl; [done| |].
  - intros r i Hi. apply lookup_replicate_2.
    pose proof (handout_valid _ _ _ _ policy s r i Hok Hi). fold n. lia.
  - intros k Hk _. destruct (Hcover (Z.of_nat k)) as (r & Hr & Hin); [lia|].
    exists r. split; [|done]. rewrite <- list_fmap_compose.
    apply list_elem_of_fmap. exists r. split; [done|].
    by apply elem_of_range.
Qed.

(** A query of such a policy, as the engine sees it. *)
Lemma handout_step (st : state S) t r q :
  inv tasks R st -> served n ok pending st ->
  resources st = (t, r) :: q ->
  exists s' ts m',
    query (scheduler st) r = Ok (s', PyList ts) /\ ok s' /\
    (ts = [] -> pending (scheduler st) r = []) /\
    (forall i, i ∈ ts -> i ∈ pending (scheduler st) r) /\
    (forall r' i, i ∈ pending (scheduler st) r' ->
                  i ∈ ts \/ i ∈ pending s' r') /\
    (forall r' i, i ∈ pending s' r' ->
                  (i ∉ ts) /\ i ∈ pending (scheduler st) r') /\
    assign tasks r ts (mapping st) 0
      = Assigned m' (0 + batch_load tasks ts).
Proof.
  intros Hinv Hserved Hq.
  destruct (inv_queue _ _ _ Hinv t r) as (Hr & _ & _).
  { rewrite Hq. by left. }
  destruct (handout_query _ _ _ _ policy (scheduler st) r
              (served_ok _ _ _ _ Hserved) Hr)
    as (s' & ts & Hquery & Hok' & Hnd & Hempty & Hsub & Hkeep & Hdrop).
  assert (forall i, i ∈ ts -> 0 <= i < Z.of_nat n) as Hvalid.
  { intros i Hi. eapply (handout_valid _ _ _ _ policy);
      [apply Hserved | by apply Hsub]. }
  destruct (assign_ok tasks r ts (mapping st) 0) as [m' Hm'].
  - apply Hinv.
  - rewrite Forall_forall. intros i Hi. specialize (Hvalid i Hi).
    unfold valid_index. fold n. lia.
  - apply NoDup_fmap_2_strong; [|done].
    intros i j Hi Hj. pose proof (Hvalid i Hi). pose proof (Hvalid j Hj).
    rewrite !position_nonneg by lia. lia.
  - intros i Hi. specialize (Hvalid i Hi).
    rewrite position_nonneg by lia.
    eapply (served_free _ _ _ _ Hserved). by apply Hsub.
  - exists s', ts, m'. done.
Qed.

Lemma served_step (st st' : state S) :
  inv tasks R st -> served n ok pending st ->
  step tasks st = Next st' -> served n ok pending st'.
Proof.
  intros Hinv Hserved Hstep.
  apply step_Next in Hstep
    as (t & r & q & s' & v & Hq & Hquery & Hcase).
  destruct (handout_step st t r q Hinv Hserved Hq)
    as (s'' & ts & m'' & Hquery' & Hok' & Hempty & Hsub & Hkeep & Hdrop & _).
  rewrite Hquery in Hquery'. simplify_eq. simpl in Hcase.
  assert (forall i r', i ∈ pending (scheduler st) r' -> 0 <= i < Z.of_nat n)
    as Hvalid.
  { intros i r' Hi. eapply (handout_valid _ _ _ _ policy);
      [apply Hserved | done]. }
  destruct Hcase as [[Hv ->]|(m' & extra & Hv & Hassign & ->)].
  - split; simpl; [done| |].
    + intros r' i Hi. apply Hdrop in Hi as [_ Hi].
      by eapply (served_free _ _ _ _ Hserved).
    + intros k Hk Hfree.
      destruct (served_owed _ _ _ _ Hserved k Hk Hfree)
        as (r' & Hr' & Hin).
      exists r'. split.
      * rewrite Hq in Hr'. simpl in Hr'.
        apply elem_of_cons in Hr' as [->|?]; [|done].
        rewrite (Hempty Hv) in Hin. by apply elem_of_nil in Hin.
      * apply Hkeep in Hin as [Hin|?]; [|done].
        rewrite Hv in Hin. by apply elem_of_nil in Hin.
  - pose proof (inv_len _ _ _ Hinv) as Hlen.
    split; simpl; [done| |].
    + intros r' i Hi. apply Hdrop in Hi as [Hnot Hi].
      rewrite (assign_lookup _ _ _ _ _ _ _ _ Hlen Hassign).
      rewrite decide_False; [by eapply (served_free _ _ _ _ Hserved)|].
      intros (j & Heq & Hj)%list_elem_of_fmap.
      pose proof (Hvalid i r' Hi). pose proof (Hvalid j r (Hsub j Hj)).
      fold n in Heq. rewrite position_nonneg in Heq by lia.
      assert (i = j) as -> by lia. done.
    + intros k Hk Hfree.
      rewrite (assign_lookup _ _ _ _ _ _ _ _ Hlen Hassign) in Hfree.
      case_decide as Hin.
      { simplify_eq. destruct (inv_queue _ _ _ Hinv t (-1)) as (? & _).
        - rewrite Hq. by left.
        - lia. }
      destruct (served_owed _ _ _ _ Hserved k Hk Hfree)
        as (r' & Hr' & Hpend).
      exists r'. split.
      * rewrite heappush_perm. simpl. by rewrite Hq in Hr'.
      * apply Hkeep in Hpend as [Hts|?]; [|done].
        exfalso. apply Hin. apply list_elem_of_fmap.
        exists (Z.of_nat k). split; [|done].
        rewrite position_nonneg by lia. lia.
Qed.

Lemma run_served k (st st' : state S) :
  inv tasks R st -> served n ok pending st ->
  run k tasks st = Some st' -> served n ok pending st'.
Proof.
  revert st. induction k as [|k IH]; intros st Hinv Hserved Hrun;
    simpl in Hrun.
  - by simplify_eq.
  - destruct (step tasks st) as [st1|] eqn:Hstep; [|done].
    eapply IH; [| |done]; [by eapply inv_step | by eapply served_step].
Qed.

(** The engine halts on such a policy only through an empty queue. *)
Lemma served_halt (st : state S) o out :
  inv tasks R st -> served n ok pending st ->
  step tasks st = Halt o out ->
  resources st = [] /\ o = finish tasks st /\ out = output st.
Proof.
  intros Hinv Hserved Hhalt.
  apply step_Halt in Hhalt as [?|(t & r & q & Hq & Hcase)]; [done|].
  exfalso.
  destruct (handout_step st t r q Hinv Hserved Hq)
    as (s' & ts & m' & Hquery & _ & _ & _ & _ & _ & Hassign).
  destruct Hcase as [(e & He & _)|(s'' & v & Hquery' & _ & _ & Hc)];
    [congruence|].
  rewrite Hquery in Hquery'. simplify_eq. simpl in Hc.
  destruct Hc as [[? _]|(e & ? & _)]; congruence.
Qed.

(** On such a policy [simulate] returns normally, with every task
    mapped. *)
Lemma handout_total (s : S) :
  1 <= R -> ok s ->
  (forall i, 0 <= i < Z.of_nat n -> exists r, 0 <= r < R /\ i ∈ pending s r) ->
  exists m t q c log,
    simulate_debug tasks R s = (Returned (m, t, q, c), log) /\
    (m, t, q, c) <> failure /\
    (forall k, m !! k <> Some (-1)) /\
    exists st k, run k tasks (initial tasks R s) = Some st /\
                 resources st = [] /\ output st = log /\ mapping st = m /\
                 requests st = q.
Proof.
  intros HR Hok Hcover.
  destruct (simulate_debug_halts tasks R s)
    as (k & st & o & out & Hrun & Hinv & Hhalt & Hsim).
  assert (served n ok pending st) as Hserved.
  { eapply run_served; [apply inv_initial | by apply served_initial | done]. }
  destruct (served_halt st o out Hinv Hserved Hhalt) as (Hq & -> & ->).
  destruct (drained_retired tasks R st 0 Hinv Hq ltac:(lia))
    as (d & Hd & _).
  destruct (finish_Returned tasks R st Hinv) as (e & c & Hlast & Hfin).
  { intros Hnil. rewrite Hnil in Hd. by apply elem_of_nil in Hd. }
  exists (mapping st), (ev_time e), (answered (output st)), c, (output st).
  rewrite Hsim, Hfin. split; [done|]. split.
  { intros Hf. apply (finish_not_failure tasks R st Hinv).
    by rewrite Hfin, Hf. }
  split.
  - intros i Hi.
    assert (i < n)%nat as Hlt.
    { apply lookup_lt_Some in Hi. by rewrite (inv_len _ _ _ Hinv) in Hi. }
    destruct (served_owed _ _ _ _ Hserved i Hlt Hi) as (r & Hr & _).
    rewrite Hq in Hr. by apply elem_of_nil in Hr.
  - exists st, k. by rewrite (inv_requests _ _ _ Hinv).
Qed.

End HandoutFacts.

(** * The two implemented policies hand out every task once *)

(** ** OpenMPStatic *)

Lemma static_query_Ok (s : OpenMPStatic) R r l :
  length (schedule s) = Z.to_nat R -> 0 <= r < R ->
  schedule s !! Z.to_nat r = Some l ->
  query s r =
  Ok (match l with
      | [] => s
      | _ :: _ => mkStatic (static_num_resources s) (chunk_size s)
                    (<[Z.to_nat r := []]> (schedule s))
      end, PyList l).
Proof.
  intros Hlen Hr Hl. unfold query, OpenMPStatic_query.
  assert (valid_index (length (schedule s)) r) as Hv.
  { unfold valid_index. lia. }
  rewrite (py_get_lookup _ _ l Hv) by (by rewrite position_nonneg by lia).
  rewrite bind_Ok. destruct l as [|x l]; [done|].
  rewrite py_set_valid by done. by rewrite position_nonneg by lia.
Qed.

Lemma static_handout n R :
  handout n R (static_ok n R) static_pending.
Proof.
  split.
  - intros s r i (_ & Hvalid & _) Hi. unfold static_pending in Hi.
    destruct (schedule s !! Z.to_nat r) as [l|] eqn:Hl; simpl in Hi.
    + by apply (Hvalid _ _ Hl).
    + by apply elem_of_nil in Hi.
  - intros s r Hok Hr. pose proof Hok as (Hlen & Hvalid & Hdisj).
    destruct (lookup_lt_is_Some_2 (schedule s) (Z.to_nat r)) as [l Hl];
      [lia|].
    rewrite (static_query_Ok s R r l Hlen Hr Hl).
    assert (static_pending s r = l) as Hpend.
    { unfold static_pending. by rewrite Hl. }
    destruct l as [|x l].
    { exists s, []. rewrite Hpend.
      split; [done|]. split; [done|]. split; [constructor|].
      split; [done|]. split; [done|].
      split; [intros r' i Hi; by right|].
      intros r' i Hi. split; [apply not_elem_of_nil|done]. }
    eexists _, _. split; [done|]. split; [|split; [|split; [|split; [|split]]]].
    + split; [|split]; simpl.
      * by rewrite length_insert.
      * intros k l' [(_ & <- & _)|[_ Hk]]%list_lookup_insert_Some.
        -- split; [constructor|]. intros i Hi. by apply elem_of_nil in Hi.
        -- by apply (Hvalid _ _ Hk).
      * intros k k' l1 l2 i [(_ & <- & _)|[_ Hk]]%list_lookup_insert_Some
          [(_ & <- & _)|[_ Hk']]%list_lookup_insert_Some Hi1 Hi2;
          try (by apply elem_of_nil in Hi1); try (by apply elem_of_nil in Hi2).
        by eapply Hdisj.
    + by apply (Hvalid _ _ Hl).
    + done.
    + by rewrite Hpend.
    + intros r' i Hi. unfold static_pending in *. simpl.
      destruct (decide (Z.to_nat r' = Z.to_nat r)) as [Heq|Hne].
      * left. rewrite Heq, Hl in Hi. done.
      * right. by rewrite list_lookup_insert_ne.
    + intros r' i Hi. unfold static_pending in *. simpl in Hi.
      destruct (decide (Z.to_nat r' = Z.to_nat r)) as [Heq|Hne].
      * rewrite Heq, list_lookup_insert_eq in Hi by lia.
        by apply elem_of_nil in Hi.
      * rewrite list_lookup_insert_ne in Hi by done.
        split; [|done].
        destruct (schedule s !! Z.to_nat r') as [l'|] eqn:Hl'; simpl in Hi;
          [|by apply elem_of_nil in Hi].
        intros Hin. apply Hne. by eapply (Hdisj _ _ _ _ i Hl' Hl).
Qed.

(** *** The compact schedule is a partition of the tasks *)

Section BlockFacts.
Variables (N R : Z).
Hypothesis R_pos : 1 <= R.
Hypothesis N_nonneg : 0 <= N.

Lemma block_start_0 : block_start N R 0 = 0.
Proof.
  unfold block_start. pose proof (Z.mod_pos_bound N R ltac:(lia)). lia.
Qed.

Lemma block_start_R : block_start N R R = N.
Proof.
  unfold block_start. pose proof (Z.mod_pos_bound N R ltac:(lia)).
  pose proof (Z.div_mod N R ltac:(lia)). lia.
Qed.

Lemma block_start_mono r r' :
  0 <= r <= r' -> block_start N R r <= block_start N R r'.
Proof.
  intros Hr. unfold block_start.
  pose proof (Z.div_pos N R ltac:(lia) ltac:(lia)). nia.
Qed.

Lemma elem_of_block r i :
  i ∈ block N R r <-> block_start N R r <= i < block_start N R (r + 1).
Proof.
  unfold block. rewrite elem_of_seqZ, block_start_succ. done.
Qed.

Lemma block_valid r i : 0 <= r < R -> i ∈ block N R r -> 0 <= i < N.
Proof.
  intros Hr Hi%elem_of_block.
  pose proof (block_start_mono 0 r ltac:(lia)).
  pose proof (block_start_mono (r + 1) R ltac:(lia)).
  rewrite block_start_0 in *. rewrite block_start_R in *. lia.
Qed.

Lemma block_disjoint r r' i :
  0 <= r -> 0 <= r' -> i ∈ block N R r -> i ∈ block N R r' -> r = r'.
Proof.
  intros Hr Hr' Hi%elem_of_block Hi'%elem_of_block.
  destruct (Z.lt_total r r') as [Hlt|[?|Hlt]]; [|done|].
  - pose proof (block_start_mono (r + 1) r' ltac:(lia)). lia.
  - pose proof (block_start_mono (r' + 1) r ltac:(lia)). lia.
Qed.

Lemma block_cover i :
  0 <= i < N -> exists r, 0 <= r < R /\ i ∈ block N R r.
Proof.
  intros Hi.
  cut (forall k : nat, Z.of_nat k <= R -> i < block_start N R (Z.of_nat k) ->
         exists r, 0 <= r < Z.of_nat k /\ i ∈ block N R r).
  { intros Hcut. destruct (Hcut (Z.to_nat R)) as (r & Hr & Hin); [lia| |].
    - rewrite Z2Nat.id by lia. rewrite block_start_R. lia.
    - exists r. split; [lia|done]. }
  induction k as [|k IH]; intros Hk Hlt.
  - change (Z.of_nat 0) with 0 in Hlt. rewrite block_start_0 in Hlt. lia.
  - destruct (decide (i < block_start N R (Z.of_nat k))) as [Hlt'|Hge].
    + destruct (IH ltac:(lia) Hlt') as (r & Hr & Hin).
      exists r. split; [lia|done].
    + exists (Z.of_nat k). split; [lia|]. apply elem_of_block.
      replace (Z.of_nat k + 1) with (Z.of_nat (Datatypes.S k)) by lia. lia.
Qed.

End BlockFacts.

Lemma fmap_range_lookup_Some {A} (f : Z -> A) n k x :
  (f <$> range n) !! k = Some x -> x = f (Z.of_nat k) /\ Z.of_nat k < n.
Proof.
  rewrite list_lookup_fmap. unfold range.
  destruct (seqZ 0 n !! k) as [r|] eqn:Hr; [|done].
  apply lookup_seqZ in Hr as [-> ?]. simpl. intros; simplify_eq. done.
Qed.

Lemma static_compact_ok (tasks : list Z) R :
  1 <= R ->
  static_ok (length tasks) R
    (mkStatic R 0 (block (Z.of_nat (length tasks)) R <$> range R)).
Proof.
  intros HR. set (N := Z.of_nat (length tasks)).
  split; [|split]; simpl.
  - by rewrite length_fmap, range_length.
  - intros k l [-> Hk]%fmap_range_lookup_Some. split.
    + apply NoDup_seqZ.
    + intros i Hi. apply (block_valid N R HR ltac:(lia) (Z.of_nat k)); [lia|done].
  - intros k k' l l' i [-> Hk]%fmap_range_lookup_Some
      [-> Hk']%fmap_range_lookup_Some Hi Hi'.
    apply Nat2Z.inj.
    by apply (block_disjoint N R HR ltac:(lia) _ _ i); [lia|lia|..].
Qed.

Lemma static_compact_cover (tasks : list Z) R i :
  1 <= R -> 0 <= i < Z.of_nat (length tasks) ->
  exists r, 0 <= r < R /\
    i ∈ static_pending
          (mkStatic R 0 (block (Z.of_nat (length tasks)) R <$> range R)) r.
Proof.
  intros HR Hi.
  destruct (block_cover (Z.of_nat (length tasks)) R HR i Hi)
    as (r & Hr & Hin).
  exists r. split; [done|]. unfold static_pending. simpl.
  by rewrite fmap_range_lookup.
Qed.

(** *** The round-robin schedule is a partition of the tasks *)

Lemma elem_of_dealt N R c r i :
  i ∈ dealt N R c r <-> (i / c) mod R = r /\ 0 <= i < N.
Proof. unfold dealt. by rewrite list_elem_of_filter, elem_of_range. Qed.

Lemma static_round_robin_ok (tasks : list Z) R c :
  1 <= R ->
  static_ok (length tasks) R
    (mkStatic R c (dealt (Z.of_nat (length tasks)) R c <$> range R)).
Proof.
  intros HR. split; [|split]; simpl.
  - by rewrite length_fmap, range_length.
  - intros k l [-> Hk]%fmap_range_lookup_Some. split.
    + apply NoDup_filter, NoDup_seqZ.
    + by intros i [_ Hi]%elem_of_dealt.
  - intros k k' l l' i [-> Hk]%fmap_range_lookup_Some
      [-> Hk']%fmap_range_lookup_Some [Hi _]%elem_of_dealt
      [Hi' _]%elem_of_dealt. lia.
Qed.

Lemma static_round_robin_cover (tasks : list Z) R c i :
  1 <= R -> 0 <= i < Z.of_nat (length tasks) ->
  exists r, 0 <= r < R /\
    i ∈ static_pending
          (mkStatic R c (dealt (Z.of_nat (length tasks)) R c <$> range R)) r.
Proof.
  intros HR Hi. exists ((i / c) mod R).
  pose proof (Z.mod_pos_bound (i / c) R ltac:(lia)) as Hr.
  split; [done|]. unfold static_pending. simpl.
  rewrite fmap_range_lookup by done. simpl. by apply elem_of_dealt.
Qed.

(** ** LPT *)

Lemma lpt_handout n R : handout n R (lpt_ok n) lpt_pending.
Proof.
  split.
  - intros s r i [_ Hvalid] Hi. by apply Hvalid.
  - intros s r Hok Hr. pose proof Hok as [Hnd Hvalid].
    unfold query, LPT_query, lpt_pending.
    destruct s as [nr [|[l i] rest]]; simpl in *.
    + exists (mkLPT nr []), [].
      split; [done|]. split; [done|]. split; [constructor|].
      split; [done|]. split; [done|].
      split; [intros r' i Hi; by right|].
      intros r' i Hi. split; [apply not_elem_of_nil|done].
    + apply NoDup_cons in Hnd as [Hi Hnd].
      exists (mkLPT nr rest), [i]. simpl. split; [done|].
      split; [|split; [|split; [|split; [|split]]]].
      * split; simpl; [done|]. intros j Hj. apply Hvalid. by right.
      * apply NoDup_singleton.
      * done.
      * intros j ->%list_elem_of_singleton. by left.
      * intros _ j [->|Hj]%elem_of_cons; [left; by left | by right].
      * intros _ j Hj. split; [|by right].
        intros ->%list_elem_of_singleton. done.
Qed.

Lemma insert_desc_perm x l : insert_desc x l ≡ₚ x :: l.
Proof.
  induction l as [|y l IH]; simpl; [done|].
  destruct (tuple_ltb x y); [|done]. rewrite IH. apply Permutation_swap.
Qed.

Lemma sort_reverse_perm l : sort_reverse l ≡ₚ l.
Proof.
  unfold sort_reverse. induction l as [|x l IH]; simpl; [done|].
  by rewrite insert_desc_perm, IH.
Qed.

Lemma imap_indices (tasks : list Z) :
  (imap (fun i l => (l, Z.of_nat i)) tasks).*2
  = seqZ 0 (Z.of_nat (length tasks)).
Proof.
  rewrite fmap_imap.
  rewrite (imap_ext _ (fun i _ => Z.of_nat i)) by done.
  rewrite imap_seq_0. unfold seqZ. rewrite Nat2Z.id.
  apply list_fmap_ext. intros; lia.
Qed.

Lemma lpt_init_indices tasks R :
  (lpt_tasks (LPT_init tasks R)).*2 ≡ₚ seqZ 0 (Z.of_nat (length tasks)).
Proof.
  unfold LPT_init. simpl. rewrite sort_reverse_perm. by rewrite imap_indices.
Qed.

Lemma lpt_init_ok tasks R : lpt_ok (length tasks) (LPT_init tasks R).
Proof.
  split.
  - rewrite lpt_init_indices. apply NoDup_seqZ.
  - intros i Hi. rewrite lpt_init_indices in Hi.
    apply elem_of_seqZ in Hi. lia.
Qed.

Lemma lpt_init_cover tasks R i :
  0 <= i < Z.of_nat (length tasks) ->
  i ∈ lpt_pending (LPT_init tasks R) 0.
Proof.
  intros Hi. unfold lpt_pending. rewrite lpt_init_indices.
  apply elem_of_seqZ. lia.
Qed.

(** * Policies that have nothing to hand out *)

Section Silent.
Context {S : Type} `{!Scheduler S}.
Variables (tasks : list Z) (R : Z) (s : S).
Hypothesis silent : forall r, 0 <= r < R ->
  exists v, query s r = Ok (s, v) /\ as_tasks v = [].

(** Every queued resource is retired in turn, at the time it is queued
    with. *)
Lemma loop_silent (q : list (Z * Z)) fuel m req tm out :
  (length q <= fuel)%nat ->
  (forall x, x ∈ q -> 0 <= x.2 < R) ->
  loop fuel tasks (mkState q m req tm s out)
  = (finish tasks
       (mkState [] m req (from_option Some tm (fst <$> last q)) s
                (out ++ ((fun x => Done x.1 x.2) <$> q))),
     out ++ ((fun x => Done x.1 x.2) <$> q)).
Proof.
  revert fuel tm out. induction q as [|[t r] q IH]; intros fuel tm out Hf Hq.
  - simpl. rewrite app_nil_r. by destruct fuel.
  - destruct fuel as [|fuel]; [simpl in Hf; lia|].
    destruct (silent r) as (v & Hquery & Hv).
    { apply (Hq (t, r)). by left. }
    cbn [loop]. unfold step. cbn [resources heappop scheduler].
    rewrite Hquery, Hv. cbn [mapping requests output].
    rewrite IH; [|simpl in Hf; lia|intros x Hx; apply Hq; by right].
    assert (from_option Some (Some t) (fst <$> last q)
            = from_option Some tm (fst <$> last ((t, r) :: q))) as ->.
    { destruct q as [|x q _] using rev_ind; [done|].
      by rewrite last_snoc, last_cons, last_snoc. }
    rewrite fmap_cons. cbn [fst snd]. by rewrite <- app_assoc.
Qed.

Lemma simulate_debug_silent :
  simulate_debug tasks R s
  = (finish tasks
       (mkState [] (replicate (length tasks) (-1)) 0
          (if decide (1 <= R) then Some 0 else None) s
          ((fun r => Done 0 r) <$> range R)),
     (fun r => Done 0 r) <$> range R).
Proof.
  unfold simulate_debug, initial. rewrite loop_silent.
  - rewrite app_nil_l, <- list_fmap_compose.
    assert (from_option Some None
              (fst <$> last ((fun i : Z => (0, i)) <$> range R))
            = (if decide (1 <= R) then Some 0 else None)) as ->; [|done].
    case_decide as HR.
    + unfold range.
      replace R with (Z.of_nat (Datatypes.S (Z.to_nat (R - 1)))) by lia.
      rewrite seqZ_S, fmap_app.
      change ((fun i : Z => (0, i)) <$> [0 + Z.of_nat (Z.to_nat (R - 1))])
        with [(0, 0 + Z.of_nat (Z.to_nat (R - 1)))].
      by rewrite last_snoc.
    + unfold range. by rewrite seqZ_nil by lia.
  - rewrite length_fmap, range_length. lia.
  - intros x (r & -> & Hr%elem_of_range)%list_elem_of_fmap. done.
Qed.

End Silent.

(** With no task at all, a silent policy gives [([], 0, 0, 0)]. *)
Lemma simulate_empty_silent {S : Type} `{!Scheduler S} (R : Z) (s : S) :
  1 <= R ->
  (forall r, 0 <= r < R -> exists v, query s r = Ok (s, v) /\ as_tasks v = []) ->
  simulate [] R s = Returned ([], 0, 0, 0).
Proof.
  intros HR Hsilent. unfold simulate.
  rewrite (simulate_debug_silent [] R s Hsilent). simpl.
  unfold finish. simpl. by rewrite decide_True.
Qed.

Lemma block_empty R r : 1 <= R -> 0 <= r -> block 0 R r = [].
Proof.
  intros HR Hr. unfold block, block_size.
  rewrite Z.mod_0_l, Z.div_0_l by lia.
  by rewrite decide_False by lia.
Qed.

Lemma dealt_empty R c r : dealt 0 R c r = [].
Proof. done. Qed.

Lemma static_init_empty R c :
  1 <= R -> 0 <= c ->
  OpenMPStatic_init [] R c = Ok (mkStatic R c ((fun _ => []) <$> range R)).
Proof.
  intros HR Hc. destruct (decide (c = 0)) as [->|Hne].
  - rewrite static_init_compact by done. do 2 f_equal.
    apply list_fmap_ext. intros i r Hr%list_elem_of_lookup_2%elem_of_range.
    apply block_empty; lia.
  - rewrite static_init_round_robin by lia. done.
Qed.

Lemma static_empty_silent R c r :
  0 <= r < R ->
  exists v, query (mkStatic R c ((fun _ => []) <$> range R)) r
            = Ok (mkStatic R c ((fun _ => []) <$> range R), v) /\
            as_tasks v = [].
Proof.
  intros Hr. exists (PyList []). split; [|done].
  rewrite (static_query_Ok _ R r []); [done| |done|].
  - simpl. by rewrite length_fmap, range_length.
  - simpl. by rewrite fmap_range_lookup.
Qed.

(** C9. With no task at all and at least one resource, [simulate] with an
    OpenMPStatic policy of any chunk size from 0 up, or with an LPT policy,
    returns [([], 0, 0, 0)]. *)
Theorem simulate_no_tasks (R : Z) :
  1 <= R ->
  (forall c, 0 <= c ->
     exists s, OpenMPStatic_init [] R c = Ok s /\
               simulate [] R s = Returned ([], 0, 0, 0)) /\
  simulate [] R (LPT_init [] R) = Returned ([], 0, 0, 0).
Proof.
  intros HR. split.
  - intros c Hc. eexists. split; [by apply static_init_empty|].
    apply simulate_empty_silent; [done|].
    intros r Hr. by apply static_empty_silent.
  - apply simulate_empty_silent; [done|].
    intros r Hr. by exists (PyList []).
Qed.

Lemma simulate_no_tasks_witness :
  (forall c, 0 <= c ->
     exists s, OpenMPStatic_init [] 3 c = Ok s /\
               simulate [] 3 s = Returned ([], 0, 0, 0)) /\
  simulate [] 3 (LPT_init [] 3) = Returned ([], 0, 0, 0).
Proof. apply (simulate_no_tasks 3). lia. Defined.

(** * OpenMPStatic: the number of answered queries *)


Lemma waiting_cons s x q :
  waiting s (x :: q)
  = ((if decide (static_pending s x.2 <> []) then 1 else 0) + waiting s q)%nat.
Proof.
  unfold waiting. destruct (decide (static_pending s x.2 <> [])) as [H|H].
  - rewrite (filter_cons_True _ x) by done. done.
  - rewrite (filter_cons_False _ x) by done. done.
Qed.


Section StaticCount.
Variables (tasks : list Z) (R : Z).
Let n := length tasks.




End StaticCount.

(** ** How many resources have tasks to get *)

Lemma count_below (a R : Z) :
  0 <= a -> 0 <= R ->
  Z.of_nat (length (filter (fun r => r < a) (range R))) = Z.min a R.
Proof.
  intros Ha HR. rewrite <- (Z2Nat.id R HR). generalize (Z.to_nat R).
  clear HR R. intros k. induction k as [|k IH]; [simpl; lia|].
  rewrite Nat2Z.inj_succ. unfold Z.succ. rewrite range_snoc by lia.
  rewrite filter_app, length_app, Nat2Z.inj_add, IH.
  destruct (decide (Z.of_nat k < a)).
  - rewrite (filter_cons_True _ (Z.of_nat k)) by done. simpl. lia.
  - rewrite (filter_cons_False _ (Z.of_nat k)) by done. simpl. lia.
Qed.

Lemma waiting_initial (f : Z -> list Z) (nr c R a : Z) :
  0 <= a -> 0 <= R ->
  (forall r, 0 <= r < R -> f r <> [] <-> r < a) ->
  Z.of_nat (waiting (mkStatic nr c (f <$> range R))
              ((fun i => (0, i)) <$> range R))
  = Z.min a R.
Proof.
  intros Ha HR Hf. rewrite <- (count_below a R Ha HR). f_equal.
  cut (forall rs, (forall r, r ∈ rs -> 0 <= r < R) ->
         waiting (mkStatic nr c (f <$> range R)) ((fun i => (0, i)) <$> rs)
         = length (filter (fun r => r < a) rs)).
  { intros Hcut. apply Hcut. by intros r Hr%elem_of_range. }
  induction rs as [|r rs IH]; intros Hrs; [done|].
  rewrite fmap_cons, waiting_cons, IH by (intros; apply Hrs; by right).
  assert (0 <= r < R) as Hr by (apply Hrs; by left).
  assert (static_pending (mkStatic nr c (f <$> range R)) (0, r).2 = f r)
    as ->.
  { unfold static_pending. simpl. by rewrite fmap_range_lookup. }
  destruct (decide (r < a)) as [Hlt|Hge].
  - rewrite (filter_cons_True _ r) by done.
    by rewrite decide_True by (by apply Hf).
  - rewrite (filter_cons_False _ r) by done.
    rewrite decide_False; [done|]. intros Hne. by apply Hf in Hne.
Qed.

Lemma block_nonempty N R r :
  1 <= R -> 0 <= N -> 0 <= r < R -> block N R r <> [] <-> r < N.
Proof.
  intros HR HN Hr. unfold block.
  assert (0 < block_size N R r <-> r < N) as <-.
  { unfold block_size.
    pose proof (Z.mod_pos_bound N R ltac:(lia)).
    pose proof (Z.div_mod N R ltac:(lia)).
    pose proof (Z.div_pos N R ltac:(lia) ltac:(lia)).
    case_decide; [lia|]. nia. }
  split.
  - intros Hne. destruct (decide (0 < block_size N R r)); [done|].
    destruct Hne. by rewrite seqZ_nil by lia.
  - intros Hpos Hnil. apply (f_equal length) in Hnil.
    rewrite length_seqZ in Hnil. simpl in Hnil. lia.
Qed.

Lemma dealt_nonempty N R c r :
  1 <= R -> 0 < c -> 0 <= r < R ->
  dealt N R c r <> [] <-> r < (N + c - 1) / c.
Proof.
  intros HR Hc Hr.
  assert (r < (N + c - 1) / c <-> r * c < N) as ->.
  { split.
    - intros Hlt. pose proof (Z.mul_div_le (N + c - 1) c Hc). nia.
    - intros Hlt. apply Z.div_le_lower_bound with (q := r + 1) (a := N + c - 1)
        in Hc as Hle; lia. }
  split.
  - intros Hne. destruct (dealt N R c r) as [|i l] eqn:Hd; [done|].
    assert (i ∈ dealt N R c r) as [Hkey Hi]%elem_of_dealt
      by (rewrite Hd; by left).
    pose proof (Z.div_pos i c ltac:(lia) ltac:(lia)).
    pose proof (Z.mod_le (i / c) R ltac:(lia) ltac:(lia)).
    pose proof (Z.mul_div_le i c Hc). nia.
  - intros Hlt Hnil.
    assert (r * c ∈ dealt N R c r) as Hin.
    { apply elem_of_dealt. rewrite Z.div_mul by lia.
      rewrite Z.mod_small by lia. split; [done|nia]. }
    rewrite Hnil in Hin. by apply elem_of_nil in Hin.
Qed.

(** * The policies under the engine *)

Lemma static_init_Ok (tasks : list Z) R c :
  1 <= R -> 0 <= c ->
  exists s, OpenMPStatic_init tasks R c = Ok s /\
    static_ok (length tasks) R s /\
    (forall i, 0 <= i < Z.of_nat (length tasks) ->
       exists r, 0 <= r < R /\ i ∈ static_pending s r) /\
    Z.of_nat (waiting s ((fun i => (0, i)) <$> range R))
    = Z.min R (if decide (c = 0) then Z.of_nat (length tasks)
               else (Z.of_nat (length tasks) + c - 1) / c).
Proof.
  intros HR Hc. destruct (decide (c = 0)) as [->|Hne].
  - eexists. split; [by apply static_init_compact|].
    split; [by apply static_compact_ok|].
    split; [intros i Hi; by apply static_compact_cover|].
    rewrite (waiting_initial _ _ _ _ (Z.of_nat (length tasks))); [lia..|].
    intros r Hr. apply block_nonempty; lia.
  - eexists. split; [apply static_init_round_robin; lia|].
    split; [by apply static_round_robin_ok|].
    split; [intros i Hi; by apply static_round_robin_cover|].
    assert (0 <= (Z.of_nat (length tasks) + c - 1) / c) as Hq.
    { apply Z.div_pos; lia. }
    rewrite (waiting_initial _ _ _ _ _ Hq); [lia..|].
    intros r Hr. apply dealt_nonempty; lia.
Qed.




Lemma not_free_all (m : list Z) : (forall k, m !! k <> Some (-1)) -> -1 ∉ m.
Proof. intros H [k Hk]%list_elem_of_lookup. by apply (H k). Qed.

(** C3, as the code has it, for integer loads (the sums of Python [int]s
    are exact; those of [float]s depend on the order of the additions).
    Whatever the policy, on a normal return the loads of the tasks mapped to
    a resource add up to the finish time that resource was retired with,
    and a task is still at [-1] in the mapping exactly when no query handed
    it out; the engine does not ask for more. The mapping is free of [-1]
    for the policies that hand out every task: OpenMPStatic (any chunk size
    from 0 up) and LPT, with at least one resource. *)
Theorem mapping_and_loads :
  (forall (S : Type) (H : Scheduler S) (tasks : list Z) (R : Z) (s : S)
          (m : list Z) (t q c : Z) (log : list event),
     simulate_debug tasks R s = (Returned (m, t, q, c), log) ->
     (m, t, q, c) <> failure ->
     (forall r, 0 <= r < R ->
        exists d, Done d r ∈ log /\ finish_time tasks log r = d /\
                  mapped_load tasks m r = d) /\
     (forall k, (k < length tasks)%nat ->
        m !! k <> Some (-1) <-> k ∈ handed (length tasks) log)) /\
  (forall (tasks : list Z) (R c : Z),
     1 <= R -> 0 <= c ->
     exists s m t q contig,
       OpenMPStatic_init tasks R c = Ok s /\
       simulate tasks R s = Returned (m, t, q, contig) /\
       (m, t, q, contig) <> failure /\ -1 ∉ m) /\
  (forall (tasks : list Z) (R : Z),
     1 <= R ->
     exists m t q contig,
       simulate tasks R (LPT_init tasks R) = Returned (m, t, q, contig) /\
       (m, t, q, contig) <> failure /\ -1 ∉ m).
Proof.
  split; [|split].
  - intros S H tasks R s m t q c log Hsim Hnf.
    destruct (simulate_debug_returned _ _ _ _ _ _ _ _ Hsim Hnf)
      as (k & st & Hrun & Hinv & Hq & <- & <- & _).
    split.
    + intros r Hr. by apply (drained_retired tasks R).
    + intros i Hi. by apply (inv_handed _ _ _ Hinv).
  - intros tasks R c HR Hc.
    destruct (static_init_Ok tasks R c HR Hc) as (s & Hinit & Hok & Hcover & _).
    destruct (handout_total tasks R _ _ (static_handout (length tasks) R)
                s HR Hok Hcover)
      as (m & t & q & cc & log & Hsim & Hnf & Htotal & _).
    exists s, m, t, q, cc. split; [done|]. unfold simulate. rewrite Hsim.
    split; [done|]. split; [done|]. by apply not_free_all.
  - intros tasks R HR.
    destruct (handout_total tasks R _ _ (lpt_handout (length tasks) R)
                (LPT_init tasks R) HR (lpt_init_ok tasks R))
      as (m & t & q & cc & log & Hsim & Hnf & Htotal & _).
    { intros i Hi. exists 0. split; [lia|]. by apply lpt_init_cover. }
    exists m, t, q, cc. unfold simulate. rewrite Hsim.
    split; [done|]. split; [done|]. by apply not_free_all.
Qed.

Lemma mapping_and_loads_witness :
  ((forall r, 0 <= r < 2 ->
      exists d, Done d r ∈ [Got 0 0 [1]; Got 0 1 [0]; Done 3 1; Done 4 0] /\
                finish_time [3; 4]
                  [Got 0 0 [1]; Got 0 1 [0]; Done 3 1; Done 4 0] r = d /\
                mapped_load [3; 4] [1; 0] r = d) /\
   (forall k, (k < length [3; 4])%nat ->
      [1; 0] !! k <> Some (-1) <->
      k ∈ handed (length [3; 4])
            [Got 0 0 [1]; Got 0 1 [0]; Done 3 1; Done 4 0])) /\
  (exists s m t q contig,
     OpenMPStatic_init [3; 4] 2 1 = Ok s /\
     simulate [3; 4] 2 s = Returned (m, t, q, contig) /\
     (m, t, q, contig) <> failure /\ -1 ∉ m) /\
  (exists m t q contig,
     simulate [3; 4] 2 (LPT_init [3; 4] 2) = Returned (m, t, q, contig) /\
     (m, t, q, contig) <> failure /\ -1 ∉ m).
Proof.
  split; [|split].
  - apply (proj1 mapping_and_loads LPT _ [3; 4] 2 (LPT_init [3; 4] 2)
             [1; 0] 4 2 1).
    + reflexivity.
    + discriminate.
  - apply (proj1 (proj2 mapping_and_loads) [3; 4] 2 1); lia.
  - apply (proj2 (proj2 mapping_and_loads) [3; 4] 2). lia.
Defined.

(** C3 as it is stated fails: the base policy never hands out a task, and
    the engine returns normally, not with the failure tuple, with every
    task at [-1]. *)
Lemma mapping_total_counterexample :
  exists (m : list Z) (t q c : Z),
    simulate [1] 1 (mkBasic 1) = Returned (m, t, q, c) /\
    (m, t, q, c) <> failure /\
    -1 ∈ m.
Proof.
  exists [-1], 0, 0, 0.
  split; [reflexivity|]. split; [discriminate|]. by left.
Qed.

(** * LPT: the priority order *)

Lemma insert_desc_sorted x l :
  StronglySorted (flip tuple_le) l ->
  StronglySorted (flip tuple_le) (insert_desc x l).
Proof.
  induction 1 as [|y l Hs IH Hy]; simpl.
  - repeat constructor.
  - destruct (tuple_ltb x y) eqn:E.
    + constructor; [done|].
      rewrite Forall_forall. intros z Hz. rewrite insert_desc_perm in Hz.
      apply elem_of_cons in Hz as [->|Hz].
      * by apply tuple_ltb_le.
      * rewrite Forall_forall in Hy. by apply Hy.
    + apply tuple_ltb_ge in E. constructor; [by constructor|].
      constructor; [done|].
      eapply Forall_impl; [exact Hy|]. intros z Hz.
      unfold flip in *. by etrans.
Qed.

Lemma sort_reverse_sorted l : StronglySorted (flip tuple_le) (sort_reverse l).
Proof.
  unfold sort_reverse. induction l as [|x l IH]; simpl; [constructor|].
  by apply insert_desc_sorted.
Qed.

Lemma sorted_strict (l : list (Z * Z)) :
  StronglySorted (flip tuple_le) l -> NoDup l.*2 -> StronglySorted before l.
Proof.
  induction 1 as [|x l Hs IH Hx]; intros Hnd; [constructor|].
  rewrite fmap_cons in Hnd. apply NoDup_cons in Hnd as [Hnin Hnd].
  constructor; [by apply IH|].
  rewrite Forall_forall in Hx |- *. intros y Hy.
  specialize (Hx y Hy). unfold flip, tuple_le in Hx. unfold before.
  assert (x.2 <> y.2) as Hne.
  { intros Heq. apply Hnin. rewrite Heq. by apply list_elem_of_fmap_2. }
  lia.
Qed.

Lemma lpt_ask nr (ps : list (Z * Z)) (rs : list Z) :
  ask (mkLPT nr ps) rs
  = Ok (mkLPT nr (drop (length rs) ps),
        ((fun p : Z * Z => PyList [p.2]) <$> take (length rs) ps)
        ++ replicate (length rs - length ps) (PyList [])).
Proof.
  revert ps. induction rs as [|r rs IH]; intros ps.
  - simpl. by rewrite drop_0.
  - cbn [ask]. destruct ps as [|[l i] ps].
    + unfold query at 1, LPT_query. cbn [lpt_tasks]. rewrite bind_Ok.
      rewrite IH. rewrite bind_Ok. rewrite drop_nil, take_nil. simpl.
      rewrite Nat.sub_0_r. done.
    + unfold query at 1, LPT_query. cbn [lpt_tasks lpt_num_resources].
      rewrite bind_Ok. rewrite IH. rewrite bind_Ok. done.
Qed.

(** C5. LPT orders the tasks by load, largest first, and by index, largest
    first, among equal loads; the queries hand out the tasks one at a time
    in that order, whichever resource asks, and answer with the empty list
    once the order is used up. *)
Theorem lpt_priority_order (tasks : list Z) (R : Z) :
  let order := lpt_tasks (LPT_init tasks R) in
  order ≡ₚ imap (fun i l => (l, Z.of_nat i)) tasks /\
  StronglySorted before order /\
  forall rs : list Z,
    exists s',
      ask (LPT_init tasks R) rs
      = Ok (s', ((fun p : Z * Z => PyList [p.2]) <$> take (length rs) order)
                ++ replicate (length rs - length order) (PyList [])) /\
      lpt_tasks s' = drop (length rs) order.
Proof.
  simpl. split; [apply sort_reverse_perm|]. split.
  - apply sorted_strict; [apply sort_reverse_sorted|].
    apply (lpt_init_ok tasks R).
  - intros rs. eexists. unfold LPT_init. rewrite lpt_ask. done.
Qed.

(** * OpenMPStatic: the compact schedule as it is queried *)

Lemma concat_blocks N R (k : nat) :
  1 <= R -> 0 <= N -> 
  concat (block N R <$> range (Z.of_nat k))
  = seqZ 0 (block_start N R (Z.of_nat k)).
Proof.
  intros HR HN. induction k as [|k IH].
  - change (Z.of_nat 0) with 0. by rewrite block_start_0 by done.
  - rewrite Nat2Z.inj_succ. unfold Z.succ. rewrite range_snoc by lia.
    rewrite fmap_app, concat_app, IH. simpl. rewrite app_nil_r.
    rewrite block_start_succ.
    pose proof (block_start_mono N R HR HN 0 (Z.of_nat k) ltac:(lia)) as H0.
    rewrite block_start_0 in H0 by done.
    rewrite seqZ_app; [done|done|]. by apply block_size_nonneg.
Qed.

Section StaticAsk.
Variables (R nr c : Z) (f : Z -> list Z).

Lemma static_ask (rs asked : list Z) :
  Forall (fun r => 0 <= r < R) rs ->
  ask (mkStatic nr c (left_after f asked <$> range R)) rs
  = Ok (mkStatic nr c (left_after f (asked ++ rs) <$> range R),
        imap (fun j r => PyList (left_after f (asked ++ take j rs) r)) rs).
Proof.
  intros Hrs. revert asked.
  induction Hrs as [|r rs Hr Hrs IH]; intros asked.
  - simpl. by rewrite app_nil_r.
  - cbn [ask].
    rewrite (static_query_Ok _ R r (left_after f asked r)); [|simpl..].
    2:{ by rewrite length_fmap, range_length. }
    2:{ done. }
    2:{ by rewrite fmap_range_lookup. }
    rewrite bind_Ok. cbn [static_num_resources chunk_size schedule].
    assert (match left_after f asked r with
            | [] => mkStatic nr c (left_after f asked <$> range R)
            | _ :: _ =>
                mkStatic nr c
                  (<[Z.to_nat r := []]> (left_after f asked <$> range R))
            end = mkStatic nr c (left_after f (asked ++ [r]) <$> range R))
      as ->.
    { assert (left_after f (asked ++ [r]) r = []) as Hgone.
      { unfold left_after. rewrite decide_True; [done|].
        apply elem_of_app. right. by left. }
      assert (forall r', r' <> r ->
                left_after f (asked ++ [r]) r' = left_after f asked r')
        as Hsame.
      { intros r' Hne. unfold left_after.
        destruct (decide (r' ∈ asked)) as [Hin|Hnin].
        - rewrite decide_True; [done|]. apply elem_of_app. by left.
        - rewrite decide_False; [done|].
          intros [?|?%list_elem_of_singleton]%elem_of_app; done. }
      destruct (left_after f asked r) as [|x l] eqn:Hl.
      - f_equal. apply list_fmap_ext. intros _ r' _.
        destruct (decide (r' = r)) as [->|Hne]; [congruence|].
        by rewrite Hsame.
      - f_equal.
        rewrite <- (fmap_range_insert (left_after f asked)
                      (left_after f (asked ++ [r])) R r);
          [by rewrite Hgone | done | by intros; apply Hsame]. }
    rewrite IH, bind_Ok. rewrite <- app_assoc. simpl.
    rewrite app_nil_r. do 3 f_equal.
    apply imap_ext. intros j r' _. simpl. by rewrite <- app_assoc.
Qed.

End StaticAsk.

(** C6. With at least one resource, the Contiguous Block policy precomputes
    [R] runs that follow one another through the task indices [0..N-1]; the
    run of resource [r] has [N / R + 1] tasks when [r < N mod R] and [N / R]
    otherwise; a resource gets its whole run at its first query and the
    empty list at every later one. *)
Theorem compact_partition (tasks : list Z) (R : Z) :
  1 <= R ->
  let N := Z.of_nat (length tasks) in
  exists s,
    OpenMPStatic_init tasks R 0 = Ok s /\
    schedule s
    = (fun r => seqZ (r * (N / R) + Z.min r (N mod R))
                     (if decide (r < N mod R) then N / R + 1 else N / R))
      <$> range R /\
    concat (schedule s) = range N /\
    forall rs, Forall (fun r => 0 <= r < R) rs ->
      exists s',
        ask s rs
        = Ok (s', imap (fun j r =>
                          PyList (if decide (r ∈ take j rs) then []
                                  else default [] (schedule s !! Z.to_nat r)))
                    rs).
Proof.
  intros HR N. eexists. split; [by apply static_init_compact|].
  cbn [schedule]. fold N. split; [done|]. split.
  - pose proof (concat_blocks N R (Z.to_nat R) HR ltac:(lia)) as Hc.
    rewrite Z2Nat.id in Hc by lia. rewrite Hc.
    by rewrite block_start_R by lia.
  - intros rs Hrs.
    pose proof (static_ask R R 0 (block N R) rs [] Hrs) as Hask.
    assert (left_after (block N R) [] <$> range R = block N R <$> range R)
      as Hstart.
    { apply list_fmap_ext. intros _ r _. unfold left_after.
      by rewrite decide_False by apply not_elem_of_nil. }
    rewrite Hstart in Hask. rewrite Hask. eexists. f_equal. f_equal.
    apply imap_ext. intros j r Hj. simpl. unfold left_after. f_equal.
    case_decide; [done|].
    rewrite fmap_range_lookup; [done|].
    rewrite Forall_forall in Hrs. apply Hrs.
    by eapply list_elem_of_lookup_2.
Qed.

Lemma compact_partition_witness :
  exists s,
    OpenMPStatic_init [2; 4; 6; 8; 5] 2 0 = Ok s /\
    schedule s = [[0; 1; 2]; [3; 4]] /\
    concat (schedule s) = [0; 1; 2; 3; 4] /\
    forall rs, Forall (fun r => 0 <= r < 2) rs ->
      exists s',
        ask s rs
        = Ok (s', imap (fun j r =>
                          PyList (if decide (r ∈ take j rs) then []
                                  else default [] (schedule s !! Z.to_nat r)))
                    rs).
Proof. apply (compact_partition [2; 4; 6; 8; 5] 2). lia. Defined.

(** * The Global-Queue Dynamic scenario *)

(** C7, on the code: [OpenMPDynamic.query] has no body and returns [None],
    so the engine retires the three resources at time 0 with no task
    mapped. *)
Theorem dynamic_scenario_unimplemented :
  simulate [2; 4; 6; 8; 5; 3; 9; 2; 4; 6] 3
    (OpenMPDynamic_init [2; 4; 6; 8; 5; 3; 9; 2; 4; 6] 3 1)
  = Returned ([-1; -1; -1; -1; -1; -1; -1; -1; -1; -1], 0, 0, 0).
Proof. reflexivity. Qed.

(** The engine itself gives the figures of the scenario once it is driven
    by the policy the spec describes. *)
Lemma dynamic_scenario_as_specified :
  simulate [2; 4; 6; 8; 5; 3; 9; 2; 4; 6] 3
    (GlobalQueue_init [2; 4; 6; 8; 5; 3; 9; 2; 4; 6] 3 1)
  = Returned ([0; 1; 2; 0; 1; 2; 1; 2; 0; 2], 18, 10, 9).
Proof. reflexivity. Qed.

(** * The caller's objects are left alone *)

Section Keeps.
Variable σ0 : Heap.store.
Let base := length σ0.

Lemma grown_refl : grown σ0 σ0.
Proof.
  split; [done|]. split; [by rewrite firstn_all|].
  intros ℓ l Hℓ Hl. apply lookup_lt_Some in Hl. lia.
Qed.

Lemma grown_lookup σ ℓ o : grown σ0 σ -> σ0 !! ℓ = Some o -> σ !! ℓ = Some o.
Proof.
  intros (Hlen & Htake & _) Hℓ.
  rewrite <- Htake in Hℓ. rewrite lookup_take_Some in Hℓ. tauto.
Qed.

Lemma keeps_ret {A} (a : A) (Q : A -> Prop) :
  Q a -> keeps σ0 (mret a) Q.
Proof. intros Ha σ Hσ. split; [done|]. intros a' [= <-]. done. Qed.

Lemma keeps_lift {A} (r : res A) (Q : A -> Prop) :
  (forall a, r = Ok a -> Q a) -> keeps σ0 (Heap.lift r) Q.
Proof. intros Hr σ Hσ. split; [done|]. simpl. apply Hr. Qed.

Lemma keeps_bind {A B} (m : Heap.M A) (f : A -> Heap.M B)
    (P : A -> Prop) (Q : B -> Prop) :
  keeps σ0 m P -> (forall a, P a -> keeps σ0 (f a) Q) ->
  keeps σ0 (m ≫= f) Q.
Proof.
  intros Hm Hf σ Hσ. destruct (Hm σ Hσ) as [Hg Hp].
  unfold mbind, Heap.M_bind, Heap.bind.
  destruct (m σ) as [[a|e] σ'] eqn:E; simpl in *; [|done].
  apply Hf; [by apply Hp | done].
Qed.

Lemma keeps_weaken {A} (m : Heap.M A) (P Q : A -> Prop) :
  keeps σ0 m P -> (forall a, P a -> Q a) -> keeps σ0 m Q.
Proof.
  intros Hm HPQ σ Hσ. destruct (Hm σ Hσ) as [Hg Hp].
  split; [done|]. intros a Ha. by apply HPQ, Hp.
Qed.

Lemma keeps_alloc (o : Heap.obj) :
  (forall l, o = Heap.Refs l -> Forall (fun x => (base <= x)%nat) l) ->
  keeps σ0 (Heap.alloc o) (fun ℓ => (base <= ℓ)%nat).
Proof.
  intros Ho σ (Hlen & Htake & Hrefs). unfold Heap.alloc. cbn [fst snd].
  split.
  - split; [rewrite length_app; simpl; lia|]. split.
    + by rewrite take_app_le by done.
    + intros ℓ l Hℓ Hl.
      destruct (decide (ℓ < length σ)%nat) as [Hlt|Hge].
      * rewrite lookup_app_l in Hl by done. by eapply Hrefs.
      * rewrite lookup_app_r in Hl by lia.
        destruct (ℓ - length σ)%nat; simpl in Hl; [|done].
        simplify_eq. by apply Ho.
  - intros ℓ [= <-]. done.
Qed.

Lemma keeps_load_ints ℓ : keeps σ0 (Heap.load_ints ℓ) (fun _ => True).
Proof.
  intros σ Hσ. unfold Heap.load_ints.
  destruct (σ !! ℓ) as [[]|]; simpl; by split.
Qed.

Lemma keeps_load_pairs ℓ : keeps σ0 (Heap.load_pairs ℓ) (fun _ => True).
Proof.
  intros σ Hσ. unfold Heap.load_pairs.
  destruct (σ !! ℓ) as [[]|]; simpl; by split.
Qed.

Lemma keeps_load_refs ℓ :
  (base <= ℓ)%nat ->
  keeps σ0 (Heap.load_refs ℓ) (Forall (fun x => (base <= x)%nat)).
Proof.
  intros Hℓ σ Hσ. unfold Heap.load_refs.
  destruct (σ !! ℓ) as [[l|l|l]|] eqn:E; simpl;
    (split; [done|]); intros a Ha; try done.
  simplify_eq. destruct Hσ as (_ & _ & Hrefs). by eapply Hrefs.
Qed.

Lemma keeps_update ℓ (o : Heap.obj) :
  (base <= ℓ)%nat ->
  (forall l, o = Heap.Refs l -> Forall (fun x => (base <= x)%nat) l) ->
  keeps σ0 (Heap.update ℓ o) (fun _ => True).
Proof.
  intros Hℓ Ho σ (Hlen & Htake & Hrefs). unfold Heap.update. cbn [fst snd].
  split; [|done]. split; [by rewrite length_insert|]. split.
  - by rewrite take_insert_ge by done.
  - intros ℓ' l Hℓ' Hl.
    apply list_lookup_insert_Some in Hl as [(-> & -> & _)|[_ Hl]].
    + by apply Ho.
    + by eapply Hrefs.
Qed.

Lemma keeps_for_in {A St} (l : list A) (body : A -> St -> Heap.M St)
    (I : St -> Prop) (s : St) :
  I s -> (forall x s, I s -> keeps σ0 (body x s) I) ->
  keeps σ0 (Heap.for_in l body s) I.
Proof.
  intros Hs Hbody. revert s Hs.
  induction l as [|x l IH]; intros s Hs; simpl.
  - by apply keeps_ret.
  - eapply keeps_bind; [by apply Hbody|]. intros s' Hs'. by apply IH.
Qed.

Lemma keeps_comprehension {A B} (f : A -> Heap.M B) (l : list A)
    (P : B -> Prop) :
  (forall x, keeps σ0 (f x) P) ->
  keeps σ0 (Heap.comprehension f l) (Forall P).
Proof.
  intros Hf. induction l as [|x l IH]; simpl.
  - by apply keeps_ret.
  - eapply keeps_bind; [apply Hf|]. intros y Hy.
    eapply keeps_bind; [apply IH|]. intros ys Hys.
    apply keeps_ret. by constructor.
Qed.

(** ** The list operations *)

Lemma keeps_len ℓ : keeps σ0 (Heap.len ℓ) (fun _ => True).
Proof.
  eapply keeps_bind; [apply keeps_load_ints|]. intros l _.
  by apply keeps_ret.
Qed.

Lemma keeps_getitem ℓ i : keeps σ0 (Heap.getitem ℓ i) (fun _ => True).
Proof.
  eapply keeps_bind; [apply keeps_load_ints|]. intros l _.
  by apply keeps_lift.
Qed.

Lemma keeps_setitem ℓ i x :
  (base <= ℓ)%nat -> keeps σ0 (Heap.setitem ℓ i x) (fun _ => True).
Proof.
  intros Hℓ. eapply keeps_bind; [apply keeps_load_ints|]. intros l _.
  eapply keeps_bind; [by apply (keeps_lift _ (fun _ => True))|].
  intros l' _. by apply keeps_update.
Qed.

(** ** OpenMPStatic *)

Lemma py_get_elem_of {A} (l : list A) i x : py_get l i = Ok x -> x ∈ l.
Proof.
  intros [_ Hx]%py_get_Ok. by eapply list_elem_of_lookup_2.
Qed.

Lemma py_set_elem_of {A} (l l' : list A) i x y :
  py_set l i x = Ok l' -> y ∈ l' -> y = x \/ y ∈ l.
Proof.
  intros [_ ->]%py_set_Ok [k Hk]%list_elem_of_lookup.
  apply list_lookup_insert_Some in Hk as [(_ & -> & _)|[_ Hk]].
  - by left.
  - right. by eapply list_elem_of_lookup_2.
Qed.

Lemma keeps_schedule_append schedule resource task :
  (base <= schedule)%nat ->
  keeps σ0 (Heap.schedule_append schedule resource task) (fun _ => True).
Proof.
  intros Hs. eapply keeps_bind; [by apply keeps_load_refs|].
  intros refs Hrefs.
  eapply keeps_bind.
  { apply (keeps_lift _ (fun ℓ => (base <= ℓ)%nat)).
    intros ℓ Hℓ%py_get_elem_of. rewrite Forall_forall in Hrefs.
    by apply Hrefs. }
  intros ℓ Hℓ. eapply keeps_bind; [apply keeps_load_ints|]. intros l _.
  by apply keeps_update.
Qed.

Lemma keeps_static_init tasks R c :
  keeps σ0 (Heap.OpenMPStatic_init tasks R c)
    (fun self => (base <= Heap.schedule self)%nat).
Proof.
  unfold Heap.OpenMPStatic_init.
  eapply keeps_bind.
  { apply (keeps_comprehension _ _ (fun ℓ => (base <= ℓ)%nat)).
    intros _. by apply keeps_alloc. }
  intros lists Hlists.
  eapply keeps_bind.
  { apply keeps_alloc. intros l [= <-]. done. }
  intros schedule Hs.
  eapply keeps_bind; [apply keeps_len|]. intros n _.
  eapply keeps_bind; [|intros _ _; by apply keeps_ret].
  case_decide.
  - eapply keeps_bind; [by apply (keeps_lift _ (fun _ => True))|].
    intros partition_size _.
    eapply keeps_bind; [by apply (keeps_lift _ (fun _ => True))|].
    intros leftover _.
    eapply keeps_bind; [|intros _ _; by apply (keeps_ret _ (fun _ => True))].
    apply (keeps_for_in _ _ (fun _ => True)); [done|].
    intros resource [task left] _. unfold Heap.compact_body.
    destruct (if decide (left > 0) then _ else _) as [g l'].
    eapply keeps_bind; [|intros task' _; by apply keeps_ret].
    apply (keeps_for_in _ _ (fun _ => True)); [done|].
    intros _ task' _.
    eapply keeps_bind; [by apply keeps_schedule_append|].
    intros _ _. by apply keeps_ret.
  - eapply keeps_bind; [|intros _ _; by apply (keeps_ret _ (fun _ => True))].
    apply (keeps_for_in _ _ (fun _ => True)); [done|].
    intros task [resource counter] _. unfold Heap.round_robin_body.
    eapply keeps_bind; [by apply keeps_schedule_append|].
    intros _ _. case_decide.
    + eapply keeps_bind; [by apply (keeps_lift _ (fun _ => True))|].
      intros r _. by apply keeps_ret.
    + by apply keeps_ret.
Qed.

Lemma keeps_static_query (self : Heap.OpenMPStatic) r :
  (base <= Heap.schedule self)%nat ->
  keeps σ0 (Heap.query self r) (fun _ => True).
Proof.
  intros Hs. unfold Heap.query, Heap.OpenMPStatic_query.
  eapply keeps_bind; [by apply keeps_load_refs|]. intros refs Hrefs.
  eapply keeps_bind; [by apply (keeps_lift _ (fun _ => True))|].
  intros ℓ _.
  eapply keeps_bind; [apply keeps_load_ints|]. intros l _.
  destruct l as [|x l]; [by apply keeps_ret|].
  eapply keeps_bind; [by apply keeps_alloc|]. intros empty Hempty.
  eapply keeps_bind; [by apply keeps_load_refs|]. intros refs' Hrefs'.
  eapply keeps_bind.
  { apply (keeps_lift _ (Forall (fun x => (base <= x)%nat))).
    intros refs'' Hset. rewrite Forall_forall in Hrefs' |- *.
    intros y Hy. destruct (py_set_elem_of _ _ _ _ _ Hset Hy) as [->|?];
      [done|by apply Hrefs']. }
  intros refs'' Hrefs''.
  eapply keeps_bind; [|intros _ _; by apply keeps_ret].
  apply keeps_update; [done|]. by intros l' [= <-].
Qed.

(** ** LPT *)

Lemma keeps_lpt_init tasks R :
  keeps σ0 (Heap.LPT_init tasks R)
    (fun self => (base <= Heap.lpt_tasks self)%nat).
Proof.
  unfold Heap.LPT_init.
  eapply keeps_bind; [apply keeps_len|]. intros n _.
  eapply keeps_bind.
  { apply (keeps_comprehension _ _ (fun _ => True)). intros i.
    eapply keeps_bind; [apply keeps_getitem|]. intros x _.
    by apply keeps_ret. }
  intros pairs _.
  eapply keeps_bind; [by apply keeps_alloc|]. intros p Hp.
  eapply keeps_bind; [apply keeps_load_pairs|]. intros l _.
  eapply keeps_bind; [by apply keeps_update|]. intros _ _.
  by apply keeps_ret.
Qed.

Lemma keeps_lpt_query (self : Heap.LPT) r :
  (base <= Heap.lpt_tasks self)%nat ->
  keeps σ0 (Heap.query self r) (fun _ => True).
Proof.
  intros Hs. unfold Heap.query, Heap.LPT_query.
  eapply keeps_bind; [apply keeps_load_pairs|]. intros l _.
  destruct l as [|[load task_id] rest].
  - eapply keeps_bind; [by apply keeps_alloc|]. intros a _.
    by apply keeps_ret.
  - eapply keeps_bind; [by apply keeps_update|]. intros _ _.
    eapply keeps_bind; [by apply keeps_alloc|]. intros a _.
    by apply keeps_ret.
Qed.

(** ** simulate *)

Section Engine.
Context {Self : Type} `{!Heap.Scheduler Self}.
Variables (tasks : Heap.loc) (scheduler : Self).
Hypothesis keeps_query :
  forall r, keeps σ0 (Heap.query scheduler r) (fun _ => True).

Lemma keeps_assign mapping res_id new_tasks extra_time :
  (base <= mapping)%nat ->
  keeps σ0 (Heap.assign tasks mapping res_id new_tasks extra_time)
    (fun _ => True).
Proof.
  intros Hm. revert extra_time.
  induction new_tasks as [|i ts IH]; intros extra_time; simpl.
  - by apply keeps_ret.
  - eapply keeps_bind; [apply keeps_getitem|]. intros owner _.
    case_decide; [by apply keeps_ret|].
    eapply keeps_bind; [by apply keeps_setitem|]. intros _ _.
    eapply keeps_bind; [apply keeps_getitem|]. intros l _.
    apply IH.
Qed.

Lemma keeps_contig_changes mapping :
  keeps σ0 (Heap.contig_changes tasks mapping) (fun _ => True).
Proof.
  unfold Heap.contig_changes.
  eapply keeps_bind; [apply keeps_len|]. intros n _.
  apply (keeps_for_in _ _ (fun _ => True)); [done|].
  intros i c _.
  eapply keeps_bind; [apply keeps_getitem|]. intros a _.
  eapply keeps_bind; [apply keeps_getitem|]. intros b _.
  by apply keeps_ret.
Qed.

Lemma keeps_step resources mapping requests time :
  (base <= resources)%nat -> (base <= mapping)%nat ->
  keeps σ0 (Heap.step tasks scheduler resources mapping requests time)
    (fun _ => True).
Proof.
  intros Hr Hm. unfold Heap.step.
  eapply keeps_bind; [apply keeps_load_pairs|]. intros q _.
  destruct (heapq.heappop q) as [[[t r] q']|].
  - eapply keeps_bind; [by apply keeps_update|]. intros _ _.
    eapply keeps_bind; [apply keeps_query|]. intros answer _.
    eapply keeps_bind.
    { instantiate (1 := fun _ => True).
      destruct answer; [apply keeps_load_ints | by apply keeps_ret]. }
    intros new_tasks _. destruct new_tasks as [|i ts].
    + by apply keeps_ret.
    + eapply keeps_bind; [by apply keeps_assign|]. intros a _.
      destruct a as [extra|].
      * eapply keeps_bind; [apply keeps_load_pairs|]. intros q'' _.
        eapply keeps_bind; [by apply keeps_update|]. intros _ _.
        by apply keeps_ret.
      * eapply keeps_bind; [by apply keeps_alloc|]. intros e _.
        by apply keeps_ret.
  - eapply keeps_bind; [apply keeps_contig_changes|]. intros c _.
    destruct time; [by apply keeps_ret | by apply keeps_lift].
Qed.

Lemma keeps_loop fuel resources mapping requests time :
  (base <= resources)%nat -> (base <= mapping)%nat ->
  keeps σ0 (Heap.loop tasks scheduler fuel resources mapping requests time)
    (fun _ => True).
Proof.
  intros Hr Hm. revert requests time.
  induction fuel as [|fuel IH]; intros requests time; simpl;
    (eapply keeps_bind; [by apply keeps_step|]); intros [req t|r] _;
    try (by apply keeps_ret).
  apply IH.
Qed.

Lemma keeps_simulate R :
  keeps σ0 (Heap.simulate tasks scheduler R) (fun _ => True).
Proof.
  unfold Heap.simulate.
  eapply keeps_bind; [by apply keeps_alloc|]. intros resources Hr.
  eapply keeps_bind; [apply keeps_len|]. intros n _.
  eapply keeps_bind; [by apply keeps_alloc|]. intros mapping Hm.
  by apply keeps_loop.
Qed.

End Engine.

End Keeps.

(** * The store version computes what the state-passing version computes *)

Lemma M_bind_eq {A B} (m : Heap.M A) (f : A -> Heap.M B) σ :
  (m ≫= f) σ = match m σ with
               | (Ok a, σ') => f a σ'
               | (Raise e, σ') => (Raise e, σ')
               end.
Proof. done. Qed.

Lemma M_ret_eq {A} (a : A) σ : (mret a : Heap.M A) σ = (Ok a, σ).
Proof. done. Qed.

Lemma load_ints_eq σ ℓ l :
  σ !! ℓ = Some (Heap.Ints l) -> Heap.load_ints ℓ σ = (Ok l, σ).
Proof. intros H. unfold Heap.load_ints. by rewrite H. Qed.

Lemma load_pairs_eq σ ℓ l :
  σ !! ℓ = Some (Heap.Pairs l) -> Heap.load_pairs ℓ σ = (Ok l, σ).
Proof. intros H. unfold Heap.load_pairs. by rewrite H. Qed.

Lemma load_refs_eq σ ℓ l :
  σ !! ℓ = Some (Heap.Refs l) -> Heap.load_refs ℓ σ = (Ok l, σ).
Proof. intros H. unfold Heap.load_refs. by rewrite H. Qed.

Lemma len_eq σ ℓ l :
  σ !! ℓ = Some (Heap.Ints l) -> Heap.len ℓ σ = (Ok (Z.of_nat (length l)), σ).
Proof.
  intros H. unfold Heap.len. by rewrite M_bind_eq, (load_ints_eq _ _ _ H).
Qed.

Lemma getitem_eq σ ℓ l i :
  σ !! ℓ = Some (Heap.Ints l) -> Heap.getitem ℓ i σ = (py_get l i, σ).
Proof.
  intros H. unfold Heap.getitem. by rewrite M_bind_eq, (load_ints_eq _ _ _ H).
Qed.

Lemma setitem_eq σ ℓ l i x :
  σ !! ℓ = Some (Heap.Ints l) ->
  Heap.setitem ℓ i x σ
  = match py_set l i x with
    | Ok l' => (Ok (), <[ℓ := Heap.Ints l']> σ)
    | Raise e => (Raise e, σ)
    end.
Proof.
  intros H. unfold Heap.setitem.
  rewrite M_bind_eq, (load_ints_eq _ _ _ H), M_bind_eq. unfold Heap.lift.
  by destruct (py_set l i x).
Qed.

Lemma lookup_update_eq (σ : list Heap.obj) ℓ o o' :
  σ !! ℓ = Some o' -> <[ℓ := o]> σ !! ℓ = Some o.
Proof.
  intros H. apply list_lookup_insert_eq. by eapply lookup_lt_Some.
Qed.

Section Agreement.
Context {Self S : Type} `{!Heap.Scheduler Self} `{!Scheduler S}.
Variables (loads : list Z) (tref qref mref : Heap.loc).
Variables (self : Self) (rep : Heap.store -> S -> Prop).
Hypothesis policy : represents tref qref mref self rep.

Lemma assign_agree r ts m e σ :
  σ !! tref = Some (Heap.Ints loads) ->
  σ !! mref = Some (Heap.Ints m) ->
  tref <> mref ->
  exists m'',
    Heap.assign tref mref r ts e σ
    = (match assign loads r ts m e with
       | Assigned _ e' => Ok (Heap.Assigned e')
       | Conflict => Ok Heap.Conflict
       | Failed x => Raise x
       end, <[mref := Heap.Ints m'']> σ) /\
    forall m' e', assign loads r ts m e = Assigned m' e' -> m'' = m'.
Proof.
  intros Ht Hm Hne. revert m e σ Ht Hm.
  induction ts as [|i ts IH]; intros m e σ Ht Hm.
  - exists m. simpl. rewrite M_ret_eq, list_insert_id by done.
    split; [done|]. by intros m' e' [= <- _].
  - cbn [Heap.assign assign].
    rewrite M_bind_eq, (getitem_eq _ _ _ _ Hm).
    destruct (py_get m i) as [owner|x] eqn:Hget.
    2:{ exists m. rewrite list_insert_id by done. by split. }
    case_decide as Hown.
    { exists m. rewrite M_ret_eq, list_insert_id by done. by split. }
    rewrite M_bind_eq, (setitem_eq _ _ _ _ _ Hm).
    destruct (py_set m i r) as [m1|x] eqn:Hset.
    2:{ exists m. rewrite list_insert_id by done. by split. }
    set (σ1 := <[mref := Heap.Ints m1]> σ).
    assert (σ1 !! tref = Some (Heap.Ints loads)) as Ht1.
    { unfold σ1. by rewrite list_lookup_insert_ne. }
    assert (σ1 !! mref = Some (Heap.Ints m1)) as Hm1.
    { unfold σ1. by eapply lookup_update_eq. }
    rewrite M_bind_eq, (getitem_eq _ _ _ _ Ht1).
    destruct (py_get loads i) as [l|x] eqn:Hload.
    2:{ exists m1. by split. }
    destruct (IH m1 (e + l) σ1 Ht1 Hm1) as (m'' & Heq & Hm'').
    exists m''. rewrite Heq. unfold σ1.
    by rewrite list_insert_insert_eq.
Qed.

Lemma contig_changes_agree m σ :
  σ !! tref = Some (Heap.Ints loads) ->
  σ !! mref = Some (Heap.Ints m) ->
  Heap.contig_changes tref mref σ = (contig_changes loads m, σ).
Proof.
  intros Ht Hm. unfold Heap.contig_changes, contig_changes.
  rewrite M_bind_eq, (len_eq _ _ _ Ht).
  generalize (range (Z.of_nat (length loads) - 1)). generalize 0.
  intros c l. revert c. induction l as [|i l IH]; intros c; [done|].
  cbn [Heap.for_in for_in].
  rewrite M_bind_eq, M_bind_eq, (getitem_eq _ _ _ _ Hm).
  destruct (py_get m i) as [a|x]; [|done].
  rewrite M_bind_eq, (getitem_eq _ _ _ _ Hm).
  destruct (py_get m (i + 1)) as [b|x]; [|done].
  rewrite M_ret_eq. rewrite !bind_Ok. apply IH.
Qed.

Lemma update_eq ℓ o (σ : list Heap.obj) :
  Heap.update ℓ o σ = (Ok (), <[ℓ := o]> σ).
Proof. done. Qed.

Lemma alloc_eq o (σ : list Heap.obj) :
  Heap.alloc o σ = (Ok (length σ), σ ++ [o]).
Proof. done. Qed.

Lemma step_agree (st : state S) σ :
  agree tref qref mref loads rep σ st ->
  same_step tref qref mref loads rep (step loads st)
    (Heap.step tref self qref mref (requests st) (time st) σ).1
    (Heap.step tref self qref mref (requests st) (time st) σ).2.
Proof.
  intros [Ht Hq Hm Hrep Hne].
  unfold Heap.step, step.
  rewrite M_bind_eq, (load_pairs_eq _ _ _ Hq).
  destruct (resources st) as [|[t r] q'] eqn:Hres; cbn [heapq.heappop].
  - (* the queue is empty *)
    rewrite M_bind_eq, (contig_changes_agree _ _ Ht Hm).
    unfold finish. destruct (contig_changes loads (mapping st)) as [c|e];
      [|done].
    destruct (time st) as [t|]; [|done].
    rewrite M_ret_eq. exists mref. by split.
  - (* a resource is taken from the queue *)
    rewrite M_bind_eq, update_eq.
    set (σ1 := <[qref := Heap.Pairs q']> σ).
    assert (tref <> qref) as Htr by (intros ->; congruence).
    assert (mref <> qref) as Hmr by (intros ->; congruence).
    assert (σ1 !! tref = Some (Heap.Ints loads)) as Ht1.
    { unfold σ1. by rewrite list_lookup_insert_ne. }
    assert (σ1 !! mref = Some (Heap.Ints (mapping st))) as Hm1.
    { unfold σ1. by rewrite list_lookup_insert_ne. }
    assert (σ1 !! qref = Some (Heap.Pairs q')) as Hq1.
    { unfold σ1. by eapply lookup_update_eq. }
    assert (rep σ1 (scheduler st)) as Hrep1.
    { apply (rep_update _ _ _ _ _ policy); [done|by left]. }
    destruct (rep_query _ _ _ _ _ policy σ1 (scheduler st) r Hrep1)
      as [Hframe Hquery].
    { by eapply lookup_lt_Some. }
    { by eapply lookup_lt_Some. }
    { by eapply lookup_lt_Some. }
    rewrite M_bind_eq.
    destruct (Heap.query self r σ1) as [x σ2] eqn:Hx. simpl in Hframe, Hquery.
    destruct (query (scheduler st) r) as [[s' v]|e]; [|by subst x].
    destruct Hquery as (answer & -> & Hrep2 & Hden).
    assert (σ2 !! tref = Some (Heap.Ints loads)) as Ht2.
    { rewrite Hframe; [done|by left]. }
    assert (σ2 !! qref = Some (Heap.Pairs q')) as Hq2.
    { rewrite Hframe; [done|right; by left]. }
    assert (σ2 !! mref = Some (Heap.Ints (mapping st))) as Hm2.
    { rewrite Hframe; [done|right; by right]. }
    rewrite M_bind_eq.
    assert ((match answer with
             | Some ℓ => Heap.load_ints ℓ
             | None => mret []
             end) σ2 = (Ok (as_tasks v), σ2)) as ->.
    { destruct answer as [ℓ|], v as [|l]; simpl in Hden; try done.
      by apply load_ints_eq. }
    destruct (as_tasks v) as [|i ts] eqn:Hv.
    + (* the resource is done *)
      rewrite M_ret_eq. exists t. split; [done|]. split; [done|].
      by split.
    + (* the resource got tasks *)
      destruct (assign_agree r (i :: ts)
                  (mapping st) 0 σ2 Ht2 Hm2 Hne)
        as (m'' & Heq & Hm'').
      rewrite M_bind_eq, Heq.
      destruct (assign loads r (i :: ts) (mapping st) 0)
        as [m' e'| |e]; [| |done].
      * rewrite (Hm'' m' e' eq_refl).
        set (σ3 := <[mref := Heap.Ints m']> σ2).
        assert (σ3 !! qref = Some (Heap.Pairs q')) as Hq3.
        { unfold σ3. by rewrite list_lookup_insert_ne. }
        rewrite M_bind_eq, (load_pairs_eq _ _ _ Hq3).
        rewrite M_bind_eq, update_eq, M_ret_eq.
        exists t. split; [done|]. split; [done|].
        split; cbn [fst snd resources mapping scheduler].
        -- unfold σ3. by rewrite !list_lookup_insert_ne by done.
        -- by eapply lookup_update_eq.
        -- rewrite list_lookup_insert_ne by done.
           unfold σ3. by eapply lookup_update_eq.
        -- apply (rep_update _ _ _ _ _ policy); [|by left].
           apply (rep_update _ _ _ _ _ policy); [done|by right].
        -- done.
      * rewrite M_bind_eq, alloc_eq, M_ret_eq. unfold failure.
        eexists. split; [done|]. simpl.
        by rewrite lookup_app_r, Nat.sub_diag by lia.
Qed.

Lemma loop_agree fuel (st : state S) σ :
  agree tref qref mref loads rep σ st ->
  same_outcome (loop fuel loads st).1
    (Heap.loop tref self fuel qref mref (requests st) (time st)
       σ).1
    (Heap.loop tref self fuel qref mref (requests st) (time st)
       σ).2.
Proof.
  revert st σ. induction fuel as [|fuel IH]; intros st σ Hagree;
    pose proof (step_agree st σ Hagree) as Hstep;
    cbn [loop Heap.loop]; rewrite M_bind_eq;
    destruct (Heap.step _ _ _ _ _ _ σ) as [x σ'];
    destruct (step loads st) as [st'|o out]; simpl in Hstep.
  - destruct Hstep as (t & -> & Ht & Hagree'). done.
  - destruct o as [[[[m t] q] c]|e|]; [|by subst x|done].
    destruct Hstep as (ℓ & -> & Hℓ). rewrite M_ret_eq. simpl. eauto.
  - destruct Hstep as (t & -> & Ht & Hagree').
    specialize (IH st' σ' Hagree'). by rewrite Ht in IH.
  - destruct o as [[[[m t] q] c]|e|]; [|by subst x|done].
    destruct Hstep as (ℓ & -> & Hℓ). rewrite M_ret_eq. simpl. eauto.
Qed.

End Agreement.

(** [simulate] in the two versions, from a store that holds the loads and
    the policy. *)
Lemma simulate_agree {Self S : Type} `{!Heap.Scheduler Self} `{!Scheduler S}
    (loads : list Z) (tref : Heap.loc) (self : Self) (s : S) (R : Z)
    (σ : list Heap.obj) (rep : list Heap.obj -> S -> Prop) :
  represents tref (length σ) (Datatypes.S (length σ)) self rep ->
  σ !! tref = Some (Heap.Ints loads) ->
  rep σ s ->
  same_outcome (simulate loads R s)
    (Heap.simulate tref self R σ).1 (Heap.simulate tref self R σ).2.
Proof.
  intros Hpolicy Ht Hrep. unfold Heap.simulate, simulate, simulate_debug.
  rewrite M_bind_eq, alloc_eq, M_bind_eq.
  set (σ1 := σ ++ [Heap.Pairs ((fun i => (0, i)) <$> range R)]).
  assert (tref < length σ)%nat as Hlt by (by eapply lookup_lt_Some).
  assert (σ1 !! tref = Some (Heap.Ints loads)) as Ht1.
  { unfold σ1. by rewrite lookup_app_l. }
  rewrite (len_eq _ _ _ Ht1), M_bind_eq, alloc_eq, Nat2Z.id.
  assert (length σ1 = Datatypes.S (length σ)) as ->.
  { unfold σ1. rewrite length_app. simpl. lia. }
  set (σ2 := σ1 ++ [Heap.Ints (replicate (length loads) (-1))]).
  apply (loop_agree loads tref (length σ) (Datatypes.S (length σ)) self rep
           Hpolicy _ (initial loads R s) σ2).
  split; simpl.
  - unfold σ2. rewrite lookup_app_l; [done|]. unfold σ1.
    rewrite length_app. simpl. lia.
  - unfold σ2, σ1. rewrite <- app_assoc.
    by rewrite lookup_app_r, Nat.sub_diag by lia.
  - unfold σ2.
    rewrite lookup_app_r by (unfold σ1; rewrite length_app; simpl; lia).
    unfold σ1. rewrite length_app. simpl.
    by replace (Datatypes.S (length σ) - (length σ + 1))%nat with 0%nat by lia.
  - unfold σ2, σ1. by do 2 apply (rep_alloc _ _ _ _ _ Hpolicy).
  - lia.
Qed.

(** * The two implemented policies, as they are kept in the store *)

Lemma lookup_alloc_old (σ : list Heap.obj) o ℓ :
  (ℓ < length σ)%nat -> (σ ++ [o]) !! ℓ = σ !! ℓ.
Proof. intros H. by rewrite lookup_app_l. Qed.

Lemma lookup_alloc_new (σ : list Heap.obj) o :
  (σ ++ [o]) !! length σ = Some o.
Proof. by rewrite lookup_app_r, Nat.sub_diag by lia. Qed.

(** ** LPT *)

Lemma lpt_represents tref qref mref (self : Heap.LPT) :
  represents tref qref mref self (lpt_rep tref qref mref self).
Proof.
  split.
  - intros σ s o (Hp & Hd). split; [|done].
    rewrite lookup_alloc_old; [done|]. by eapply lookup_lt_Some.
  - intros σ s ℓ o (Hp & Ht & Hq & Hm) Hℓ. split; [|done].
    rewrite list_lookup_insert_ne; [done|]. destruct Hℓ; congruence.
  - intros σ s r (Hp & Ht & Hq & Hm) Hlt Hlq Hlm.
    unfold Heap.query, Heap.LPT_query, query, LPT_query.
    rewrite M_bind_eq, (load_pairs_eq _ _ _ Hp).
    destruct (lpt_tasks s) as [|[l i] rest] eqn:Hs.
    + rewrite M_bind_eq, alloc_eq, M_ret_eq. cbn [fst snd]. split.
      * intros ℓ Hℓ. apply lookup_alloc_old.
        destruct Hℓ as [->|[->| ->]]; done.
      * exists (Some (length σ)). split; [done|]. split.
        -- split; [|done]. rewrite lookup_alloc_old, Hs; [done|].
           by eapply lookup_lt_Some.
        -- apply lookup_alloc_new.
    + rewrite M_bind_eq, update_eq, M_bind_eq, alloc_eq, M_ret_eq.
      cbn [fst snd]. split.
      * intros ℓ Hℓ. rewrite lookup_alloc_old.
        -- apply list_lookup_insert_ne. destruct Hℓ as [->|[->| ->]]; done.
        -- rewrite length_insert. destruct Hℓ as [->|[->| ->]]; done.
      * exists (Some (length (<[Heap.lpt_tasks self := Heap.Pairs rest]> σ))).
        split; [done|]. split.
        -- split; [|done]. simpl. rewrite lookup_alloc_old.
           ++ by eapply lookup_update_eq.
           ++ rewrite length_insert. by eapply lookup_lt_Some.
        -- apply lookup_alloc_new.
Qed.

(** A comprehension that only reads the store. *)
Lemma comprehension_pure {A B} (f : A -> Heap.M B) (g : A -> B) (l : list A)
    (σ : list Heap.obj) :
  (forall x, x ∈ l -> f x σ = (Ok (g x), σ)) ->
  Heap.comprehension f l σ = (Ok (g <$> l), σ).
Proof.
  induction l as [|x l IH]; intros Hf; [done|].
  cbn [Heap.comprehension]. rewrite M_bind_eq, Hf by (by left).
  rewrite M_bind_eq, IH by (intros; apply Hf; by right). done.
Qed.

Lemma lpt_init_agree (loads : list Z) (tref : Heap.loc) (R : Z)
    (σ : list Heap.obj) :
  σ !! tref = Some (Heap.Ints loads) ->
  exists self σ',
    Heap.LPT_init tref R σ = (Ok self, σ') /\
    lpt_rep tref (length σ') (Datatypes.S (length σ')) self σ'
      (LPT_init loads R).
Proof.
  intros Ht. unfold Heap.LPT_init.
  rewrite M_bind_eq, (len_eq _ _ _ Ht), M_bind_eq.
  rewrite (comprehension_pure _
             (fun i => (default 0 (loads !! Z.to_nat i), i))).
  2:{ intros i Hi%elem_of_range.
      rewrite M_bind_eq, (getitem_eq _ _ _ _ Ht).
      destruct (py_get_valid loads i) as (x & Hx & ->);
        [unfold valid_index; lia|].
      rewrite position_nonneg in Hx by lia. by rewrite Hx. }
  rewrite M_bind_eq, alloc_eq, M_bind_eq.
  rewrite (load_pairs_eq _ _ _ (lookup_alloc_new _ _)).
  rewrite M_bind_eq, update_eq, M_ret_eq.
  eexists _, _. split; [done|].
  assert (tref < length σ)%nat by (by eapply lookup_lt_Some).
  split; [|rewrite length_insert, length_app; simpl; lia].
  cbn [Heap.lpt_tasks].
  rewrite (lookup_update_eq _ _ _ _ (lookup_alloc_new _ _)).
  unfold LPT_init. cbn [lpt_tasks]. do 3 f_equal.
  apply list_eq. intros k. rewrite list_lookup_fmap, list_lookup_imap.
  unfold range. destruct (loads !! k) as [x|] eqn:Hk.
  - rewrite lookup_seqZ_lt by (apply lookup_lt_Some in Hk; lia).
    cbn [fmap option_fmap option_map].
    replace (Z.to_nat (0 + Z.of_nat k)) with k by lia.
    rewrite Hk. simpl. do 2 f_equal.
  - rewrite lookup_seqZ_ge by (apply lookup_ge_None in Hk; lia). done.
Qed.

(** ** OpenMPStatic *)

Lemma static_represents tref qref mref (self : Heap.OpenMPStatic) :
  represents tref qref mref self (static_rep tref qref mref self).
Proof.
  split.
  - intros σ s o (refs & Hs & Hrefs & Hd). exists refs.
    split; [|split; [|done]].
    + rewrite lookup_alloc_old; [done|]. by eapply lookup_lt_Some.
    + eapply Forall2_impl; [exact Hrefs|]. intros ℓ l Hℓ. simpl in *.
      rewrite lookup_alloc_old; [done|]. by eapply lookup_lt_Some.
  - intros σ s ℓ o (refs & Hs & Hrefs & Hd & Ht) Hℓ. exists refs.
    apply Forall_cons in Hd as Hd'. destruct Hd' as [Hsd Hrd].
    split; [|split; [|done]].
    + rewrite list_lookup_insert_ne; [done|]. destruct Hℓ; subst; intuition congruence.
    + rewrite Forall_forall in Hrd.
      apply Forall2_same_length_lookup. split; [by eapply Forall2_length|].
      intros k x y Hx Hy. rewrite list_lookup_insert_ne.
      * by eapply (Forall2_lookup_lr _ _ _ k x y Hrefs).
      * apply list_elem_of_lookup_2 in Hx. apply Hrd in Hx.
        destruct Hℓ; subst; intuition congruence.
  - intros σ s r (refs & Hs & Hrefs & Hd & Ht) Hlt Hlq Hlm.
    apply Forall_cons in Hd as Hd'. destruct Hd' as [Hsd Hrd].
    pose proof (Forall2_length _ _ _ Hrefs) as Hlen.
    unfold Heap.query, Heap.OpenMPStatic_query, query, OpenMPStatic_query.
    rewrite M_bind_eq, (load_refs_eq _ _ _ Hs), M_bind_eq. unfold Heap.lift.
    destruct (decide (valid_index (length refs) r)) as [Hv|Hv].
    2:{ rewrite (py_get_invalid refs) by done.
        rewrite (py_get_invalid (schedule s)) by (by rewrite <- Hlen).
        by split. }
    destruct (py_get_valid refs r Hv) as (ℓ & Hℓ & ->).
    destruct (py_get_valid (schedule s) r) as (l & Hl & ->);
      [by rewrite <- Hlen|].
    rewrite <- Hlen in Hl.
    pose proof (Forall2_lookup_lr _ _ _ _ _ _ Hrefs Hℓ Hl) as Hℓl.
    simpl in Hℓl. rewrite bind_Ok.
    rewrite M_bind_eq, (load_ints_eq _ _ _ Hℓl).
    destruct l as [|x l].
    { rewrite M_ret_eq. split; [done|]. exists (Some ℓ).
      split; [done|]. split; [by exists refs|done]. }
    rewrite M_bind_eq, alloc_eq, M_bind_eq.
    assert (Heap.schedule self < length σ)%nat as Hls
      by (by eapply lookup_lt_Some).
    rewrite (load_refs_eq _ _ refs) by (by rewrite lookup_alloc_old).
    rewrite M_bind_eq. unfold Heap.lift.
    rewrite (py_set_valid refs) by done.
    rewrite (py_set_valid (schedule s)) by (by rewrite <- Hlen).
    rewrite <- Hlen. rewrite bind_Ok.
    rewrite M_bind_eq, update_eq, M_ret_eq. cbn [fst snd].
    set (k := position (length refs) r) in *.
    assert (forall ℓ', (ℓ' < length σ)%nat -> ℓ' <> Heap.schedule self ->
              <[Heap.schedule self := Heap.Refs (<[k := length σ]> refs)]>
                (σ ++ [Heap.Ints []]) !! ℓ' = σ !! ℓ') as Hold.
    { intros ℓ' Hlt' Hne. rewrite list_lookup_insert_ne by done.
      by apply lookup_alloc_old. }
    split.
    + intros ℓ' Hℓ'. apply Hold; destruct Hℓ' as [->|[->| ->]];
        try done; intuition congruence.
    + exists (Some ℓ). split; [done|]. split.
      * exists (<[k := length σ]> refs). cbn [schedule Heap.schedule].
        split; [|split; [|split; [|done]]].
        -- eapply lookup_update_eq. by rewrite lookup_alloc_old.
        -- apply Forall2_same_length_lookup.
           split; [by rewrite !length_insert|].
           intros j a b Ha Hb.
           apply list_lookup_insert_Some in Ha as [(<- & <- & _)|[Hne Ha]].
           ++ rewrite list_lookup_insert_eq in Hb by (by eapply lookup_lt_Some).
              simplify_eq. rewrite list_lookup_insert_ne by lia.
              apply lookup_alloc_new.
           ++ rewrite list_lookup_insert_ne in Hb by done.
              pose proof (Forall2_lookup_lr _ _ _ _ _ _ Hrefs Ha Hb) as Hab.
              simpl in Hab. rewrite Hold; [done| |congruence].
              by eapply lookup_lt_Some.
        -- constructor; [done|]. apply Forall_insert; [done|]. lia.
      * simpl. rewrite Hold; [done| |congruence]. by eapply lookup_lt_Some.
Qed.

(** *** The constructor *)

Lemma schedule_append_agree sloc (σ : list Heap.obj) sch r t sch' :
  schedule_rep sloc σ sch ->
  schedule_append sch r t = Ok sch' ->
  exists σ',
    Heap.schedule_append sloc r t σ = (Ok (), σ') /\
    schedule_rep sloc σ' sch'.
Proof.
  intros (refs & Hs & Hrefs & Hnd) Happ.
  pose proof (Forall2_length _ _ _ Hrefs) as Hlen.
  unfold schedule_append in Happ. unfold Heap.schedule_append.
  destruct (py_get sch r) as [l|] eqn:Hget; [|done].
  rewrite bind_Ok in Happ.
  apply py_get_Ok in Hget as [Hv Hl]. apply py_set_Ok in Happ as [_ ->].
  rewrite <- Hlen in Hv, Hl |- *.
  set (k := position (length refs) r) in *.
  destruct (py_get_valid refs r Hv) as (ℓ & Hℓ & Hgetr). fold k in Hℓ.
  pose proof (Forall2_lookup_lr _ _ _ _ _ _ Hrefs Hℓ Hl) as Hℓl.
  simpl in Hℓl.
  rewrite M_bind_eq, (load_refs_eq _ _ _ Hs), M_bind_eq. unfold Heap.lift.
  rewrite Hgetr, M_bind_eq, (load_ints_eq _ _ _ Hℓl), update_eq.
  eexists. split; [done|]. exists refs.
  assert (ℓ <> sloc) as Hne by congruence.
  split; [by rewrite list_lookup_insert_ne|]. split; [|done].
  apply Forall2_same_length_lookup. split; [by rewrite length_insert|].
  intros j a b Ha Hb.
  destruct (decide (j = k)) as [->|Hjk].
  - rewrite list_lookup_insert_eq in Hb by (by eapply lookup_lt_Some).
    simplify_eq. by eapply lookup_update_eq.
  - rewrite list_lookup_insert_ne in Hb by done.
    rewrite list_lookup_insert_ne.
    + by eapply (Forall2_lookup_lr _ _ _ j a b Hrefs).
    + intros ->. apply Hjk. symmetry. by eapply NoDup_lookup.
Qed.

(** A loop of the store version follows the loop of the state-passing
    version as long as that one goes through. *)
Lemma for_in_agree {A Sp Ss} (Rel : list Heap.obj -> Sp -> Ss -> Prop)
    (l : list A) (bp : A -> Sp -> res Sp) (bs : A -> Ss -> Heap.M Ss) :
  (forall x σ sp ss sp', Rel σ sp ss -> bp x sp = Ok sp' ->
     exists ss' σ', bs x ss σ = (Ok ss', σ') /\ Rel σ' sp' ss') ->
  forall σ sp ss sp', Rel σ sp ss -> for_in l bp sp = Ok sp' ->
    exists ss' σ', Heap.for_in l bs ss σ = (Ok ss', σ') /\ Rel σ' sp' ss'.
Proof.
  intros Hbody. induction l as [|x l IH]; intros σ sp ss sp' Hrel Hfor.
  - simpl in Hfor. simplify_eq. by exists ss, σ.
  - cbn [for_in] in Hfor. destruct (bp x sp) as [sp1|] eqn:Hbp; [|done].
    rewrite bind_Ok in Hfor.
    destruct (Hbody x σ sp ss sp1 Hrel Hbp) as (ss1 & σ1 & Hbs & Hrel1).
    destruct (IH σ1 sp1 ss1 sp' Hrel1 Hfor) as (ss' & σ' & Hfs & Hrel').
    exists ss', σ'. split; [|done].
    cbn [Heap.for_in]. by rewrite M_bind_eq, Hbs.
Qed.

Lemma comprehension_alloc {A} (l : list A) (σ : list Heap.obj) :
  Heap.comprehension (fun _ => Heap.alloc (Heap.Ints [])) l σ
  = (Ok (seq (length σ) (length l)),
     σ ++ replicate (length l) (Heap.Ints [])).
Proof.
  revert σ. induction l as [|x l IH]; intros σ.
  - simpl. by rewrite app_nil_r.
  - cbn [Heap.comprehension]. rewrite M_bind_eq, alloc_eq, M_bind_eq, IH.
    rewrite M_ret_eq. f_equal.
    + rewrite length_app. simpl.
      by replace (length σ + 1)%nat with (Datatypes.S (length σ)) by lia.
    + by rewrite <- app_assoc.
Qed.

Lemma schedule_rep_initial (σ : list Heap.obj) (R : Z) :
  schedule_rep (length σ + Z.to_nat R)
    ((σ ++ replicate (Z.to_nat R) (Heap.Ints []))
       ++ [Heap.Refs (seq (length σ) (Z.to_nat R))])
    ((fun _ => []) <$> range R).
Proof.
  exists (seq (length σ) (Z.to_nat R)). split; [|split].
  - rewrite lookup_app_r by (rewrite length_app, length_replicate; lia).
    rewrite length_app, length_replicate.
    by replace (length σ + Z.to_nat R - (length σ + Z.to_nat R))%nat
      with 0%nat by lia.
  - apply Forall2_same_length_lookup. split.
    { by rewrite length_seq, length_fmap, range_length. }
    intros j a b Ha Hb. apply lookup_seq in Ha as [-> Hj].
    apply fmap_range_lookup_Some in Hb as [-> _].
    rewrite lookup_app_l by (rewrite length_app, length_replicate; lia).
    rewrite lookup_app_r by lia.
    rewrite lookup_replicate_2; [done|lia].
  - apply NoDup_seq.
Qed.

Section StaticInit.
Variables (sloc : Heap.loc).

Lemma group_loop_agree resource (xs : list Z) (σ : list Heap.obj)
    task sch task' sch' :
  schedule_rep sloc σ sch ->
  for_in xs
    (fun _ '(task, schedule) =>
       schedule ← schedule_append schedule resource task;
       Ok (task + 1, schedule))
    (task, sch) = Ok (task', sch') ->
  exists σ',
    Heap.for_in xs
      (fun _ task =>
         Heap.schedule_append sloc resource task;; mret (task + 1))
      task σ = (Ok task', σ') /\
    schedule_rep sloc σ' sch'.
Proof.
  intros Hrep Hfor.
  apply (for_in_agree
           (fun σ (sp : Z * list (list Z)) (ss : Z) =>
              sp.1 = ss /\ schedule_rep sloc σ sp.2)
           xs _
           (fun _ task =>
              Heap.schedule_append sloc resource task;; mret (task + 1)))
    with (σ := σ) (ss := task) in Hfor
    as (ss' & σ' & Heq & <- & Hrep'); [by exists σ'| |done].
  clear. intros _ σ [task sch] ss [task' sch'] [<- Hrep] Hbody.
  simpl in *.
  destruct (schedule_append sch resource task) as [sch1|] eqn:Happ;
    [|done].
  rewrite bind_Ok in Hbody. simplify_eq.
  destruct (schedule_append_agree _ _ _ _ _ _ Hrep Happ)
    as (σ' & Heq & Hrep').
  exists (task + 1), σ'. split; [|done].
  by rewrite M_bind_eq, Heq.
Qed.

Lemma compact_loop_agree ps (xs : list Z) (σ : list Heap.obj)
    task left sch task' left' sch' :
  schedule_rep sloc σ sch ->
  for_in xs (compact_body ps) (task, left, sch) = Ok (task', left', sch') ->
  exists σ',
    Heap.for_in xs (Heap.compact_body sloc ps) (task, left) σ
    = (Ok (task', left'), σ') /\
    schedule_rep sloc σ' sch'.
Proof.
  intros Hrep Hfor.
  apply (for_in_agree
           (fun σ (sp : Z * Z * list (list Z)) (ss : Z * Z) =>
              sp.1 = ss /\ schedule_rep sloc σ sp.2)
           xs _ (Heap.compact_body sloc ps))
    with (σ := σ) (ss := (task, left)) in Hfor
    as (ss' & σ' & Heq & <- & Hrep'); [by exists σ'| |done].
  clear. intros resource σ [[task left] sch] ss [[task' left'] sch']
    [<- Hrep] Hbody. simpl in Hrep |- *.
  unfold compact_body in Hbody. unfold Heap.compact_body.
  destruct (if decide (left > 0) then _ else _) as [g l0].
  destruct (for_in (range g) _ (task, sch)) as [[task1 sch1]|] eqn:Hinner;
    [|done].
  rewrite bind_Ok in Hbody. simplify_eq.
  destruct (group_loop_agree _ _ _ _ _ _ _ Hrep Hinner)
    as (σ' & Heq & Hrep').
  exists (task', left'), σ'. split; [|done].
  by rewrite M_bind_eq, Heq.
Qed.

Lemma round_robin_loop_agree R c (xs : list Z) (σ : list Heap.obj)
    resource counter sch resource' counter' sch' :
  schedule_rep sloc σ sch ->
  for_in xs (round_robin_body R c) (resource, counter, sch)
    = Ok (resource', counter', sch') ->
  exists σ',
    Heap.for_in xs (Heap.round_robin_body sloc R c) (resource, counter) σ
    = (Ok (resource', counter'), σ') /\
    schedule_rep sloc σ' sch'.
Proof.
  intros Hrep Hfor.
  apply (for_in_agree
           (fun σ (sp : Z * Z * list (list Z)) (ss : Z * Z) =>
              sp.1 = ss /\ schedule_rep sloc σ sp.2)
           xs _ (Heap.round_robin_body sloc R c))
    with (σ := σ) (ss := (resource, counter)) in Hfor
    as (ss' & σ' & Heq & <- & Hrep'); [by exists σ'| |done].
  clear. intros task σ [[resource counter] sch] ss
    [[resource' counter'] sch'] [<- Hrep] Hbody. simpl in Hrep |- *.
  unfold round_robin_body in Hbody. unfold Heap.round_robin_body.
  destruct (schedule_append sch resource task) as [sch1|] eqn:Happ;
    [|done].
  rewrite bind_Ok in Hbody.
  destruct (schedule_append_agree _ _ _ _ _ _ Hrep Happ)
    as (σ' & Heq & Hrep').
  rewrite M_bind_eq, Heq.
  case_decide.
  - destruct (py_mod (resource + 1) R) as [r1|] eqn:Hmod; [|done].
    rewrite bind_Ok in Hbody. simplify_eq.
    eexists (_, _), σ'. split; [|done].
    by rewrite M_bind_eq.
  - simplify_eq. by eexists (_, _), σ'.
Qed.

End StaticInit.

Lemma static_init_agree (loads : list Z) (tref : Heap.loc) (R c : Z)
    (σ : list Heap.obj) (s : OpenMPStatic) :
  σ !! tref = Some (Heap.Ints loads) ->
  OpenMPStatic_init loads R c = Ok s ->
  exists self σ',
    Heap.OpenMPStatic_init tref R c σ = (Ok self, σ') /\
    schedule_rep (Heap.schedule self) σ' (schedule s).
Proof.
  intros Ht Hinit. unfold OpenMPStatic_init in Hinit.
  unfold Heap.OpenMPStatic_init.
  rewrite M_bind_eq, comprehension_alloc, range_length.
  rewrite M_bind_eq, alloc_eq, length_app, length_replicate.
  pose proof (schedule_rep_initial σ R) as Hrep.
  set (σ2 := (σ ++ replicate (Z.to_nat R) (Heap.Ints []))
               ++ [Heap.Refs (seq (length σ) (Z.to_nat R))]) in *.
  assert (σ2 !! tref = Some (Heap.Ints loads)) as Ht2.
  { unfold σ2. apply lookup_lt_Some in Ht as Hlt.
    rewrite !lookup_app_l; [done|lia|].
    rewrite length_app. lia. }
  rewrite M_bind_eq, (len_eq _ _ _ Ht2), M_bind_eq.
  case_decide as Hc.
  - destruct (py_floordiv (Z.of_nat (length loads)) R) as [ps|] eqn:Hdiv;
      [|done].
    destruct (py_mod (Z.of_nat (length loads)) R) as [left|] eqn:Hmod;
      [|done].
    rewrite !bind_Ok in Hinit.
    destruct (for_in (range R) (compact_body ps) _) as [[[t l] sch]|] eqn:Hfor;
      [|done].
    rewrite !bind_Ok in Hinit. simplify_eq.
    destruct (compact_loop_agree _ _ _ _ _ _ _ _ _ _ Hrep Hfor)
      as (σ' & Heq & Hrep').
    eexists (Heap.mkStatic R 0 (length σ + Z.to_nat R)%nat), σ'.
    split; [|exact Hrep'].
    unfold Heap.lift. rewrite !M_bind_eq, Heq. done.
  - destruct (for_in (range (Z.of_nat (length loads)))
                (round_robin_body R c) _) as [[[r k] sch]|] eqn:Hfor; [|done].
    rewrite !bind_Ok in Hinit. simplify_eq.
    destruct (round_robin_loop_agree _ _ _ _ _ _ _ _ _ _ _ Hrep Hfor)
      as (σ' & Heq & Hrep').
    eexists (Heap.mkStatic R c (length σ + Z.to_nat R)%nat), σ'.
    split; [|exact Hrep'].
    rewrite !M_bind_eq, Heq. done.
Qed.

(** ** The two versions of the whole run *)

Lemma static_run_agree (loads : list Z) (tref : Heap.loc) (R c : Z)
    (σ : list Heap.obj) (s : OpenMPStatic) :
  σ !! tref = Some (Heap.Ints loads) ->
  OpenMPStatic_init loads R c = Ok s ->
  same_outcome (simulate loads R s)
    ((self ← Heap.OpenMPStatic_init tref R c; Heap.simulate tref self R) σ).1
    ((self ← Heap.OpenMPStatic_init tref R c; Heap.simulate tref self R) σ).2.
Proof.
  intros Ht Hinit.
  destruct (static_init_agree loads tref R c σ s Ht Hinit)
    as (self & σ' & Heq & Hrep).
  destruct (keeps_static_init σ tref R c σ (grown_refl σ)) as [Hgrown _].
  rewrite Heq in Hgrown. simpl in Hgrown.
  pose proof (grown_lookup _ _ _ _ Hgrown Ht) as Ht'.
  rewrite M_bind_eq, Heq.
  apply (simulate_agree loads tref self s R σ'
           (static_rep tref (length σ') (Datatypes.S (length σ')) self));
    [apply static_represents | done |].
  destruct Hrep as (refs & Hs & Hrefs & _). exists refs.
  split; [done|]. split; [done|]. split; [|congruence].
  rewrite Forall_forall. intros ℓ [->|Hℓ]%elem_of_cons.
  - apply lookup_lt_Some in Hs. lia.
  - apply list_elem_of_lookup in Hℓ as [k Hk].
    destruct (Forall2_lookup_l _ _ _ _ _ Hrefs Hk) as (l & _ & Hl).
    apply lookup_lt_Some in Hl. lia.
Qed.

Lemma lpt_run_agree (loads : list Z) (tref : Heap.loc) (R : Z)
    (σ : list Heap.obj) :
  σ !! tref = Some (Heap.Ints loads) ->
  same_outcome (simulate loads R (LPT_init loads R))
    ((self ← Heap.LPT_init tref R; Heap.simulate tref self R) σ).1
    ((self ← Heap.LPT_init tref R; Heap.simulate tref self R) σ).2.
Proof.
  intros Ht.
  destruct (lpt_init_agree loads tref R σ Ht) as (self & σ' & Heq & Hrep).
  destruct (keeps_lpt_init σ tref R σ (grown_refl σ)) as [Hgrown _].
  rewrite Heq in Hgrown. simpl in Hgrown.
  pose proof (grown_lookup _ _ _ _ Hgrown Ht) as Ht'.
  rewrite M_bind_eq, Heq.
  by apply (simulate_agree loads tref self _ R σ'
              (lpt_rep tref (length σ') (Datatypes.S (length σ')) self));
    [apply lpt_represents | |].
Qed.

(** The caller's objects after the whole run. *)
Lemma static_run_keeps (tref : Heap.loc) (R c : Z) (σ : list Heap.obj) :
  grown σ
    ((self ← Heap.OpenMPStatic_init tref R c; Heap.simulate tref self R) σ).2.
Proof.
  eapply (keeps_bind σ _ _ _ (fun _ => True)); [apply keeps_static_init| |].
  - intros self Hself. apply keeps_simulate.
    intros r. by apply keeps_static_query.
  - apply grown_refl.
Qed.

Lemma lpt_run_keeps (tref : Heap.loc) (R : Z) (σ : list Heap.obj) :
  grown σ
    ((self ← Heap.LPT_init tref R; Heap.simulate tref self R) σ).2.
Proof.
  eapply (keeps_bind σ _ _ _ (fun _ => True)); [apply keeps_lpt_init| |].
  - intros self Hself. apply keeps_simulate.
    intros r. by apply keeps_lpt_query.
  - apply grown_refl.
Qed.

(** C10: running [simulate] with an OpenMPStatic or an LPT policy leaves the
    list of task loads unchanged.  In the model with a store of mutable
    lists, where [tref] is the caller's list of loads: after the constructor
    and [simulate] have run, whatever the outcome (a tuple, the failure tuple
    or an exception), the object at [tref] is the list of loads it was, element
    for element, and so is every other object the caller had; and the run
    ends as the state-passing [simulate] does on the same loads. *)
Theorem tasks_unchanged (loads : list Z) (tref : Heap.loc) (R c : Z)
    (σ0 : list Heap.obj) :
  σ0 !! tref = Some (Heap.Ints loads) ->
  let static :=
    (self ← Heap.OpenMPStatic_init tref R c; Heap.simulate tref self R) σ0 in
  let lpt :=
    (self ← Heap.LPT_init tref R; Heap.simulate tref self R) σ0 in
  (static.2 !! tref = Some (Heap.Ints loads) /\
   take (length σ0) static.2 = σ0) /\
  (lpt.2 !! tref = Some (Heap.Ints loads) /\
   take (length σ0) lpt.2 = σ0) /\
  (forall s, OpenMPStatic_init loads R c = Ok s ->
     same_outcome (simulate loads R s) static.1 static.2) /\
  same_outcome (simulate loads R (LPT_init loads R)) lpt.1 lpt.2.
Proof.
  intros Ht static lpt.
  pose proof (static_run_keeps tref R c σ0) as Hstatic.
  pose proof (lpt_run_keeps tref R σ0) as Hlpt.
  fold static in Hstatic. fold lpt in Hlpt.
  split; [|split; [|split]].
  - split; [by eapply grown_lookup|]. by destruct Hstatic as (_ & ? & _).
  - split; [by eapply grown_lookup|]. by destruct Hlpt as (_ & ? & _).
  - intros s Hs. by apply static_run_agree.
  - by apply lpt_run_agree.
Qed.

Lemma tasks_unchanged_witness :
  let σ0 := [Heap.Ints [3; 4]] in
  let static :=
    (self ← Heap.OpenMPStatic_init 0%nat 2 0; Heap.simulate 0%nat self 2) σ0 in
  let lpt :=
    (self ← Heap.LPT_init 0%nat 2; Heap.simulate 0%nat self 2) σ0 in
  σ0 !! 0%nat = Some (Heap.Ints [3; 4]) /\
  (static.2 !! 0%nat = Some (Heap.Ints [3; 4]) /\
   take (length σ0) static.2 = σ0) /\
  (lpt.2 !! 0%nat = Some (Heap.Ints [3; 4]) /\
   take (length σ0) lpt.2 = σ0) /\
  (forall s, OpenMPStatic_init [3; 4] 2 0 = Ok s ->
     same_outcome (simulate [3; 4] 2 s) static.1 static.2) /\
  same_outcome (simulate [3; 4] 2 (LPT_init [3; 4] 2)) lpt.1 lpt.2.
Proof.
  split; [reflexivity|].
  apply (tasks_unchanged [3; 4] 0%nat 2 0 [Heap.Ints [3; 4]]). reflexivity.
Defined.

(** The same run, evaluated: the store after the LPT run on loads 3 and 4
    holds the loads at 0 and the mapping that is returned. *)
Example lpt_run_example :
  exists ℓ σ,
    (self ← Heap.LPT_init 0%nat 2; Heap.simulate 0%nat self 2)
      [Heap.Ints [3; 4]] = (Ok (Some (ℓ, 4, 2, 1)), σ) /\
    σ !! 0%nat = Some (Heap.Ints [3; 4]) /\
    σ !! ℓ = Some (Heap.Ints [1; 0]).
Proof. eexists _, _. split; [vm_compute; reflexivity|]. by split. Qed.

(** * The engine's counters *)

Section CountFacts.
Context {S : Type} `{!Scheduler S}.
Variables (tasks : list Z) (R : Z).

Lemma inv_count_initial (s : S) : inv_count tasks R (initial tasks R s).
Proof.
  split; simpl.
  - rewrite length_fmap, range_length. unfold answered. simpl. lia.
  - rewrite free_replicate. unfold answered. simpl. lia.
Qed.

Lemma inv_count_step (st st' : state S) :
  inv tasks R st -> inv_count tasks R st -> step tasks st = Next st' ->
  inv_count tasks R st'.
Proof.
  intros Hinv [Hqueue Hfree] Hstep.
  destruct (step_Next _ _ _ Hstep)
    as (t & r & q & s' & v & Hq & _ & [(_ & ->)|(m' & extra & Hne & Ha & ->)]).
  - split; cbn [resources output mapping].
    + rewrite Hq in Hqueue. simpl in Hqueue.
      rewrite length_app, answered_snoc. simpl. lia.
    + rewrite answered_snoc. simpl. lia.
  - destruct (inv_queue _ _ _ Hinv t r) as (Hr & _ & _).
    { rewrite Hq. by left. }
    pose proof (assign_free_count tasks r _ _ _ _ _
                  (inv_len _ _ _ Hinv) ltac:(lia) Ha) as Hcount.
    assert (1 <= length (as_tasks v))%nat.
    { destruct (as_tasks v); [done|simpl; lia]. }
    split; cbn [resources output mapping].
    + rewrite Hq in Hqueue. simpl in Hqueue.
      rewrite heappush_length, length_app, answered_snoc. simpl. lia.
    + rewrite answered_snoc. simpl. lia.
Qed.

Lemma run_inv_count k (st st' : state S) :
  inv tasks R st -> inv_count tasks R st -> run k tasks st = Some st' ->
  inv_count tasks R st'.
Proof.
  revert st. induction k as [|k IH]; intros st Hinv Hc Hrun; simpl in Hrun.
  - by simplify_eq.
  - destruct (step tasks st) as [st1|] eqn:Hstep; [|done].
    apply (IH st1); [by eapply inv_step|by apply (inv_count_step st)|done].
Qed.

Lemma inv_holder_initial (s : S) : inv_holder tasks (initial tasks R s).
Proof.
  intros k r Hr. simpl. split.
  - intros [? _]%lookup_replicate. congruence.
  - intros (t & ts & Hin & _). by apply elem_of_nil in Hin.
Qed.

Lemma inv_holder_step (st st' : state S) :
  inv tasks R st -> inv_holder tasks st -> step tasks st = Next st' ->
  inv_holder tasks st'.
Proof.
  intros Hinv Hold Hstep k r0 Hr0.
  destruct (step_Next _ _ _ Hstep)
    as (t & r & q & s' & v & Hq & _ & [(_ & ->)|(m' & extra & Hne & Ha & ->)]);
    cbn [mapping output].
  - rewrite (Hold k r0 Hr0). split.
    + intros (t0 & ts & Hin & Hk). exists t0, ts. split; [|done].
      apply elem_of_app. by left.
    + intros (t0 & ts & [Hin|Hin%list_elem_of_singleton]%elem_of_app & Hk);
        [by exists t0, ts|done].
  - destruct (inv_queue _ _ _ Hinv t r) as (Hr & _ & _).
    { rewrite Hq. by left. }
    rewrite (assign_lookup tasks r _ _ _ _ _ k (inv_len _ _ _ Hinv) Ha).
    case_decide as Hk.
    + split.
      * intros [= <-]. exists t, (as_tasks v). split; [|done].
        apply elem_of_app. right. by left.
      * intros (t0 & ts & [Hin|Hin%list_elem_of_singleton]%elem_of_app & Hk');
          [|by simplify_eq].
        assert (mapping st !! k = Some r0) as Hold0.
        { apply (Hold k r0 Hr0). by exists t0, ts. }
        apply list_elem_of_fmap in Hk as (i & -> & Hi).
        rewrite (assign_free tasks r _ _ _ _ _ i (inv_len _ _ _ Hinv)
                   ltac:(lia) Ha Hi) in Hold0.
        congruence.
    + rewrite (Hold k r0 Hr0). split.
      * intros (t0 & ts & Hin & Hk'). exists t0, ts. split; [|done].
        apply elem_of_app. by left.
      * intros (t0 & ts & [Hin|Hin%list_elem_of_singleton]%elem_of_app & Hk');
          [by exists t0, ts|]. by simplify_eq.
Qed.

Lemma run_inv_holder k (st st' : state S) :
  inv tasks R st -> inv_holder tasks st -> run k tasks st = Some st' ->
  inv_holder tasks st'.
Proof.
  revert st. induction k as [|k IH]; intros st Hinv Hc Hrun; simpl in Hrun.
  - by simplify_eq.
  - destruct (step tasks st) as [st1|] eqn:Hstep; [|done].
    apply (IH st1); [by eapply inv_step|by apply (inv_holder_step st)|done].
Qed.

End CountFacts.

(** X1. Whatever the policy, the queries of a simulation that returned
    (each one is shown in the debug output) are at most
    [len(tasks) + num_resources], and [simulate] returns or raises; on a
    normal return the number of answered queries is at most [len(tasks)],
    and the queries made are the answered ones and one more for each
    resource, the one that retired it. *)
Theorem queries_bounded {S : Type} `{!Scheduler S}
    (tasks : list Z) (R : Z) (s : S) :
  (length (simulate_debug tasks R s).2 <= length tasks + Z.to_nat R)%nat /\
  simulate tasks R s <> OutOfFuel /\
  forall m t q c,
    simulate tasks R s = Returned (m, t, q, c) -> (m, t, q, c) <> failure ->
    0 <= q <= Z.of_nat (length tasks) /\
    Z.of_nat (length (simulate_debug tasks R s).2) = q + R.
Proof.
  destruct (simulate_debug_halts tasks R s)
    as (k & st & o & out & Hrun & Hinv & Hhalt & Heq).
  pose proof (run_inv_count tasks R k _ _ (inv_initial tasks R s)
                (inv_count_initial tasks R s) Hrun) as [Hqueue Hfree].
  pose proof (answered_nonneg (output st)) as Hge.
  split; [|split].
  - rewrite Heq. simpl.
    apply step_Halt in Hhalt
      as [(_ & _ & ->)|(t & r & q & Hq & [(e & _ & _ & ->)|Hgot])]; [lia..|].
    destruct Hgot as (s' & v & _ & _ & -> & _).
    rewrite Hq in Hqueue. simpl in Hqueue. rewrite length_app. simpl. lia.
  - unfold simulate. rewrite Heq. simpl.
    apply step_Halt in Hhalt
      as [(_ & -> & _)|(t & r & q & Hq & [(e & _ & -> & _)|Hgot])];
      [apply finish_not_OutOfFuel|done|].
    by destruct Hgot as (s' & v & _ & _ & _ & [[_ ->]|(e & _ & ->)]).
  - intros m t q c Hsim Hnf. unfold simulate in Hsim.
    destruct (simulate_debug tasks R s) as [o' log] eqn:Hdebug.
    simpl in Hsim. subst o'. simpl.
    destruct (simulate_debug_returned _ _ _ _ _ _ _ _ Hdebug Hnf)
      as (k' & st' & Hrun' & Hinv' & Hq' & Hout & _ & -> & r & Hr & _).
    pose proof (run_inv_count tasks R k' _ _ (inv_initial tasks R s)
                  (inv_count_initial tasks R s) Hrun') as [Hqueue' Hfree'].
    rewrite Hq', Hout in Hqueue'. rewrite Hout in Hfree'. simpl in Hqueue'.
    pose proof (answered_nonneg log). lia.
Qed.

(** X2. With no resource ([num_resources <= 0]) the loop body never runs:
    no query is made, and [simulate] raises [UnboundLocalError] at the
    closing [print], where [time] has not been bound; this for every policy
    and every list of loads. *)
Theorem no_resources_unbound {S : Type} `{!Scheduler S}
    (tasks : list Z) (R : Z) (s : S) :
  R <= 0 ->
  simulate_debug tasks R s = (Raises UnboundLocalError, []).
Proof.
  intros HR. unfold simulate_debug, initial, range.
  rewrite seqZ_nil by lia.
  destruct (contig_changes_Ok tasks (replicate (length tasks) (-1)))
    as [c Hc]; [by rewrite length_replicate|].
  assert (forall fuel,
            loop fuel tasks
              (mkState [] (replicate (length tasks) (-1)) 0 None s [])
            = (Raises UnboundLocalError, [])) as Hloop.
  { intros fuel. destruct fuel; simpl; unfold step, finish; simpl;
      by rewrite Hc. }
  apply Hloop.
Qed.

Lemma no_resources_unbound_witness :
  simulate_debug [3; 4] 0 (LPT_init [3; 4] 0)
  = (Raises UnboundLocalError, []).
Proof. apply (no_resources_unbound [3; 4] 0 (LPT_init [3; 4] 0)). lia. Defined.

(** X3. On a normal return the mapping has one entry for each task, and an
    entry is either [-1] or the id of one of the resources; it is resource
    [r] exactly when an answered query of [r] brought that task (a
    negative index counting from the end of the list, as Python reads
    it). *)
Theorem mapping_shape {S : Type} `{!Scheduler S}
    (tasks : list Z) (R : Z) (s : S) (m : list Z) (t q c : Z)
    (log : list event) :
  simulate_debug tasks R s = (Returned (m, t, q, c), log) ->
  (m, t, q, c) <> failure ->
  length m = length tasks /\
  (forall k r, m !! k = Some r -> r = -1 \/ 0 <= r < R) /\
  (forall k r, r <> -1 ->
     m !! k = Some r <->
     exists t' new_tasks, Got t' r new_tasks ∈ log /\
                          k ∈ position (length tasks) <$> new_tasks).
Proof.
  intros Hsim Hnf.
  destruct (simulate_debug_returned _ _ _ _ _ _ _ _ Hsim Hnf)
    as (k & st & Hrun & Hinv & _ & <- & <- & _).
  split; [apply Hinv|]. split; [apply Hinv|].
  apply (run_inv_holder tasks R k _ _ (inv_initial tasks R s)
           (inv_holder_initial tasks R s) Hrun).
Qed.

Lemma mapping_shape_witness :
  length [1; 0] = length [3; 4] /\
  (forall k r, [1; 0] !! k = Some r -> r = -1 \/ 0 <= r < 2) /\
  (forall k r, r <> -1 ->
     [1; 0] !! k = Some r <->
     exists t' new_tasks,
       Got t' r new_tasks ∈ [Got 0 0 [1]; Got 0 1 [0]; Done 3 1; Done 4 0] /\
       k ∈ position (length [3; 4]) <$> new_tasks).
Proof.
  apply (mapping_shape [3; 4] 2 (LPT_init [3; 4] 2) [1; 0] 4 2 1).
  - reflexivity.
  - discriminate.
Defined.

(** * A task index that is out of range *)



(** * Resource changes between contiguous tasks *)

Lemma changes_snoc (l : list Z) a b :
  changes (l ++ [a; b]) = changes (l ++ [a]) + (if decide (a <> b) then 1 else 0).
Proof.
  induction l as [|x l IH]; simpl; [lia|].
  destruct l as [|y l]; simpl in *; [lia|]. rewrite IH. lia.
Qed.

Lemma changes_replicate n (x : Z) : changes (replicate n x) = 0.
Proof.
  induction n as [|n IH]; [done|]. destruct n as [|n]; [done|].
  simpl in *. rewrite IH. case_decide; [done|lia].
Qed.

Lemma contig_changes_prefix (tasks m : list Z) (k : nat) :
  (k < length m)%nat ->
  for_in (range (Z.of_nat k))
    (fun i contig =>
       a ← py_get m i;
       b ← py_get m (i + 1);
       Ok (if decide (a <> b) then contig + 1 else contig))
    0
  = Ok (changes (take (Datatypes.S k) m)).
Proof.
  induction k as [|k IH]; intros Hk.
  - destruct m; [simpl in Hk; lia|done].
  - replace (Z.of_nat (Datatypes.S k)) with (Z.of_nat k + 1) by lia.
    rewrite range_snoc, for_in_snoc, IH by lia. rewrite bind_Ok.
    destruct (lookup_lt_is_Some_2 m k ltac:(lia)) as [a Ha].
    destruct (lookup_lt_is_Some_2 m (Datatypes.S k) ltac:(lia)) as [b Hb].
    rewrite (py_get_lookup m (Z.of_nat k) a);
      [|unfold valid_index; lia|by rewrite position_nonneg, Nat2Z.id by lia].
    rewrite bind_Ok.
    rewrite (py_get_lookup m (Z.of_nat k + 1) b);
      [|unfold valid_index; lia|].
    2: { rewrite position_nonneg by lia.
         by replace (Z.to_nat (Z.of_nat k + 1)) with (Datatypes.S k) by lia. }
    rewrite bind_Ok.
    rewrite (take_S_r m (Datatypes.S k) b Hb), (take_S_r m k a Ha).
    rewrite <- app_assoc. simpl. rewrite changes_snoc.
    f_equal. case_decide; lia.
Qed.

Lemma contig_changes_changes (tasks m : list Z) :
  length m = length tasks -> contig_changes tasks m = Ok (changes m).
Proof.
  intros Hlen. unfold contig_changes.
  destruct tasks as [|l tasks].
  - destruct m; [done|simpl in Hlen; lia].
  - simpl length.
    replace (Z.of_nat (Datatypes.S (length tasks)) - 1)
      with (Z.of_nat (length tasks)) by lia.
    rewrite (contig_changes_prefix (l :: tasks)) by (simpl in Hlen; lia).
    f_equal. f_equal. rewrite <- (firstn_all m) at 2.
    f_equal. simpl in Hlen. lia.
Qed.

(** * Policies that answer nothing *)

Lemma simulate_silent {S : Type} `{!Scheduler S} (tasks : list Z) (R : Z)
    (s : S) :
  1 <= R ->
  (forall r, 0 <= r < R -> exists v, query s r = Ok (s, v) /\ as_tasks v = []) ->
  simulate_debug tasks R s
  = (Returned (replicate (length tasks) (-1), 0, 0, 0),
     (fun r => Done 0 r) <$> range R).
Proof.
  intros HR Hsilent. rewrite (simulate_debug_silent tasks R s Hsilent).
  f_equal. unfold finish. cbn [mapping time requests].
  rewrite contig_changes_changes by apply length_replicate.
  rewrite changes_replicate. by rewrite decide_True by done.
Qed.

(** X5. The policies without an implementation map nothing: with the base
    [Scheduler], whose [query] returns the empty list, and with
    [OpenMPDynamic] and [OpenMPGuided], whose [query] returns [None],
    [simulate] retires every resource at time 0 and returns a mapping of
    [-1] only, makespan 0, no answered query and no resource change;
    whatever the loads, the chunk size and the number of resources from 1
    up. *)
Theorem unimplemented_policies_map_nothing (tasks : list Z) (R c : Z) :
  1 <= R ->
  let nothing :=
    (Returned (replicate (length tasks) (-1), 0, 0, 0),
     (fun r => Done 0 r) <$> range R) in
  simulate_debug tasks R (mkBasic R) = nothing /\
  simulate_debug tasks R (OpenMPDynamic_init tasks R c) = nothing /\
  simulate_debug tasks R (OpenMPGuided_init tasks R c) = nothing.
Proof.
  intros HR nothing. split; [|split]; apply simulate_silent; try done.
  - intros r _. by exists (PyList []).
  - intros r _. by exists PyNone.
  - intros r _. by exists PyNone.
Qed.

Lemma unimplemented_policies_map_nothing_witness :
  let nothing :=
    (Returned ([-1; -1; -1], 0, 0, 0), [Done 0 0; Done 0 1]) in
  simulate_debug [2; 4; 6] 2 (mkBasic 2) = nothing /\
  simulate_debug [2; 4; 6] 2 (OpenMPDynamic_init [2; 4; 6] 2 1) = nothing /\
  simulate_debug [2; 4; 6] 2 (OpenMPGuided_init [2; 4; 6] 2 1) = nothing.
Proof. apply (unimplemented_policies_map_nothing [2; 4; 6] 2 1). lia. Defined.

(** * OpenMPStatic: the round-robin schedule as it is queried *)

(** X6. With at least one resource and a chunk size [c > 0], OpenMPStatic
    precomputes for resource [r] the tasks [t] of [0..N-1] whose chunk
    number [t // c] is [r] modulo the number of resources, in increasing
    order; a resource gets its whole list at its first query and the empty
    list at every later one. *)
Theorem round_robin_deal (tasks : list Z) (R c : Z) :
  1 <= R -> 0 < c ->
  let N := Z.of_nat (length tasks) in
  exists s,
    OpenMPStatic_init tasks R c = Ok s /\
    schedule s
    = (fun r => filter (fun t => (t / c) mod R = r) (seqZ 0 N)) <$> range R /\
    forall rs, Forall (fun r => 0 <= r < R) rs ->
      exists s',
        ask s rs
        = Ok (s', imap (fun j r =>
                          PyList (if decide (r ∈ take j rs) then []
                                  else default [] (schedule s !! Z.to_nat r)))
                    rs).
Proof.
  intros HR Hc N. eexists. split; [by apply static_init_round_robin|].
  cbn [schedule]. fold N. split; [done|].
  intros rs Hrs.
  pose proof (static_ask R R c (dealt N R c) rs [] Hrs) as Hask.
  assert (left_after (dealt N R c) [] <$> range R = dealt N R c <$> range R)
    as Hstart.
  { apply list_fmap_ext. intros _ r _. unfold left_after.
    by rewrite decide_False by apply not_elem_of_nil. }
  rewrite Hstart in Hask. rewrite Hask. eexists. f_equal. f_equal.
  apply imap_ext. intros j r Hj. simpl. unfold left_after. f_equal.
  case_decide; [done|].
  rewrite fmap_range_lookup; [done|].
  rewrite Forall_forall in Hrs. apply Hrs.
  by eapply list_elem_of_lookup_2.
Qed.

Lemma round_robin_deal_witness :
  exists s,
    OpenMPStatic_init [2; 4; 6; 8; 5] 2 2 = Ok s /\
    schedule s = [[0; 1; 4]; [2; 3]] /\
    forall rs, Forall (fun r => 0 <= r < 2) rs ->
      exists s',
        ask s rs
        = Ok (s', imap (fun j r =>
                          PyList (if decide (r ∈ take j rs) then []
                                  else default [] (schedule s !! Z.to_nat r)))
                    rs).
Proof. apply (round_robin_deal [2; 4; 6; 8; 5] 2 2); lia. Defined.

(** * Where a policy that hands out every task once puts the tasks *)

Section Owner.
Context {S : Type} `{!Scheduler S}.
Variables (tasks : list Z) (R : Z).
Variables (ok : S -> Prop) (pending : S -> Z -> list Z).
Hypothesis policy : handout (length tasks) R ok pending.
Variable s0 : S.
Let n := length tasks.

Lemma inv_from_initial : inv_from pending s0 (initial tasks R s0).
Proof.
  split; simpl; [done|]. intros t r ts i Hin. by apply elem_of_nil in Hin.
Qed.

Lemma inv_from_step (st st' : state S) :
  inv tasks R st -> served n ok pending st -> inv_from pending s0 st ->
  step tasks st = Next st' -> inv_from pending s0 st'.
Proof.
  intros Hinv Hserved [Hpend Hlog] Hstep.
  destruct (step_Next _ _ _ Hstep)
    as (t & r & q & s' & v & Hq & Hquery & Hcases).
  destruct (handout_step tasks R ok pending policy st t r q Hinv Hserved Hq)
    as (s1 & ts & m1 & Hquery1 & _ & _ & Hsub & _ & Hdrop & _).
  rewrite Hquery in Hquery1. simplify_eq. simpl in Hcases.
  assert (forall r' i, i ∈ pending s1 r' -> i ∈ pending s0 r') as Hpend'.
  { intros r' i Hi. apply Hpend. by apply Hdrop. }
  destruct Hcases as [(_ & ->)|(m' & extra & _ & _ & ->)];
    split; cbn [scheduler output]; try done.
  - intros t0 r0 ts0 i [Hin|Hin%list_elem_of_singleton]%elem_of_app Hi;
      [by eapply Hlog|done].
  - intros t0 r0 ts0 i [Hin|Hin%list_elem_of_singleton]%elem_of_app Hi;
      [by eapply Hlog|]. simplify_eq. apply Hpend. by apply Hsub.
Qed.

Lemma run_inv_from k (st st' : state S) :
  inv tasks R st -> served n ok pending st -> inv_from pending s0 st ->
  run k tasks st = Some st' -> inv_from pending s0 st'.
Proof.
  revert st. induction k as [|k IH]; intros st Hinv Hs Hf Hrun;
    simpl in Hrun.
  - by simplify_eq.
  - destruct (step tasks st) as [st1|] eqn:Hstep; [|done].
    apply (IH st1); [by eapply inv_step| |by apply (inv_from_step st)|done].
    by apply (served_step tasks R ok pending policy st).
Qed.

(** The run of such a policy, from its first state to the exit of the
    loop. *)
Lemma handout_final :
  1 <= R -> ok s0 ->
  (forall i, 0 <= i < Z.of_nat n -> exists r, 0 <= r < R /\ i ∈ pending s0 r) ->
  exists k st t c,
    run k tasks (initial tasks R s0) = Some st /\
    resources st = [] /\
    simulate_debug tasks R s0
    = (Returned (mapping st, t, requests st, c), output st) /\
    (mapping st, t, requests st, c) <> failure /\
    inv tasks R st /\ served n ok pending st /\
    (forall r, pending (scheduler st) r = []) /\
    forall i, 0 <= i < Z.of_nat n ->
      exists r, 0 <= r < R /\ mapping st !! Z.to_nat i = Some r /\
                i ∈ pending s0 r.
Proof.
  intros HR Hok Hcover.
  destruct (handout_total tasks R ok pending policy s0 HR Hok Hcover)
    as (m & t & q & c & log & Hsim & Hnf & Htotal & st & k & Hrun & Hq
        & <- & <- & <-).
  pose proof (inv_initial tasks R s0) as Hinv0.
  pose proof (served_initial tasks R ok pending policy s0 Hok Hcover)
    as Hserved0.
  pose proof (run_inv tasks R k _ _ Hinv0 Hrun) as Hinv.
  pose proof (run_served tasks R ok pending policy k _ _ Hinv0 Hserved0 Hrun)
    as Hserved.
  pose proof (run_inv_from k _ _ Hinv0 Hserved0 inv_from_initial Hrun)
    as [_ Hfrom].
  pose proof (run_inv_holder tasks R k _ _ Hinv0
                (inv_holder_initial tasks R s0) Hrun) as Hholder.
  exists k, st, t, c. do 6 (split; [done|]). split.
  - intros r. destruct (pending (scheduler st) r) as [|i l] eqn:Hp; [done|].
    exfalso. apply (Htotal (Z.to_nat i)).
    apply (served_free _ _ _ _ Hserved r). rewrite Hp. by left.
  - intros i Hi.
    destruct (lookup_lt_is_Some_2 (mapping st) (Z.to_nat i)) as [r Hr].
    { rewrite (inv_len _ _ _ Hinv). fold n. lia. }
    assert (r <> -1) as Hne.
    { intros ->. by apply (Htotal (Z.to_nat i)). }
    destruct (inv_owner _ _ _ Hinv _ _ Hr) as [?|Hrange]; [done|].
    exists r. split; [done|]. split; [done|].
    apply (Hholder _ _ Hne) in Hr as (t' & ts & Hin & Hk).
    apply list_elem_of_fmap in Hk as (j & Hj & Hjin).
    pose proof (Hfrom _ _ _ _ Hin Hjin) as Hpj.
    pose proof (handout_valid _ _ _ _ policy s0 r j Hok Hpj) as Hvj.
    rewrite position_nonneg in Hj by lia.
    by replace i with j by lia.
Qed.

End Owner.



(** * A scheduler object after a simulation *)

(** X8. A scheduler object is used up by a simulation: when the loop of
    [simulate] ends with an OpenMPStatic or an LPT policy, the object has
    handed out all it had, and a second [simulate] with the same object,
    loads and resources returns a mapping of [-1] only, makespan 0 and no
    answered query. *)
Theorem scheduler_is_used_up (tasks : list Z) (R c : Z) :
  1 <= R -> 0 <= c ->
  let nothing := Returned (replicate (length tasks) (-1), 0, 0, 0) in
  (exists s k st,
     OpenMPStatic_init tasks R c = Ok s /\
     run k tasks (initial tasks R s) = Some st /\ resources st = [] /\
     simulate tasks R (scheduler st) = nothing) /\
  (exists k st,
     run k tasks (initial tasks R (LPT_init tasks R)) = Some st /\
     resources st = [] /\
     simulate tasks R (scheduler st) = nothing).
Proof.
  intros HR Hc nothing. split.
  - destruct (static_init_Ok tasks R c HR Hc) as (s & Hinit & Hok & Hcover & _).
    destruct (handout_final tasks R _ _ (static_handout (length tasks) R) s
                HR Hok Hcover)
      as (k & st & t & contig & Hrun & Hq & _ & _ & _ & Hserved & Hnone & _).
    exists s, k, st. do 3 (split; [done|]).
    unfold simulate. rewrite simulate_silent; [done..|].
    intros r Hr. exists (PyList []). split; [|done].
    destruct (served_ok _ _ _ _ Hserved) as (Hlen & _).
    destruct (lookup_lt_is_Some_2 (schedule (scheduler st)) (Z.to_nat r))
      as [l Hl]; [lia|].
    pose proof (Hnone r) as Hl0. unfold static_pending in Hl0.
    rewrite Hl in Hl0. simpl in Hl0. subst l.
    by rewrite (static_query_Ok _ R r [] Hlen Hr Hl).
  - destruct (handout_final tasks R _ _ (lpt_handout (length tasks) R)
                (LPT_init tasks R) HR (lpt_init_ok tasks R))
      as (k & st & t & contig & Hrun & Hq & _ & _ & _ & Hserved & Hnone & _).
    { intros i Hi. exists 0. split; [lia|]. by apply lpt_init_cover. }
    exists k, st. do 2 (split; [done|]).
    unfold simulate. rewrite simulate_silent; [done..|].
    intros r Hr. exists (PyList []). split; [|done].
    pose proof (Hnone r) as Hl0. unfold lpt_pending in Hl0.
    unfold query, LPT_query.
    by destruct (lpt_tasks (scheduler st)) as [|[l i] ps].
Qed.

Lemma scheduler_is_used_up_witness :
  let nothing := Returned ([-1; -1], 0, 0, 0) in
  (exists s k st,
     OpenMPStatic_init [3; 4] 2 1 = Ok s /\
     run k [3; 4] (initial [3; 4] 2 s) = Some st /\ resources st = [] /\
     simulate [3; 4] 2 (scheduler st) = nothing) /\
  (exists k st,
     run k [3; 4] (initial [3; 4] 2 (LPT_init [3; 4] 2)) = Some st /\
     resources st = [] /\
     simulate [3; 4] 2 (scheduler st) = nothing).
Proof. apply (scheduler_is_used_up [3; 4] 2 1); lia. Defined.

(** * The makespan against the loads *)

Lemma total_cons l loads : total (l :: loads) = l + total loads.
Proof. done. Qed.

Lemma total_nonneg loads : Forall (fun l => 0 <= l) loads -> 0 <= total loads.
Proof.
  induction 1 as [|l loads Hl _ IH]; [done|]. rewrite total_cons. lia.
Qed.

Lemma total_elem loads l :
  Forall (fun l => 0 <= l) loads -> l ∈ loads -> l <= total loads.
Proof.
  induction 1 as [|x loads Hx Hall IH]; [by intros ?%elem_of_nil|].
  pose proof (total_nonneg loads Hall).
  rewrite total_cons. intros [->|Hin%IH]%elem_of_cons; lia.
Qed.

Lemma total_fmap_add {A} (f g : A -> Z) (xs : list A) :
  total ((fun x => f x + g x) <$> xs) = total (f <$> xs) + total (g <$> xs).
Proof.
  induction xs as [|x xs IH]; [done|].
  rewrite !fmap_cons, !total_cons. lia.
Qed.

Lemma total_fmap_zero {A} (xs : list A) : total ((fun _ => 0) <$> xs) = 0.
Proof.
  induction xs as [|x xs IH]; [done|]. by rewrite fmap_cons, total_cons, IH.
Qed.

Lemma total_fmap_le {A} (f : A -> Z) (xs : list A) t :
  (forall x, x ∈ xs -> f x <= t) ->
  total (f <$> xs) <= Z.of_nat (length xs) * t.
Proof.
  induction xs as [|x xs IH]; intros Hle; [simpl; unfold total; simpl; lia|].
  rewrite fmap_cons, total_cons. simpl length.
  pose proof (Hle x ltac:(by left)).
  assert (total (f <$> xs) <= Z.of_nat (length xs) * t).
  { apply IH. intros y Hy. apply Hle. by right. }
  lia.
Qed.

Lemma total_indicator (rs : list Z) (o l : Z) :
  NoDup rs ->
  total ((fun r => if decide (o = r) then l else 0) <$> rs)
  = if decide (o ∈ rs) then l else 0.
Proof.
  induction 1 as [|r rs Hr Hnd IH]; [done|].
  rewrite fmap_cons, total_cons, IH.
  destruct (decide (o = r)) as [->|Hne].
  - rewrite (decide_True (P := r ∈ r :: rs)) by by left.
    rewrite decide_False by done. lia.
  - destruct (decide (o ∈ rs)) as [Hin|Hout].
    + rewrite decide_True by by right. lia.
    + rewrite decide_False; [lia|].
      intros [?|?]%elem_of_cons; done.
Qed.

Lemma mapped_load_cons l tasks o m r :
  mapped_load (l :: tasks) (o :: m) r
  = (if decide (o = r) then l else 0) + mapped_load tasks m r.
Proof. done. Qed.

Lemma mapped_load_bounds tasks m r :
  Forall (fun l => 0 <= l) tasks -> 0 <= mapped_load tasks m r <= total tasks.
Proof.
  intros Hall. revert m.
  induction Hall as [|l tasks Hl Hall IH]; intros m.
  - by destruct m.
  - destruct m as [|o m].
    + change (mapped_load (l :: tasks) [] r) with 0.
      pose proof (total_nonneg _ Hall). rewrite total_cons. lia.
    + rewrite mapped_load_cons, total_cons. specialize (IH m).
      case_decide; lia.
Qed.

Lemma mapped_load_ge tasks m k l r :
  Forall (fun l => 0 <= l) tasks ->
  tasks !! k = Some l -> m !! k = Some r -> l <= mapped_load tasks m r.
Proof.
  intros Hall. revert m k.
  induction Hall as [|x tasks Hx Hall IH]; intros m k Hk Hm; [done|].
  destruct m as [|o m]; [done|]. rewrite mapped_load_cons.
  pose proof (mapped_load_bounds tasks m r Hall).
  destruct k as [|k]; simpl in *.
  - simplify_eq. rewrite decide_True by done. lia.
  - specialize (IH m k Hk Hm). case_decide; lia.
Qed.

Lemma total_mapped_load tasks m R :
  length m = length tasks ->
  (forall k r, m !! k = Some r -> 0 <= r < R) ->
  total (mapped_load tasks m <$> range R) = total tasks.
Proof.
  revert m. induction tasks as [|l tasks IH]; intros m Hlen Hm.
  - destruct m; [|done].
    rewrite (list_fmap_ext (mapped_load [] []) (fun _ => 0) (range R))
      by done.
    apply total_fmap_zero.
  - destruct m as [|o m]; [done|].
    rewrite (list_fmap_ext _
               (fun r => (if decide (o = r) then l else 0)
                         + mapped_load tasks m r) (range R)) by done.
    rewrite total_fmap_add, total_indicator by apply NoDup_seqZ.
    rewrite decide_True.
    + rewrite IH, total_cons; [done|by simplify_eq/=|].
      intros k r Hk. apply (Hm (Datatypes.S k)). done.
    + apply elem_of_range. by apply (Hm 0%nat).
Qed.

(** X9. With integer loads that are not negative, the makespan of a
    normal return lies between 0 and the sum of the loads; when no task is
    left unassigned, it is at least every single load, and the resources
    together give room for all the loads:
    [sum(tasks) <= num_resources * makespan]. *)
Theorem makespan_bounds {S : Type} `{!Scheduler S}
    (tasks : list Z) (R : Z) (s : S) (m : list Z) (t q c : Z) :
  Forall (fun l => 0 <= l) tasks ->
  simulate tasks R s = Returned (m, t, q, c) ->
  (m, t, q, c) <> failure ->
  0 <= t <= total tasks /\
  (-1 ∉ m ->
   (forall l, l ∈ tasks -> l <= t) /\ total tasks <= R * t).
Proof.
  intros Hloads Hsim Hnf. unfold simulate in Hsim.
  destruct (simulate_debug tasks R s) as [o log] eqn:Hdebug.
  simpl in Hsim. subst o.
  destruct (simulate_debug_returned _ _ _ _ _ _ _ _ Hdebug Hnf)
    as (k & st & Hrun & Hinv & Hq & Hout & Hm & _ & r0 & Hr0 & Hlast).
  assert (inv_mono st) as Hmono.
  { eapply (run_inv_mono tasks R Hloads); [| |done];
      [apply inv_initial | apply inv_mono_initial]. }
  subst log m.
  assert (forall r, 0 <= r < R -> mapped_load tasks (mapping st) r <= t)
    as Hle.
  { intros r Hr.
    destruct (drained_retired _ _ st r Hinv Hq Hr) as (d & Hd & _ & ->).
    apply (mono_last _ Hmono _ _ Hd Hlast). }
  assert (mapped_load tasks (mapping st) r0 = t) as Ht.
  { rewrite (inv_load _ _ _ Hinv r0 Hr0). apply (inv_done _ _ _ Hinv).
    apply last_Some in Hlast as [pre ->]. apply elem_of_app. right. by left. }
  split.
  - rewrite <- Ht. by apply mapped_load_bounds.
  - intros Hfull.
    assert (forall k r, mapping st !! k = Some r -> 0 <= r < R) as Hrange.
    { intros j r Hj. destruct (inv_owner _ _ _ Hinv _ _ Hj) as [->|?]; [|done].
      exfalso. apply Hfull. by eapply list_elem_of_lookup_2. }
    split.
    + intros l [j Hj]%list_elem_of_lookup.
      destruct (lookup_lt_is_Some_2 (mapping st) j) as [r Hr].
      { rewrite (inv_len _ _ _ Hinv). by eapply lookup_lt_Some. }
      pose proof (mapped_load_ge tasks _ j l r Hloads Hj Hr).
      pose proof (Hle r (Hrange _ _ Hr)). lia.
    + rewrite <- (total_mapped_load tasks (mapping st) R);
        [|apply Hinv|done].
      etrans; [apply (total_fmap_le _ _ t)|].
      * intros r Hr%elem_of_range. by apply Hle.
      * rewrite range_length. lia.
Qed.

Lemma makespan_bounds_witness :
  0 <= 4 <= total [3; 4] /\
  (-1 ∉ [1; 0] ->
   (forall l, l ∈ [3; 4] -> l <= 4) /\ total [3; 4] <= 2 * 4).
Proof.
  apply (makespan_bounds [3; 4] 2 (LPT_init [3; 4] 2) [1; 0] 4 2 1).
  - repeat constructor; lia.
  - reflexivity.
  - discriminate.
Defined.

(** * LPT as the engine drives it *)



(** A pass of the loop with LPT: the head of the priority list goes to the
    resource that asks, or the list is empty and the resource retires. *)
Lemma lpt_step (tasks : list Z) (st st' : state LPT) :
  step tasks st = Next st' ->
  exists t r q,
    resources st = (t, r) :: q /\
    ((lpt_tasks (scheduler st) = [] /\
      st' = mkState q (mapping st) (requests st) (Some t) (scheduler st)
              (output st ++ [Done t r])) \/
     (exists l i rest m',
        lpt_tasks (scheduler st) = (l, i) :: rest /\
        st' = mkState (heappush q (t + (load tasks i + 0), r)) m'
                (requests st + 1) (Some t)
                (mkLPT (lpt_num_resources (scheduler st)) rest)
                (output st ++ [Got t r [i]]))).
Proof.
  intros Hstep.
  destruct (step_Next _ _ _ Hstep)
    as (t & r & q & s' & v & Hq & Hquery & Hcases).
  exists t, r, q. split; [done|].
  unfold query, LPT_query in Hquery.
  destruct (lpt_tasks (scheduler st)) as [|[l i] rest] eqn:Hl; simplify_eq.
  - left. split; [done|].
    by destruct Hcases as [(_ & ->)|(m' & extra & Hne & _)].
  - right. destruct Hcases as [(Hnil & _)|(m' & extra & _ & Ha & ->)]; [done|].
    exists l, i, rest, m'. split; [done|]. simpl in *.
    destruct (py_get (mapping st) i) as [owner|]; [|done].
    case_decide; [done|].
    destruct (py_set (mapping st) i r) as [m1|]; [|done].
    destruct (py_get tasks i) as [x|] eqn:Hx; [|done].
    simplify_eq. apply py_get_Ok in Hx as [_ Hx].
    by rewrite (load_lookup tasks i x Hx), Z.add_0_r.
Qed.




(** ** The makespan of LPT *)

Lemma max_load_nonneg loads : 0 <= max_load loads.
Proof. induction loads as [|l loads IH]; simpl; lia. Qed.

Lemma max_load_elem loads l : l ∈ loads -> l <= max_load loads.
Proof.
  induction loads as [|x loads IH]; [by intros ?%elem_of_nil|].
  intros [->|Hin%IH]%elem_of_cons; simpl; lia.
Qed.

Lemma load_le_max tasks i : load tasks i <= max_load tasks.
Proof.
  unfold load. destruct (tasks !! _) as [l|] eqn:Hl; simpl.
  - apply max_load_elem. by eapply list_elem_of_lookup_2.
  - apply max_load_nonneg.
Qed.

Lemma total_fmap_ge {A} (f : A -> Z) (xs : list A) t :
  (forall x, x ∈ xs -> t <= f x) ->
  Z.of_nat (length xs) * t <= total (f <$> xs).
Proof.
  induction xs as [|x xs IH]; intros Hle; [unfold total; simpl; lia|].
  rewrite fmap_cons, total_cons. simpl length.
  pose proof (Hle x ltac:(by left)).
  assert (Z.of_nat (length xs) * t <= total (f <$> xs)).
  { apply IH. intros y Hy. apply Hle. by right. }
  lia.
Qed.

Lemma finish_total_snoc tasks R log e :
  0 <= ev_res e < R ->
  total (finish_time tasks (log ++ [e]) <$> range R)
  = total (finish_time tasks log <$> range R)
    + (ev_finish tasks e - finish_time tasks log (ev_res e)).
Proof.
  intros Hr.
  rewrite (list_fmap_ext _
             (fun r => finish_time tasks log r
                       + (if decide (ev_res e = r)
                          then ev_finish tasks e
                               - finish_time tasks log (ev_res e)
                          else 0)) (range R)).
  - rewrite total_fmap_add, total_indicator by apply NoDup_seqZ.
    rewrite decide_True; [done|]. by apply elem_of_range.
  - intros _ r _. rewrite finish_time_snoc. case_decide; [subst r|]; lia.
Qed.

Section Greedy.
Variables (tasks : list Z) (R : Z).
Hypothesis R_pos : 1 <= R.
Hypothesis loads_nonneg : Forall (fun l => 0 <= l) tasks.

Lemma inv_greedy_initial (s : LPT) : inv_greedy tasks R (initial tasks R s).
Proof.
  split; simpl.
  - intros _ r Hr. rewrite <- list_fmap_compose.
    apply list_elem_of_fmap. exists r. split; [done|]. by apply elem_of_range.
  - intros r Hr.
    rewrite (list_fmap_ext _ (fun _ => 0) (range R)) by done.
    rewrite total_fmap_zero. change (finish_time tasks [] r) with 0.
    pose proof (max_load_nonneg tasks). nia.
Qed.

Lemma inv_greedy_step (st st' : state LPT) :
  inv tasks R st -> inv_greedy tasks R st -> step tasks st = Next st' ->
  inv_greedy tasks R st'.
Proof.
  intros Hinv [Hactive Hbound] Hstep.
  destruct (lpt_step _ _ _ Hstep)
    as (t & r0 & q & Hq & [(Hnil & ->)|(l & i & rest & m' & Hl & ->)]).
  - destruct (inv_queue _ _ _ Hinv t r0) as (Hr0 & _ & Ht).
    { rewrite Hq. by left. }
    split; cbn [scheduler resources output].
    + by rewrite Hnil.
    + intros r Hr. rewrite finish_total_snoc by done.
      rewrite finish_time_snoc. simpl. specialize (Hbound r Hr).
      case_decide; [subst r|]; lia.
  - destruct (inv_queue _ _ _ Hinv t r0) as (Hr0 & _ & Ht).
    { rewrite Hq. by left. }
    assert (forall r, 0 <= r < R -> t <= finish_time tasks (output st) r)
      as Hmin.
    { intros r Hr.
      assert (r ∈ (resources st).*2) as Hin.
      { apply Hactive; [by rewrite Hl|done]. }
      apply list_elem_of_fmap in Hin as ([t' r'] & -> & Hin). simpl.
      destruct (inv_queue _ _ _ Hinv t' r' Hin) as (_ & _ & <-).
      rewrite Hq in Hin. apply elem_of_cons in Hin as [?|Hin];
        [simplify_eq; lia|].
      pose proof (inv_sorted _ _ _ Hinv) as Hs. rewrite Hq in Hs.
      apply StronglySorted_inv in Hs as [_ Hall].
      rewrite Forall_forall in Hall. specialize (Hall _ Hin).
      unfold tuple_le in Hall. simpl in *. lia. }
    pose proof (total_fmap_ge (finish_time tasks (output st)) (range R) t)
      as Hsum.
    rewrite range_length in Hsum.
    assert (R * t <= total (finish_time tasks (output st) <$> range R))
      as Hsum'.
    { etrans; [|apply Hsum]; [lia|].
      intros r Hr%elem_of_range. by apply Hmin. }
    pose proof (load_nonneg tasks loads_nonneg i) as Hl0.
    pose proof (load_le_max tasks i) as Hl1.
    split; cbn [scheduler resources output].
    + intros _ r Hr. apply list_elem_of_fmap.
      assert (r ∈ (resources st).*2) as Hin.
      { apply Hactive; [by rewrite Hl|done]. }
      apply list_elem_of_fmap in Hin as ([t' r'] & -> & Hin).
      rewrite Hq in Hin. apply elem_of_cons in Hin as [Heq|Hin].
      * exists (t + (load tasks i + 0), r0). split; [by inversion Heq|].
        apply elem_of_heappush. by left.
      * exists (t', r'). split; [done|]. apply elem_of_heappush. by right.
    + intros r Hr. rewrite finish_total_snoc by done.
      rewrite finish_time_snoc. cbn [ev_res ev_finish batch_load foldr].
      rewrite <- Ht. specialize (Hbound r Hr).
      case_decide; [subst r|]; nia.
Qed.

Lemma run_inv_greedy k (st st' : state LPT) :
  inv tasks R st -> inv_greedy tasks R st -> run k tasks st = Some st' ->
  inv_greedy tasks R st'.
Proof.
  revert st. induction k as [|k IH]; intros st Hinv Hg Hrun; simpl in Hrun.
  - by simplify_eq.
  - destruct (step tasks st) as [st1|] eqn:Hstep; [|done].
    apply (IH st1); [by eapply inv_step|by apply (inv_greedy_step st)|done].
Qed.

End Greedy.

(** X11. With at least one resource and integer loads that are not
    negative, the makespan of a simulation with LPT is at most the average
    load of a resource plus the largest load weighted by [(R - 1) / R]:
    [R * makespan <= sum(tasks) + (R - 1) * max(tasks)]. *)
Theorem lpt_makespan_bound (tasks : list Z) (R : Z) :
  1 <= R -> Forall (fun l => 0 <= l) tasks ->
  exists m t q c,
    simulate tasks R (LPT_init tasks R) = Returned (m, t, q, c) /\
    R * t <= total tasks + (R - 1) * max_load tasks.
Proof.
  intros HR Hloads.
  destruct (handout_final tasks R _ _ (lpt_handout (length tasks) R)
              (LPT_init tasks R) HR (lpt_init_ok tasks R))
    as (k & st & t & c & Hrun & Hq & Hsim & Hnf & Hinv & _ & _ & Hmap).
  { intros i Hi. exists 0. split; [lia|]. by apply lpt_init_cover. }
  exists (mapping st), t, (requests st), c.
  unfold simulate. rewrite Hsim. split; [done|].
  destruct (simulate_debug_returned _ _ _ _ _ _ _ _ Hsim Hnf)
    as (_ & _ & _ & _ & _ & _ & _ & _ & r0 & Hr0 & Hlast).
  pose proof (run_inv_greedy tasks R HR Hloads k _ _ (inv_initial tasks R _)
                (inv_greedy_initial tasks R HR _) Hrun) as [_ Hbound].
  specialize (Hbound r0 Hr0).
  assert (finish_time tasks (output st) r0 = t) as Ht.
  { apply (inv_done _ _ _ Hinv).
    apply last_Some in Hlast as [pre ->]. apply elem_of_app. right. by left. }
  rewrite Ht in Hbound.
  rewrite (list_fmap_ext _ (mapped_load tasks (mapping st)) (range R))
    in Hbound.
  - rewrite total_mapped_load in Hbound; [done|apply Hinv|].
    intros j r Hj.
    assert (j < length tasks)%nat as Hlt.
    { rewrite <- (inv_len _ _ _ Hinv). by eapply lookup_lt_Some. }
    destruct (Hmap (Z.of_nat j)) as (r' & Hr' & Hlook & _); [lia|].
    rewrite Nat2Z.id in Hlook. by simplify_eq.
  - intros _ r Hr%list_elem_of_lookup_2%elem_of_range.
    symmetry. by apply (inv_load _ _ _ Hinv).
Qed.

Lemma lpt_makespan_bound_witness :
  exists m t q c,
    simulate [3; 4; 4] 2 (LPT_init [3; 4; 4] 2) = Returned (m, t, q, c) /\
    2 * t <= total [3; 4; 4] + (2 - 1) * max_load [3; 4; 4].
Proof.
  apply (lpt_makespan_bound [3; 4; 4] 2); [lia|repeat constructor; lia].
Defined.

(** * OpenMPStatic: the constructor at the edges *)

(** X12. The constructor of OpenMPStatic with no resource
    ([num_resources <= 0]): with chunk size 0 it raises
    [ZeroDivisionError] for 0 resources and builds an empty schedule for a
    negative number; with another chunk size it raises [IndexError] at the
    first task, and builds an empty schedule when there is no task. *)
Theorem static_init_no_resources (tasks : list Z) (R c : Z) :
  R <= 0 ->
  OpenMPStatic_init tasks R c
  = if decide (c = 0) then
      if decide (R = 0) then Raise ZeroDivisionError
      else Ok (mkStatic R 0 [])
    else
      match tasks with
      | [] => Ok (mkStatic R c [])
      | _ :: _ => Raise IndexError
      end.
Proof.
  intros HR. unfold OpenMPStatic_init, range.
  rewrite (seqZ_nil 0 R) by lia. simpl fmap.
  destruct (decide (c = 0)) as [->|Hc].
  - unfold py_floordiv, py_mod. destruct (decide (R = 0)) as [->|HR0]; [done|].
    by rewrite bind_Ok.
  - destruct tasks as [|l tasks]; [done|].
    rewrite seqZ_cons by (simpl length; lia). done.
Qed.

Lemma static_init_no_resources_witness :
  OpenMPStatic_init [3; 4] 0 0
  = if decide (0 = 0) then
      if decide (0 = 0) then Raise ZeroDivisionError
      else Ok (mkStatic 0 0 [])
    else
      match [3; 4] with
      | [] => Ok (mkStatic 0 0 [])
      | _ :: _ => Raise IndexError
      end.
Proof. apply (static_init_no_resources [3; 4] 0 0). lia. Defined.

Section NegativeChunk.
Variables (R c : Z).
Hypothesis R_pos : 1 <= R.
Hypothesis c_neg : c < 0.


End NegativeChunk.



(** * The simulated clock *)


Section Clock.
Context {S : Type} `{!Scheduler S}.
Variables (tasks : list Z) (R : Z).
Hypothesis loads_nonneg : Forall (fun l => 0 <= l) tasks.


End Clock.



(** * The count of resource changes *)





(** ** Contiguous Block *)

Section BlockOwner.
Variables (N R : Z).
Hypothesis R_pos : 1 <= R.
Hypothesis N_pos : 1 <= N.




End BlockOwner.



(** ** Chunked Round Robin *)

Section ChunkArith.
Variables (R c : Z).
Hypothesis R_pos : 1 <= R.
Hypothesis c_pos : 0 < c.




End ChunkArith.



(** * The list that simulate returns *)

Section Fresh.
Context {Self : Type} `{!Heap.Scheduler Self}.
Variables (σ0 : Heap.store) (tasks : Heap.loc) (scheduler : Self).
Hypothesis keeps_query :
  forall r, keeps σ0 (Heap.query scheduler r) (fun _ => True).

Lemma fresh_step resources mapping requests time :
  (length σ0 <= resources)%nat -> (length σ0 <= mapping)%nat ->
  keeps σ0 (Heap.step tasks scheduler resources mapping requests time)
    (fun x => match x with
              | Heap.Halt (ℓ, _, _, _) => (length σ0 <= ℓ)%nat
              | Heap.Next _ _ => True
              end).
Proof.
  intros Hr Hm. unfold Heap.step.
  eapply keeps_bind; [apply keeps_load_pairs|]. intros q _.
  destruct (heapq.heappop q) as [[[t r] q']|].
  - eapply keeps_bind; [by apply keeps_update|]. intros _ _.
    eapply keeps_bind; [apply keeps_query|]. intros answer _.
    eapply keeps_bind.
    { instantiate (1 := fun _ => True).
      destruct answer; [apply keeps_load_ints | by apply keeps_ret]. }
    intros new_tasks _. destruct new_tasks as [|i ts].
    + by apply keeps_ret.
    + eapply keeps_bind; [by apply keeps_assign|]. intros a _.
      destruct a as [extra|].
      * eapply keeps_bind; [apply keeps_load_pairs|]. intros q'' _.
        eapply keeps_bind; [by apply keeps_update|]. intros _ _.
        by apply keeps_ret.
      * eapply keeps_bind; [by apply keeps_alloc|]. intros e He.
        by apply keeps_ret.
  - eapply keeps_bind; [apply keeps_contig_changes|]. intros c _.
    destruct time; [by apply keeps_ret | by apply keeps_lift].
Qed.

Lemma fresh_loop fuel resources mapping requests time :
  (length σ0 <= resources)%nat -> (length σ0 <= mapping)%nat ->
  keeps σ0 (Heap.loop tasks scheduler fuel resources mapping requests time)
    (fun x => match x with
              | Some (ℓ, _, _, _) => (length σ0 <= ℓ)%nat
              | None => True
              end).
Proof.
  intros Hr Hm. revert requests time.
  induction fuel as [|fuel IH]; intros requests time; simpl;
    (eapply keeps_bind; [by apply fresh_step|]);
    intros [req t|[[[ℓ t] q] c]] Hx; try (by apply keeps_ret).
  apply IH.
Qed.

Lemma fresh_simulate R :
  keeps σ0 (Heap.simulate tasks scheduler R)
    (fun x => match x with
              | Some (ℓ, _, _, _) => (length σ0 <= ℓ)%nat
              | None => True
              end).
Proof.
  unfold Heap.simulate.
  eapply keeps_bind; [by apply keeps_alloc|]. intros resources Hr.
  eapply keeps_bind; [apply keeps_len|]. intros n _.
  eapply keeps_bind; [by apply keeps_alloc|]. intros mapping Hm.
  by apply fresh_loop.
Qed.

End Fresh.

(** X17. The list [simulate] returns is one it has made itself: with a
    policy whose [query] leaves alone the objects the caller had before the
    scheduler was made, the returned mapping (or the empty list of the
    failure tuple) is none of those objects, and all of them are as they
    were when [simulate] returns. *)
Theorem simulate_returns_new_list {Self : Type} `{!Heap.Scheduler Self}
    (σ0 σ : list Heap.obj) (tref : Heap.loc) (self : Self) (R : Z)
    (ℓ : Heap.loc) (t q c : Z) :
  (forall r, keeps σ0 (Heap.query self r) (fun _ => True)) ->
  grown σ0 σ ->
  (Heap.simulate tref self R σ).1 = Ok (Some (ℓ, t, q, c)) ->
  (length σ0 <= ℓ)%nat /\
  take (length σ0) (Heap.simulate tref self R σ).2 = σ0.
Proof.
  intros Hquery Hgrown Hres.
  destruct (fresh_simulate σ0 tref self Hquery R σ Hgrown)
    as [(_ & Htake & _) Hpost].
  split; [|done]. by apply (Hpost _ Hres).
Qed.

Lemma simulate_returns_new_list_witness :
  (1 <= 3)%nat /\
  take 1 (Heap.simulate 0%nat (Heap.mkLPT 2 1) 2
            [Heap.Ints [3; 4]; Heap.Pairs [(4, 1); (3, 0)]]).2
  = [Heap.Ints [3; 4]].
Proof.
  apply (simulate_returns_new_list [Heap.Ints [3; 4]]
           [Heap.Ints [3; 4]; Heap.Pairs [(4, 1); (3, 0)]]
           0%nat (Heap.mkLPT 2 1) 2 3%nat 4 2 1).
  - intros r. by apply keeps_lpt_query.
  - split; [simpl; lia|]. split; [reflexivity|].
    intros ℓ l Hℓ Hl.
    destruct ℓ as [|[|ℓ]]; simpl in *; [lia|done|done].
  - reflexivity.
Defined.
